(** * A CFG-to-CNF converter and a CYK parser: model and verification

    Shallow embedding of [proyecto2.py]: the class [CFGtoCNF] (five
    rewriting passes over a grammar held in an insertion-ordered
    dictionary) and the class [CYKParser] (table filling with
    back-pointers, tree reconstruction).

    Conventions of the embedding.
    - A Python [str] is a [string]; only the ASCII part of [str.lower],
      [str.islower], [str.split] and [str.strip] is modelled (bytes
      above 127 are treated as uncased, non-blank characters), so the
      embedding is that of the program on ASCII text ([is_ascii]): the
      statements about the strings that a user types, or that are
      printed and read again, are made for such text.
    - A Python [dict] is an association list in insertion order
      ([dict_set] overwrites in place or appends a new key at the end);
      a [defaultdict(list)] is the same with [dd_get]/[dd_append].
    - A Python [set] is a duplicate-free list in insertion order; the
      order in which a [for] loop visits a set is not specified by the
      language, so it is a parameter of the model ([PySetOrder]).
    - Exceptions are the [Raise] results of the [result] monad; [while]
      loops run on fuel, [OutOfFuel] being the result of a loop that was
      cut short (shown below never to happen).
    - Wall-clock time, printing and the interpreter's recursion limit
      are not modelled. *)

From Stdlib Require Import String Ascii Bool Arith ZArith Lia Permutation List.
From Stdlib Require Import DecimalString DecimalNat.
Import ListNotations.
Open Scope string_scope.
Open Scope nat_scope.
Open Scope list_scope.

Set Implicit Arguments.
Set Warnings "-register-all".

(* ================================================================= *)
(** * Results of computations that may raise *)

Inductive exn : Type := IndexError | KeyError | ValueError.

Inductive result (A : Type) : Type :=
| Ok (a : A)
| Raise (e : exn)
| OutOfFuel.

Arguments Ok {A} a.
Arguments Raise {A} e.
Arguments OutOfFuel {A}.

Definition bind {A B} (m : result A) (f : A -> result B) : result B :=
  match m with
  | Ok a => f a
  | Raise e => Raise e
  | OutOfFuel => OutOfFuel
  end.

Notation "x <- m ;; k" := (bind m (fun x => k))
  (at level 61, m at next level, right associativity).
Notation "' p <- m ;; k" := (bind m (fun p => k))
  (at level 61, p pattern, m at next level, right associativity).

(** [for x in xs: s = body(s, x)], stopping at the first exception. *)
Fixpoint for_each {X St} (xs : list X) (body : St -> X -> result St) (s : St)
  : result St :=
  match xs with
  | [] => Ok s
  | x :: xs' => s' <- body s x ;; for_each xs' body s'
  end.

(** [changed = True; while changed: (s, changed) = pass(s)]. *)
Fixpoint while_changed {St} (fuel : nat) (pass : St -> St * bool) (s : St)
  : result St :=
  match fuel with
  | O => OutOfFuel
  | S fuel' =>
      let (s', changed) := pass s in
      if changed then while_changed fuel' pass s' else Ok s'
  end.

(* ================================================================= *)
(** * Python primitives *)

(** ** Strings (ASCII) *)

Definition is_upper_char (c : ascii) : bool :=
  ((65 <=? nat_of_ascii c) && (nat_of_ascii c <=? 90))%nat.

Definition is_lower_char (c : ascii) : bool :=
  ((97 <=? nat_of_ascii c) && (nat_of_ascii c <=? 122))%nat.

(** Blank characters of [str.split()] among the ASCII ones: TAB, LF,
    VT, FF, CR, FS, GS, RS, US and the space. *)
Definition is_space_char (c : ascii) : bool :=
  let n := nat_of_ascii c in
  (((9 <=? n) && (n <=? 13)) || ((28 <=? n) && (n <=? 32)))%nat.

(** [s.lower()] on ASCII text: the letters A to Z are moved to a to z. *)
Fixpoint lower (s : string) : string :=
  match s with
  | EmptyString => EmptyString
  | String c s' =>
      String (if is_upper_char c then ascii_of_nat (nat_of_ascii c + 32) else c)
             (lower s')
  end.

Fixpoint str_exists (p : ascii -> bool) (s : string) : bool :=
  match s with
  | EmptyString => false
  | String c s' => p c || str_exists p s'
  end.

(** [s.islower()] on ASCII text: some cased character, and no
    uppercase one. *)
Definition islower (s : string) : bool :=
  str_exists is_lower_char s && negb (str_exists is_upper_char s).

(** [s.split()] on ASCII text: maximal runs of non-blank characters.
    [tok] is the run being read. *)
Fixpoint split_from (tok : string) (s : string) : list string :=
  match s with
  | EmptyString => match tok with EmptyString => [] | _ => [tok] end
  | String c s' =>
      if is_space_char c then
        match tok with
        | EmptyString => split_from EmptyString s'
        | _ => tok :: split_from EmptyString s'
        end
      else split_from (tok ++ String c EmptyString)%string s'
  end.

Definition split (s : string) : list string := split_from EmptyString s.

(** [f"X{n}"] *)
Definition format_X (n : nat) : string :=
  String "X" (NilZero.string_of_uint (Nat.to_uint n)).

(** ** Keys of dictionaries: strings, and tuples of strings *)

Class Key (K : Type) : Type := { keqb : K -> K -> bool }.

Fixpoint list_eqb {K} (eqb : K -> K -> bool) (l1 l2 : list K) : bool :=
  match l1, l2 with
  | [], [] => true
  | x :: l1', y :: l2' => eqb x y && list_eqb eqb l1' l2'
  | _, _ => false
  end.

#[export] Instance string_Key : Key string := {| keqb := String.eqb |}.

#[export] Instance list_Key {K} `{Key K} : Key (list K) :=
  {| keqb := list_eqb keqb |}.

(** The comparison of keys decides equality. *)
Class KeyLaws (K : Type) {key : Key K} : Prop :=
  { keqb_eq : forall a b : K, keqb a b = true <-> a = b }.

Arguments KeyLaws K {key}.

(** ** Lists, sets and dictionaries *)

(** [x in l] *)
Fixpoint mem {K} `{Key K} (x : K) (l : list K) : bool :=
  match l with
  | [] => false
  | y :: l' => keqb x y || mem x l'
  end.

(** [s.add(x)] *)
Definition set_add {K} `{Key K} (s : list K) (x : K) : list K :=
  if mem x s then s else s ++ [x].

(** The order in which a [for] loop visits a set: some enumeration of
    its elements, fixed by the interpreter. *)
Class PySetOrder : Type := {
  set_iter : list string -> list string;
  set_iter_perm : forall s, Permutation (set_iter s) s
}.

Definition insertion_order : PySetOrder :=
  {| set_iter := fun s => s; set_iter_perm := @Permutation_refl string |}.

(** [range(n)] and [range(a, b)] *)
Definition range (n : nat) : list nat := seq 0 n.
Definition range_from (a b : nat) : list nat := seq a (b - a).

(** [l[i]] for [0 <= i] *)
Definition list_index {A} (l : list A) (i : nat) : result A :=
  match nth_error l i with
  | Some x => Ok x
  | None => Raise IndexError
  end.

(** [l[z]] for any integer [z]: negative indices count from the end. *)
Definition py_index {A} (l : list A) (z : Z) : result A :=
  if (z <? 0)%Z then
    if (- z <=? Z.of_nat (length l))%Z
    then list_index l (length l - Z.to_nat (- z))
    else Raise IndexError
  else list_index l (Z.to_nat z).

(** [l[i] = x] for [i] in range. *)
Fixpoint list_set {A} (l : list A) (i : nat) (x : A) : list A :=
  match l, i with
  | [], _ => []
  | _ :: l', O => x :: l'
  | y :: l', S i' => y :: list_set l' i' x
  end.

(** [l[-2:]] *)
Definition last_two {A} (l : list A) : list A := skipn (length l - 2) l.

Definition dict (K V : Type) : Type := list (K * V).

Definition keys {K V} (d : dict K V) : list K := map fst d.

Fixpoint dict_get {K V} `{Key K} (d : dict K V) (k : K) : option V :=
  match d with
  | [] => None
  | (k', v) :: d' => if keqb k k' then Some v else dict_get d' k
  end.

(** [k in d] *)
Definition dict_mem {K V} `{Key K} (d : dict K V) (k : K) : bool :=
  match dict_get d k with Some _ => true | None => false end.

(** [d[k]] *)
Definition dict_getitem {K V} `{Key K} (d : dict K V) (k : K) : result V :=
  match dict_get d k with Some v => Ok v | None => Raise KeyError end.

(** [d[k] = v] *)
Fixpoint dict_set {K V} `{Key K} (d : dict K V) (k : K) (v : V) : dict K V :=
  match d with
  | [] => [(k, v)]
  | (k', v') :: d' =>
      if keqb k k' then (k', v) :: d' else (k', v') :: dict_set d' k v
  end.

(** [d[k]] on a [defaultdict(list)] or [defaultdict(set)], read only. *)
Definition dd_get {K V} `{Key K} (d : dict K (list V)) (k : K) : list V :=
  match dict_get d k with Some l => l | None => [] end.

(** [d[k].append(v)] on a [defaultdict(list)] *)
Definition dd_append {K V} `{Key K} (d : dict K (list V)) (k : K) (v : V)
  : dict K (list V) :=
  dict_set d k (dd_get d k ++ [v]).

(* ================================================================= *)
(** * Grammars *)

Definition production : Type := list string.
Definition rules_t : Type := dict string (list production).

(** The input of [CFGtoCNF]: [{'start': ..., 'rules': {var: [str]}}]. *)
Record cfg : Type := {
  start : string;
  rules : dict string (list string)
}.

(** The output of [convert]: [{'start': ..., 'rules': {var: [[str]]}}]. *)
Record cnf : Type := {
  cnf_start : string;
  cnf_rules : rules_t
}.

(** The fields of a [CFGtoCNF] object. [issued] is ghost state: the
    values returned so far by [get_new_variable], oldest first. No code
    reads it. *)
Record CFGtoCNF : Type := {
  original_grammar : cfg;
  grammar : rules_t;
  start_symbol : string;
  new_var_counter : nat;
  issued : list string
}.

Definition with_grammar (self : CFGtoCNF) (g : rules_t) : CFGtoCNF :=
  {| original_grammar := original_grammar self;
     grammar := g;
     start_symbol := start_symbol self;
     new_var_counter := new_var_counter self;
     issued := issued self |}.

Definition with_start_symbol (self : CFGtoCNF) (s : string) : CFGtoCNF :=
  {| original_grammar := original_grammar self;
     grammar := grammar self;
     start_symbol := s;
     new_var_counter := new_var_counter self;
     issued := issued self |}.

(** [CFGtoCNF.__init__] *)
Definition CFGtoCNF_init (G : cfg) : CFGtoCNF :=
  {| original_grammar := G;
     grammar := [];
     start_symbol := start G;
     new_var_counter := 0;
     issued := [] |}.

(** [get_new_variable] *)
Definition get_new_variable (self : CFGtoCNF) : string * CFGtoCNF :=
  let c := new_var_counter self + 1 in
  (format_X c,
   {| original_grammar := original_grammar self;
      grammar := grammar self;
      start_symbol := start_symbol self;
      new_var_counter := c;
      issued := issued self ++ [format_X c] |}).

(** [eliminate_start_symbol] *)
Definition eliminate_start_symbol (self : CFGtoCNF) : CFGtoCNF :=
  let new_start := "S0" in
  let g := dict_set (grammar self) new_start [[start_symbol self]] in
  let g :=
    fold_left
      (fun g '(var, productions) => dict_set g var (map split productions))
      (rules (original_grammar self)) g in
  with_start_symbol (with_grammar self g) new_start.

(** One round of the search for nullable variables. *)
Definition nullable_pass (g : rules_t) (nullable : list string)
  : list string * bool :=
  fold_left
    (fun '(nullable, changed) '(var, productions) =>
       if negb (mem var nullable) then
         if existsb (fun prod : production =>
                       forallb (fun symbol => mem symbol nullable) prod)
                    productions
         then (set_add nullable var, true)
         else (nullable, changed)
       else (nullable, changed))
    g (nullable, false).

(** [_generate_combinations] *)
Definition _generate_combinations (new_grammar : rules_t) (var : string)
  (prod : production) (nullable : list string) : rules_t :=
  dd_append new_grammar var prod.

(** [eliminate_epsilon_productions] *)
Definition eliminate_epsilon_productions (self : CFGtoCNF) : result CFGtoCNF :=
  nullable <- while_changed (S (length (grammar self)))
                            (nullable_pass (grammar self)) [] ;;
  match nullable with
  | [] => Ok self
  | _ :: _ =>
      let new_grammar :=
        fold_left
          (fun new_grammar '(var, productions) =>
             fold_left
               (fun new_grammar prod =>
                  if negb (keqb prod [""])
                  then _generate_combinations new_grammar var prod nullable
                  else new_grammar)
               productions new_grammar)
          (grammar self) [] in
      Ok (with_grammar self new_grammar)
  end.

(** [d[k].add(x)] on a [defaultdict(set)] *)
Definition dd_add {K} `{Key K} (d : dict K (list string)) (k : K) (x : string)
  : dict K (list string) :=
  dict_set d k (set_add (dd_get d k) x).

(** One round of the closure of the unit pairs. [for var in g: for prod
    in g[var]] visits the items of [g]. The set [unit_pairs[B]] visited
    by the innermost loop is never the one that grows: when [B] is
    [var], each of its elements is already in [unit_pairs[var]]. *)
Definition unit_pass `{PySetOrder} (g : rules_t)
  (unit_pairs : dict string (list string)) : dict string (list string) * bool :=
  fold_left
    (fun st '(var, productions) =>
       fold_left
         (fun '(unit_pairs, changed) (prod : production) =>
            match prod with
            | [B] =>
                if dict_mem g B then
                  fold_left
                    (fun '(unit_pairs, changed) C =>
                       if negb (mem C (dd_get unit_pairs var))
                       then (dd_add unit_pairs var C, true)
                       else (unit_pairs, changed))
                    (set_iter (dd_get unit_pairs B)) (unit_pairs, changed)
                else (unit_pairs, changed)
            | _ => (unit_pairs, changed)
            end)
         productions st)
    g (unit_pairs, false).

(** [len(prod) > 1 or prod[0] not in g] *)
Definition not_unit (g : rules_t) (prod : production) : result bool :=
  if 1 <? length prod then Ok true
  else s <- list_index prod 0 ;; Ok (negb (dict_mem g s)).

(** The first half of [eliminate_unit_productions]: the unit pairs. *)
Definition unit_closure `{PySetOrder} (g : rules_t)
  : result (dict string (list string)) :=
  let unit_pairs := fold_left (fun up var => dd_add up var var) (keys g) [] in
  while_changed (S (length g * length g)) (unit_pass g) unit_pairs.

(** The second half: the grammar without unit productions. *)
Definition build_unit_free `{PySetOrder} (g : rules_t)
  (unit_pairs : dict string (list string)) : result rules_t :=
  for_each (keys g)
    (fun new_grammar var =>
       for_each (set_iter (dd_get unit_pairs var))
         (fun new_grammar B =>
            productions <- dict_getitem g B ;;
            for_each productions
              (fun new_grammar prod =>
                 keep <- not_unit g prod ;;
                 if keep then
                   if negb (mem prod (dd_get new_grammar var))
                   then Ok (dd_append new_grammar var prod)
                   else Ok new_grammar
                 else Ok new_grammar)
              new_grammar)
         new_grammar)
    ([] : rules_t).

(** [eliminate_unit_productions] *)
Definition eliminate_unit_productions `{PySetOrder} (self : CFGtoCNF)
  : result CFGtoCNF :=
  unit_pairs <- unit_closure (grammar self) ;;
  new_grammar <- build_unit_free (grammar self) unit_pairs ;;
  Ok (with_grammar self new_grammar).

(** [symbol.islower() or symbol in ['a', 'the']] *)
Definition is_terminal (symbol : string) : bool :=
  islower symbol || mem symbol ["a"; "the"].

(** The body of the loop over the symbols of a long production in
    [convert_terminals]. *)
Definition convert_symbol
  (st : rules_t * dict string string * CFGtoCNF * production) (symbol : string)
  : rules_t * dict string string * CFGtoCNF * production :=
  let '(new_grammar, terminal_vars, self, new_prod) := st in
  if is_terminal symbol then
    match dict_get terminal_vars symbol with
    | Some X => (new_grammar, terminal_vars, self, new_prod ++ [X])
    | None =>
        let (X, self) := get_new_variable self in
        (dict_set new_grammar X [[symbol]], dict_set terminal_vars symbol X,
         self, new_prod ++ [X])
    end
  else (new_grammar, terminal_vars, self, new_prod ++ [symbol]).

Definition convert_production (var : string)
  (st : rules_t * dict string string * CFGtoCNF) (prod : production)
  : rules_t * dict string string * CFGtoCNF :=
  let '(new_grammar, terminal_vars, self) := st in
  if length prod =? 1 then (dd_append new_grammar var prod, terminal_vars, self)
  else
    let '(new_grammar, terminal_vars, self, new_prod) :=
      fold_left convert_symbol prod (new_grammar, terminal_vars, self, []) in
    (dd_append new_grammar var new_prod, terminal_vars, self).

(** The loops of [convert_terminals]: the new grammar, the variable of
    each terminal, and the object with its counter. *)
Definition convert_terminals_loop (self : CFGtoCNF)
  : rules_t * dict string string * CFGtoCNF :=
  fold_left
    (fun st '(var, productions) =>
       fold_left (convert_production var) productions st)
    (grammar self) ([], [], self).

(** [convert_terminals] *)
Definition convert_terminals (self : CFGtoCNF) : CFGtoCNF :=
  let '(new_grammar, _, self) := convert_terminals_loop self in
  with_grammar self new_grammar.

(** The body of the loop over the productions in
    [break_long_productions]; [prod[i]] is read for [i < len(prod) - 2]
    only. *)
Definition break_production (var : string) (st : rules_t * CFGtoCNF)
  (prod : production) : rules_t * CFGtoCNF :=
  let '(new_grammar, self) := st in
  if length prod <=? 2 then (dd_append new_grammar var prod, self)
  else
    let '(new_grammar, self, current_var) :=
      fold_left
        (fun '(new_grammar, self, current_var) i =>
           let (new_var, self) := get_new_variable self in
           (dd_append new_grammar current_var [nth i prod ""; new_var],
            self, new_var))
        (range (length prod - 2)) (new_grammar, self, var) in
    (dd_append new_grammar current_var (last_two prod), self).

(** The loops of [break_long_productions]. *)
Definition break_long_productions_loop (self : CFGtoCNF) : rules_t * CFGtoCNF :=
  fold_left
    (fun st '(var, productions) =>
       fold_left (break_production var) productions st)
    (grammar self) ([], self).

(** [break_long_productions] *)
Definition break_long_productions (self : CFGtoCNF) : CFGtoCNF :=
  let '(new_grammar, self) := break_long_productions_loop self in
  with_grammar self new_grammar.

(** [convert]; the object is returned next to the grammar, for its
    counter and the names it issued. *)
Definition convert `{PySetOrder} (self : CFGtoCNF) : result (cnf * CFGtoCNF) :=
  let self := eliminate_start_symbol self in
  self <- eliminate_epsilon_productions self ;;
  self <- eliminate_unit_productions self ;;
  let self := convert_terminals self in
  let self := break_long_productions self in
  Ok ({| cnf_start := start_symbol self; cnf_rules := grammar self |}, self).

(** [CFGtoCNF(G).convert()] *)
Definition normalize `{PySetOrder} (G : cfg) : result cnf :=
  '(g, _) <- convert (CFGtoCNF_init G) ;; Ok g.

Definition demo_grammar : cfg :=
  {| start := "S";
     rules := [("S", ["NP VP"]);
               ("VP", ["VP PP"; "V NP"; "cooks"; "drinks"; "eats"; "cuts"]);
               ("PP", ["P NP"]);
               ("NP", ["Det N"; "he"; "she"]);
               ("V", ["cooks"; "drinks"; "eats"; "cuts"]);
               ("P", ["in"; "with"]);
               ("N", ["cat"; "dog"; "beer"; "cake"; "juice"; "meat"; "soup";
                      "fork"; "knife"; "oven"; "spoon"]);
               ("Det", ["a"; "the"])] |}.

(* ================================================================= *)
(** * The CYK parser *)

(** A back-pointer: [(prod[0], None, None)] on the diagonal,
    [(B, C, k, i, i + k + 1)] elsewhere. *)
Inductive entry : Type :=
| terminal_entry (terminal : string)
| split_entry (B C : string) (k left_start right_start : nat).

Definition table_t : Type := list (list (list string)).
Definition backpointer_t : Type := list (list (dict string (list entry))).
Definition parse_data_t : Type := (table_t * backpointer_t * list string)%type.

(** The fields of a [CYKParser] object. *)
Record CYKParser : Type := {
  cyk_start_symbol : string;
  cyk_grammar : rules_t;
  reverse_grammar : dict production (list string)
}.

(** [_build_reverse_grammar]; the key [tuple(prod)] is the list [prod]. *)
Definition _build_reverse_grammar (g : rules_t) : dict production (list string) :=
  fold_left
    (fun reverse '(var, productions) =>
       fold_left (fun reverse (prod : production) => dd_append reverse prod var)
                 productions reverse)
    g [].

(** [CYKParser.__init__] *)
Definition CYKParser_init (cnf_grammar : cnf) : CYKParser :=
  {| cyk_start_symbol := cnf_start cnf_grammar;
     cyk_grammar := cnf_rules cnf_grammar;
     reverse_grammar := _build_reverse_grammar (cnf_rules cnf_grammar) |}.

(** [sentence.lower().split()] *)
Definition tokenize (sentence : string) : list string := split (lower sentence).

(** [table[i][j].add(A); backpointer[i][j][A].append(e)] *)
Definition record_entry (i j : nat) (A : string) (e : entry)
  (st : table_t * backpointer_t) : result (table_t * backpointer_t) :=
  let '(table, backpointer) := st in
  row <- list_index table i ;;
  cell <- list_index row j ;;
  let table := list_set table i (list_set row j (set_add cell A)) in
  brow <- list_index backpointer i ;;
  bcell <- list_index brow j ;;
  let backpointer := list_set backpointer i (list_set brow j (dd_append bcell A e)) in
  Ok (table, backpointer).

(** Step 1 of [parse]: the diagonal. *)
Definition fill_diagonal (self : CYKParser) (words : list string)
  (st : table_t * backpointer_t) : result (table_t * backpointer_t) :=
  for_each (range (length words))
    (fun st i =>
       word <- list_index words i ;;
       for_each (cyk_grammar self)
         (fun st '(var, productions) =>
            for_each productions
              (fun st (prod : production) =>
                 match prod with
                 | [t] =>
                     if String.eqb t word
                     then record_entry i 0 var (terminal_entry t) st
                     else Ok st
                 | _ => Ok st
                 end)
              st)
         st)
    st.

(** The loops over [B], [C] and [A] for one split point [k] of the span
    that starts at [i] and has [j + 1] words. The sets [left_vars] and
    [right_vars] are cells other than [table[i][j]], the only cell
    written here, since [k < j]. *)
Definition combine_split `{PySetOrder} (self : CYKParser) (i j k : nat)
  (st : table_t * backpointer_t) : result (table_t * backpointer_t) :=
  left_row <- list_index (fst st) i ;;
  left_vars <- list_index left_row k ;;
  right_row <- list_index (fst st) (i + k + 1) ;;
  right_vars <- list_index right_row (j - k - 1) ;;
  for_each (set_iter left_vars)
    (fun st B =>
       for_each (set_iter right_vars)
         (fun st C =>
            let key := [B; C] in
            match dict_get (reverse_grammar self) key with
            | Some vars =>
                for_each vars
                  (fun st A =>
                     record_entry i j A (split_entry B C k i (i + k + 1)) st)
                  st
            | None => Ok st
            end)
         st)
    st.

(** Step 2 of [parse]: spans of 2 to [n] words. *)
Definition fill_spans `{PySetOrder} (self : CYKParser) (n : nat)
  (st : table_t * backpointer_t) : result (table_t * backpointer_t) :=
  for_each (range_from 2 (n + 1))
    (fun st len =>
       for_each (range (n - len + 1))
         (fun st i =>
            let j := len - 1 in
            for_each (range (len - 1)) (fun st k => combine_split self i j k st) st)
         st)
    st.

(** The two tables of [parse] once filled. *)
Definition fill_tables `{PySetOrder} (self : CYKParser) (words : list string)
  : result (table_t * backpointer_t) :=
  let n := length words in
  let table : table_t := repeat (repeat [] n) n in
  let backpointer : backpointer_t := repeat (repeat [] n) n in
  st <- fill_diagonal self words (table, backpointer) ;;
  fill_spans self n st.

(** [parse], without the clock: the flag and the data for the tree. *)
Definition parse `{PySetOrder} (self : CYKParser) (sentence : string)
  : result (bool * option parse_data_t) :=
  let words := tokenize sentence in
  let n := length words in
  st <- fill_tables self words ;;
  let '(table, backpointer) := st in
  row <- list_index table 0 ;;
  cell <- py_index row (Z.of_nat n - 1) ;;
  let accepts := mem (cyk_start_symbol self) cell in
  Ok (accepts, if accepts then Some (table, backpointer, words) else None).

(** A parse tree: [{'symbol', 'terminal'}] or [{'symbol', 'left',
    'right'}], a child being [None] when it has no back-pointer. *)
Inductive tree : Type :=
| Leaf (symbol terminal : string)
| Node (symbol : string) (left right : option tree).

(** [entry[0]] *)
Definition entry_0 (e : entry) : string :=
  match e with
  | terminal_entry t => t
  | split_entry B _ _ _ _ => B
  end.

(** The local function [build_tree] of [build_parse_tree]; [fuel] bounds
    the depth of the recursion. Unpacking a 3-tuple into five names
    raises [ValueError]. *)
Fixpoint build_tree (fuel : nat) (backpointer : backpointer_t) (var : string)
  (i : nat) (j : Z) : result (option tree) :=
  match fuel with
  | O => OutOfFuel
  | S fuel' =>
      row <- list_index backpointer i ;;
      cell <- py_index row j ;;
      let entries := dd_get cell var in
      if (j =? 0)%Z then
        match entries with
        | e :: _ => Ok (Some (Leaf var (entry_0 e)))
        | [] => Ok None
        end
      else
        match entries with
        | split_entry B C k left_start right_start :: _ =>
            l <- build_tree fuel' backpointer B left_start (Z.of_nat k) ;;
            r <- build_tree fuel' backpointer C right_start
                            (j - Z.of_nat k - 1)%Z ;;
            Ok (Some (Node var l r))
        | terminal_entry _ :: _ => Raise ValueError
        | [] => Ok None
        end
  end.

(** [build_parse_tree] *)
Definition build_parse_tree (self : CYKParser) (parse_data : option parse_data_t)
  : result (option tree) :=
  match parse_data with
  | None => Ok None
  | Some (table, backpointer, words) =>
      let n := length words in
      build_tree (S n) backpointer (cyk_start_symbol self) 0 (Z.of_nat n - 1)
  end.

(** The terminals at the leaves of a tree, left to right. *)
Fixpoint leaves (t : tree) : list string :=
  match t with
  | Leaf _ terminal => [terminal]
  | Node _ l r =>
      match l with Some t' => leaves t' | None => [] end ++
      match r with Some t' => leaves t' | None => [] end
  end.

Definition root (t : tree) : string :=
  match t with
  | Leaf symbol _ => symbol
  | Node symbol _ _ => symbol
  end.

(** [parser = CYKParser(CFGtoCNF(G).convert()); parser.parse(s)[0]] *)
Definition accepted `{PySetOrder} (G : cfg) (sentence : string) : result bool :=
  g <- normalize G ;;
  r <- parse (CYKParser_init g) sentence ;;
  Ok (fst r).

(* ================================================================= *)
(** * Specification vocabulary *)

(** [A -> body] is a production of [g], read off the items of [g]. *)
Definition has_prod (g : rules_t) (A : string) (body : production) : Prop :=
  exists productions, In (A, productions) g /\ In body productions.

(** [span g words A i len]: [A] derives the [len] words from position
    [i] on, by productions of one terminal or of two variables. *)
Inductive span (g : rules_t) (words : list string)
  : string -> nat -> nat -> Prop :=
| span_word A i t :
    nth_error words i = Some t -> has_prod g A [t] -> span g words A i 1
| span_split A B C i l1 l2 :
    has_prod g A [B; C] -> span g words B i l1 -> span g words C (i + l1) l2 ->
    span g words A i (l1 + l2).

(** [table[i][j]] and [backpointer[i][j][A]], empty out of range. *)
Definition cell (table : table_t) (i j : nat) : list string :=
  nth j (nth i table []) [].

Definition bcell (backpointer : backpointer_t) (i j : nat) (A : string)
  : list entry :=
  dd_get (nth j (nth i backpointer []) []) A.

(** [words[i : i + len]] *)
Definition slice {A} (l : list A) (i len : nat) : list A :=
  firstn len (skipn i l).

(** Both tables are [n] by [n]. *)
Definition dims (n : nat) (st : table_t * backpointer_t) : Prop :=
  (length (fst st) = n /\ forall i, i < n -> length (nth i (fst st) []) = n) /\
  (length (snd st) = n /\ forall i, i < n -> length (nth i (snd st) []) = n).

(** What a back-pointer of [A] in cell [(i, j)] records. *)
Definition entry_ok (g : rules_t) (words : list string) (table : table_t)
  (i j : nat) (A : string) (e : entry) : Prop :=
  match e with
  | terminal_entry t =>
      j = 0 /\ nth_error words i = Some t /\ has_prod g A [t]
  | split_entry B C k left_start right_start =>
      k < j /\ left_start = i /\ right_start = i + k + 1 /\
      i + j < length words /\
      In B (cell table i k) /\ In C (cell table right_start (j - k - 1)) /\
      has_prod g A [B; C]
  end.

(** The invariant of the two tables: a variable is in a cell exactly
    when it has a back-pointer there, and each back-pointer is
    justified by a production and by the cells it points to. *)
Definition tables_ok (g : rules_t) (words : list string)
  (st : table_t * backpointer_t) : Prop :=
  dims (length words) st /\
  forall i j A,
    (In A (cell (fst st) i j) <-> bcell (snd st) i j A <> []) /\
    (forall e, In e (bcell (snd st) i j A) -> entry_ok g words (fst st) i j A e).

(** Cells only grow. *)
Definition extends (st st' : table_t * backpointer_t) : Prop :=
  forall i j A, In A (cell (fst st) i j) -> In A (cell (fst st') i j).

(** The cells of the spans of at most [len] words hold every variable
    that derives the span. *)
Definition complete (g : rules_t) (words : list string) (len : nat)
  (st : table_t * backpointer_t) : Prop :=
  forall i A l, 1 <= l <= len -> span g words A i l ->
                In A (cell (fst st) i (l - 1)).

(** A small grammar in Chomsky normal form, for examples. *)
Definition ab_grammar : cnf :=
  {| cnf_start := "S0";
     cnf_rules := [("S0", [["A"; "B"]]); ("A", [["a"]]); ("B", [["b"]])] |}.

(** The data returned by [parse], if any. *)
Definition parse_data_of (r : result (bool * option parse_data_t))
  : option parse_data_t :=
  match r with
  | Ok (_, data) => data
  | _ => None
  end.

(** No production of the grammar is the empty list (no rule string was
    empty or blank). *)
Definition no_empty_production (g : rules_t) : Prop :=
  forall var ps, In (var, ps) g -> ~ In [] ps.

(** A grammar with an empty rule string and a variable without rules. *)
Definition blank_grammar : cfg :=
  {| start := "S"; rules := [("S", [""]); ("A", [])] |}.

(** [unit_reach g A C]: [C] is reached from the variable [A] through a
    chain of unit productions [A -> B] between variables of [g]. *)
Inductive unit_reach (g : rules_t) : string -> string -> Prop :=
| unit_reach_refl A : In A (keys g) -> unit_reach g A A
| unit_reach_step A B C :
    In [B] (dd_get g A) -> In B (keys g) -> unit_reach g B C ->
    unit_reach g A C.

(** The unit pairs are sets of variables of [g], indexed by variables of
    [g]. *)
Definition unit_pairs_ok (g : rules_t) (up : dict string (list string)) : Prop :=
  NoDup (keys up) /\ incl (keys up) (keys g) /\
  forall k s, In (k, s) up -> NoDup s /\ incl s (keys g).

(** The number of unit pairs. *)
Definition total_pairs (up : dict string (list string)) : nat :=
  list_sum (map (fun kv => length (snd kv)) up).

(** The unit pairs are closed under the unit productions of [g]. *)
Definition unit_closed (g : rules_t) (up : dict string (list string)) : Prop :=
  forall var ps B C,
    In (var, ps) g -> In [B] ps -> dict_mem g B = true ->
    In C (dd_get up B) -> In C (dd_get up var).

(** How a round of the closure moves from one state to the next: pairs
    are only added, and the flag tells whether one was. *)
Definition pass_step (a b : dict string (list string) * bool) : Prop :=
  (forall k x, In x (dd_get (fst a) k) -> In x (dd_get (fst b) k)) /\
  total_pairs (fst a) <= total_pairs (fst b) /\
  (snd a = true -> snd b = true) /\
  (snd b = true -> snd a = true \/ total_pairs (fst a) < total_pairs (fst b)) /\
  (snd b = false -> fst b = fst a).

(** Each unit pair is justified by a chain of unit productions. *)
Definition unit_pairs_sound (g : rules_t) (up : dict string (list string))
  : Prop :=
  forall k x, In x (dd_get up k) -> unit_reach g k x.

(** Each variable is paired with itself. *)
Definition unit_pairs_refl (g : rules_t) (up : dict string (list string))
  : Prop :=
  forall k, In k (keys g) -> In k (dd_get up k).

(** A production that [eliminate_unit_productions] keeps: more than one
    symbol, or one symbol that is not a variable of [g]. *)
Definition non_unit (g : rules_t) (p : production) : Prop :=
  1 < length p \/ exists s, p = [s] /\ ~ In s (keys g).

(** Each rule string of the input has at least one symbol. *)
Definition no_blank_rule (G : cfg) : Prop :=
  forall var prods p, In (var, prods) (rules G) -> In p prods -> split p <> [].

(** A grammar whose start symbol [T] and whose symbol [A] have no
    entry. *)
Definition undefined_grammar : cfg :=
  {| start := "T"; rules := [("S", ["A b"])] |}.

(** The names issued so far are [X1], ..., [Xc], [c] being the counter. *)
Definition log_ok (self : CFGtoCNF) : Prop :=
  issued self = map format_X (seq 1 (new_var_counter self)).



(** [S -> a S b | a b] *)
Definition anbn_grammar : cfg :=
  {| start := "S"; rules := [("S", ["a S b"; "a b"])] |}.

(** The productions of a grammar in the order the passes visit them. *)
Definition flat (g : rules_t) : list (string * production) :=
  flat_map (fun vp => map (pair (fst vp)) (snd vp)) g.




(** A variable, as opposed to a terminal, that is defined in [g] or
    belongs to the list [K]. *)
Definition variable_of (g : rules_t) (K : list string) (s : string) : Prop :=
  is_terminal s = false /\ (In s (keys g) \/ In s K).





(** ** The language of a grammar, as the passes read it

    [sgen U g words A i len]: the variable [A] derives the [len] words
    from position [i] on. A body of one symbol [B] is a unit production
    when [U B] holds and the word [B] itself otherwise; in a longer
    body a lowercase symbol is a word and any other symbol is a
    variable. [U] is membership in the keys of the grammar before pass
    3, and is empty from pass 3 on. *)
Inductive sgen (U : string -> Prop) (g : rules_t) (words : list string)
  : string -> nat -> nat -> Prop :=
| sgen_unit A B i len :
    In [B] (dd_get g A) -> U B -> sgen U g words B i len ->
    sgen U g words A i len
| sgen_word A t i :
    In [t] (dd_get g A) -> ~ U t -> nth_error words i = Some t ->
    sgen U g words A i 1
| sgen_long A body i len :
    In body (dd_get g A) -> 2 <= length body -> sgens U g words body i len ->
    sgen U g words A i len
with sgens (U : string -> Prop) (g : rules_t) (words : list string)
  : production -> nat -> nat -> Prop :=
| sgens_nil i : sgens U g words [] i 0
| sgens_terminal s body i len :
    is_terminal s = true -> nth_error words i = Some s ->
    sgens U g words body (S i) len ->
    sgens U g words (s :: body) i (S len)
| sgens_variable s body i l1 l2 :
    is_terminal s = false -> sgen U g words s i l1 ->
    sgens U g words body (i + l1) l2 ->
    sgens U g words (s :: body) i (l1 + l2).

Scheme sgen_mutual := Minimality for sgen Sort Prop
  with sgens_mutual := Minimality for sgens Sort Prop.

Combined Scheme sgen_sgens_ind from sgen_mutual, sgens_mutual.

(** No key: the reading of the grammars from pass 3 on. *)
Definition no_unit : string -> Prop := fun _ => False.

(** The keys of [g]: the reading of the grammar before pass 3. *)
Definition key_of (g : rules_t) : string -> Prop := fun B => In B (keys g).

(** [spans g words body i len]: the symbols of [body], read as
    variables, derive the [len] words from position [i] on, one after
    the other. *)
Inductive spans (g : rules_t) (words : list string)
  : production -> nat -> nat -> Prop :=
| spans_nil i : spans g words [] i 0
| spans_cons s body i l1 l2 :
    span g words s i l1 -> spans g words body (i + l1) l2 ->
    spans g words (s :: body) i (l1 + l2).

(** Each production has one symbol, or two symbols that are not
    terminals. *)
Definition chomsky (g : rules_t) : Prop :=
  forall A p,
    In p (dd_get g A) ->
    length p = 1 \/
    exists B C, p = [B; C] /\ is_terminal B = false /\ is_terminal C = false.

(** The symbol that pass 4 writes for [s] in a long body. *)
Definition subst_terminal (tv : dict string string) (s : string) : string :=
  if is_terminal s then
    match dict_get tv s with Some X => X | None => s end
  else s.

(** The production that pass 4 writes for [q]. *)
Definition converted (tv : dict string string) (q : production) : production :=
  if length q =? 1 then q else map (subst_terminal tv) q.

(** The state of pass 4 once the productions [done] are converted,
    when no variable is named like a generated one: the variables of
    the terminals are distinct names issued after [c0], and the new
    grammar holds the converted productions and one production per
    terminal. *)
Definition terminals_exact (c0 : nat) (done : list (string * production))
  (st : rules_t * dict string string * CFGtoCNF) : Prop :=
  let ng := fst (fst st) in
  let tv := snd (fst st) in
  let self := snd st in
  (forall t X, dict_get tv t = Some X ->
               is_terminal t = true /\
               exists k, c0 < k <= new_var_counter self /\ X = format_X k) /\
  (forall t1 t2 X, dict_get tv t1 = Some X -> dict_get tv t2 = Some X ->
                   t1 = t2) /\
  (forall A p,
      In p (dd_get ng A) <->
      (exists q, In (A, q) done /\ p = converted tv q) \/
      (exists t, dict_get tv t = Some A /\ p = [t])) /\
  (forall A q s, In (A, q) done -> length q <> 1 -> In s q ->
                 is_terminal s = true -> dict_get tv s <> None) /\
  NoDup (keys ng) /\
  c0 <= new_var_counter self.

(** [tv'] has the entries of [tv]. *)
Definition dict_extends {V} (tv tv' : dict string V) : Prop :=
  forall t X, dict_get tv t = Some X -> dict_get tv' t = Some X.

(** ** What pass 5 writes

    [chain cur c q]: the productions that [break_long_productions]
    appends for the production [cur -> q] when the counter is [c]; a
    body of at most two symbols is kept, a longer one [a :: rest] gives
    [cur -> a X] for the next name [X] and the chain of [X -> rest]. *)
Fixpoint chain (cur : string) (c : nat) (q : production)
  : list (string * production) :=
  match q with
  | a :: rest =>
      match rest with
      | _ :: _ :: _ =>
          (cur, [a; format_X (S c)]) :: chain (format_X (S c)) (S c) rest
      | _ => [(cur, q)]
      end
  | [] => [(cur, q)]
  end.

(** The part of the body that each variable of the chain stands for. *)
Fixpoint chain_meanings (c : nat) (q : production)
  : list (string * production) :=
  match q with
  | a :: rest =>
      match rest with
      | _ :: _ :: _ => (format_X (S c), rest) :: chain_meanings (S c) rest
      | _ => []
      end
  | [] => []
  end.

(** The chains of the productions [l], visited in order from the
    counter [c] on. *)
Fixpoint all_chains (c : nat) (l : list (string * production))
  : list (string * production) :=
  match l with
  | [] => []
  | (A, q) :: l' => chain A c q ++ all_chains (c + (length q - 2)) l'
  end.

Fixpoint all_meanings (c : nat) (l : list (string * production))
  : list (string * production) :=
  match l with
  | [] => []
  | (A, q) :: l' => chain_meanings c q ++ all_meanings (c + (length q - 2)) l'
  end.

(** [d[A].append(p)] for each [(A, p)] of a list. *)
Definition append_all (items : list (string * production)) (ng : rules_t)
  : rules_t :=
  fold_left (fun ng x => dd_append ng (fst x) (snd x)) items ng.

(** [link M p r]: the production [p] stands for the body [r], directly
    or through a variable of [M] that stands for the tail of [r]. *)
Definition link (M : list (string * production)) (p r : production) : Prop :=
  (p = r /\ length r <= 2) \/
  exists a rest X, r = a :: rest /\ p = [a; X] /\ In (X, rest) M.

(** The production [B -> q] is visited when the counter is [c'], in the
    visit of [l] from [c] on. *)
Definition occurs (c : nat) (l : list (string * production))
  (B : string) (q : production) (c' : nat) : Prop :=
  In (B, q) l /\ c <= c' /\
  incl (chain B c' q) (all_chains c l) /\
  incl (chain_meanings c' q) (all_meanings c l).

(** A production of one symbol, or of two symbols or more that are not
    terminals. *)
Definition long_variables (q : production) : Prop :=
  length q = 1 \/ (2 <= length q /\ forall s, In s q -> is_terminal s = false).

(** ** Names, reordering and the language of a grammar *)

(** No variable of [g] and no symbol of a body of two symbols or more
    is a name that [get_new_variable] returns after the counter [c]. *)
Definition fresh_names (c : nat) (g : rules_t) : Prop :=
  (forall k A q, c < k -> In (A, q) (flat g) -> A <> format_X k) /\
  (forall A q s k, In (A, q) (flat g) -> 2 <= length q -> In s q -> c < k ->
                   s <> format_X k).

(** No non-terminal and no symbol of a rule of [G] is named [X<k>]. *)
Definition no_generated_name (G : cfg) : Prop :=
  forall k,
    ~ In (format_X k) (keys (rules G)) /\
    forall var prods p, In (var, prods) (rules G) -> In p prods ->
                        ~ In (format_X k) (split p).



(** A sufficient test: no name starts with [X]. *)
Definition starts_with_X (s : string) : bool :=
  match s with
  | String c _ => Ascii.eqb c "X"
  | EmptyString => false
  end.

Definition no_X_name (G : cfg) : bool :=
  forallb
    (fun r : string * list string =>
       negb (starts_with_X (fst r)) &&
       forallb (fun p => forallb (fun s => negb (starts_with_X s)) (split p))
               (snd r))
    (rules G).



(** The sentences of [G]: the words that the new start symbol derives
    in the grammar that pass 1 builds. *)
Definition language (G : cfg) (words : list string) : Prop :=
  let g1 := grammar (eliminate_start_symbol (CFGtoCNF_init G)) in
  sgen (key_of g1) g1 words "S0" 0 (length words).


(** ** Derivation trees and what [print_tree] prints *)

(** [t] is a derivation tree of [g]: a leaf is a production of one
    symbol, an inner node has two children and is a production of their
    two roots. *)
Fixpoint derivation (g : rules_t) (t : tree) : Prop :=
  match t with
  | Leaf A w => has_prod g A [w]
  | Node A (Some l) (Some r) =>
      has_prod g A [root l; root r] /\ derivation g l /\ derivation g r
  | Node _ _ _ => False
  end.

(** The number of dictionaries of a tree. *)
Fixpoint nodes (t : tree) : nat :=
  match t with
  | Leaf _ _ => 1
  | Node _ l r =>
      1 + match l with Some t' => nodes t' | None => 0 end
        + match r with Some t' => nodes t' | None => 0 end
  end.

(** [s * n] *)
Fixpoint repeat_string (s : string) (n : nat) : string :=
  match n with
  | O => EmptyString
  | S n' => (s ++ repeat_string s n')%string
  end.

(** [print_tree] on a tree that is not [None]: the lines printed, first
    to last. Both keys ['left'] and ['right'] are in every inner node
    that [build_parse_tree] makes. *)
Fixpoint print_node (t : tree) (indent : nat) : list string :=
  let prefix := repeat_string "  " indent in
  match t with
  | Leaf symbol terminal => [(prefix ++ symbol ++ " -> " ++ terminal)%string]
  | Node symbol l r =>
      [(prefix ++ symbol)%string]
      ++ match l with Some t' => print_node t' (indent + 1) | None => [] end
      ++ match r with Some t' => print_node t' (indent + 1) | None => [] end
  end.

(** [print_tree] *)
Definition print_tree (tree : option tree) (indent : nat) : list string :=
  match tree with
  | None => []
  | Some t => print_node t indent
  end.

(** ** Blank strings, [strip] and [join] *)

(** Every character is ASCII white space. *)
Definition blank (s : string) : bool :=
  negb (str_exists (fun c => negb (is_space_char c)) s).

(** [s.lstrip()], [s.rstrip()] and [s.strip()] on ASCII text *)
Fixpoint lstrip (s : string) : string :=
  match s with
  | EmptyString => EmptyString
  | String c s' => if is_space_char c then lstrip s' else s
  end.

Fixpoint rstrip (s : string) : string :=
  match s with
  | EmptyString => EmptyString
  | String c s' =>
      match rstrip s' with
      | EmptyString => if is_space_char c then EmptyString else String c EmptyString
      | r => String c r
      end
  end.

Definition strip (s : string) : string := rstrip (lstrip s).

(** [sep.join(l)] *)
Fixpoint join (sep : string) (l : list string) : string :=
  match l with
  | [] => EmptyString
  | [x] => x
  | x :: l' => (x ++ sep ++ join sep l')%string
  end.

(** A symbol as [split] returns them: not empty, without ASCII white
    space. *)
Definition word (s : string) : Prop :=
  s <> EmptyString /\ str_exists is_space_char s = false.

(** ASCII text: every character is below 128. On such text [lower],
    [islower], [split], [strip] and [blank] are the functions of
    Python. *)
Definition is_ascii (s : string) : bool :=
  negb (str_exists (fun c => 128 <=? nat_of_ascii c) s).

(** Every string of the grammar is ASCII text. *)
Definition ascii_grammar (G : cfg) : Prop :=
  is_ascii (start G) = true /\
  forall var prods, In (var, prods) (rules G) ->
    is_ascii var = true /\ forall p, In p prods -> is_ascii p = true.

(** ** The commands of the menu that call the parser

    The line typed by the user is a parameter. Of what is printed, the
    verdict and the lines of the tree are kept; the clock and the fixed
    messages are left out. *)

(** [test_user_sentence]: [None] when the function returns at once. *)
Definition test_user_sentence `{PySetOrder} (parser : CYKParser) (line : string)
  : result (option (bool * list string)) :=
  let sentence := strip line in
  if String.eqb sentence EmptyString then Ok None
  else
    r <- parse parser sentence ;;
    let '(accepts, parse_data) := r in
    if accepts then
      tree <- build_parse_tree parser parse_data ;;
      Ok (Some (true, print_tree tree 0))
    else Ok (Some (false, [])).

(** The sentences of [run_examples]. *)
Definition test_sentences : list string :=
  ["she eats a cake"; "he drinks the beer";
   "the cat cooks the soup with a dog"; "she eats the fork";
   "she eats"; "eats a cake"; "the cat quickly drinks beer"].

(** [run_examples]: the verdict and the tree printed for each example. *)
Definition run_examples `{PySetOrder} (parser : CYKParser)
  : result (list (bool * list string)) :=
  for_each test_sentences
    (fun out sentence =>
       r <- parse parser sentence ;;
       let '(accepts, parse_data) := r in
       if accepts then
         tree <- build_parse_tree parser parse_data ;;
         Ok (out ++ [(true, print_tree tree 0)])
       else Ok (out ++ [(false, [])]))
    [].

(** ** Where the productions of passes 4 and 5 come from *)

(** A symbol that pass 4 writes in a body of two symbols or more: not a
    terminal, and a generated name or a symbol of the old body [q0]. *)
Definition from_body (q0 : production) (s : string) : Prop :=
  is_terminal s = false /\ ((exists k, s = format_X k) \/ In s q0).

(** The production [A -> q] of the grammar written by pass 4 on [g]: a
    production of one symbol of [g]; or the production [X -> t] of a
    generated name, for a terminal [t] of a longer body of [g]; or the
    image of a longer production [A -> q0] of [g], of the same
    length. *)
Definition terminals_origin (g : rules_t) (A : string) (q : production)
  : Prop :=
  (length q = 1 /\ In (A, q) (flat g)) \/
  (exists t B q0,
      q = [t] /\ is_terminal t = true /\ (exists k, A = format_X k) /\
      In (B, q0) (flat g) /\ length q0 <> 1 /\ In t q0) \/
  (exists q0,
      In (A, q0) (flat g) /\ length q0 <> 1 /\ length q = length q0 /\
      forall s, In s q -> from_body q0 s).

(** A grammar after pass 3, for examples: [S0 -> a S b | a b],
    [S -> a S b | a b]. *)
Definition anbn_unit_free : CFGtoCNF :=
  with_grammar (CFGtoCNF_init anbn_grammar)
               [("S0", [["a"; "S"; "b"]; ["a"; "b"]]);
                ("S", [["a"; "S"; "b"]; ["a"; "b"]])].

(** The grammar that the passes read in [G] when [S0] is not one of its
    non-terminals: the new start rule, and each rule string split into
    symbols. *)
Definition split_rules (G : cfg) : rules_t :=
  ("S0", [[start G]])
  :: map (fun r : string * list string => (fst r, map split (snd r))) (rules G).

(** Another order, for examples: last inserted first. *)
Definition reverse_order : PySetOrder :=
  {| set_iter := @rev string;
     set_iter_perm := fun s => Permutation_sym (Permutation_rev s) |}.

(* ================================================================= *)
(** * Keys, lists and dictionaries *)

#[export] Instance string_KeyLaws : KeyLaws string :=
  {| keqb_eq := String.eqb_eq |}.

Lemma list_eqb_eq {K} (eqb : K -> K -> bool) :
  (forall a b, eqb a b = true <-> a = b) ->
  forall l1 l2, list_eqb eqb l1 l2 = true <-> l1 = l2.
Proof.
  intros Heq l1; induction l1 as [|x l1 IH]; intros [|y l2]; simpl;
    try (split; congruence).
  rewrite andb_true_iff, Heq, IH. split.
  - intros [-> ->]; reflexivity.
  - intros E; injection E; auto.
Qed.

#[export] Instance list_KeyLaws {K} `{KeyLaws K} : KeyLaws (list K).
Proof. constructor. exact (list_eqb_eq (@keqb K _) keqb_eq). Qed.

Section KeyFacts.
Context {K : Type} `{KeyLaws K}.

Lemma keqb_refl (a : K) : keqb a a = true.
Proof. apply keqb_eq; reflexivity. Qed.

Lemma keqb_neq (a b : K) : keqb a b = false <-> a <> b.
Proof.
  destruct (keqb a b) eqn:E.
  - apply keqb_eq in E. split; congruence.
  - split; [intros _ Hab|reflexivity]. apply keqb_eq in Hab. congruence.
Qed.

Lemma key_eq_dec (a b : K) : {a = b} + {a <> b}.
Proof.
  destruct (keqb a b) eqn:E.
  - left; apply keqb_eq; exact E.
  - right; apply keqb_neq; exact E.
Qed.

Lemma mem_In (x : K) (l : list K) : mem x l = true <-> In x l.
Proof.
  induction l as [|y l IH]; simpl.
  - split; [discriminate|tauto].
  - rewrite orb_true_iff, IH, keqb_eq. split; intros [E|E]; auto.
Qed.

Lemma mem_not_In (x : K) (l : list K) : mem x l = false <-> ~ In x l.
Proof.
  rewrite <- mem_In. destruct (mem x l); split; congruence.
Qed.

Lemma In_set_add (s : list K) (x y : K) :
  In y (set_add s x) <-> In y s \/ y = x.
Proof.
  unfold set_add. destruct (mem x s) eqn:E.
  - apply mem_In in E. split; [tauto|]. intros [?| ->]; assumption.
  - rewrite in_app_iff; simpl.
    split; [intros [?|[?|[]]]; auto|intros [?|?]; auto].
Qed.

Lemma NoDup_set_add (s : list K) (x : K) : NoDup s -> NoDup (set_add s x).
Proof.
  intros Hs. unfold set_add. destruct (mem x s) eqn:E; [assumption|].
  apply mem_not_In in E.
  apply NoDup_app; [assumption|repeat constructor; auto using in_nil|].
  intros a Ha [<-|[]]. exact (E Ha).
Qed.

Section DictFacts.
Context {V : Type}.
Implicit Types (d : dict K V) (k : K) (v : V).

Lemma dict_get_set_eq d k v : dict_get (dict_set d k v) k = Some v.
Proof.
  induction d as [|[k' v'] d IH]; simpl.
  - rewrite keqb_refl; reflexivity.
  - destruct (keqb k k') eqn:E; simpl; rewrite E; auto.
Qed.

Lemma dict_get_set_ne d k k' v :
  k <> k' -> dict_get (dict_set d k v) k' = dict_get d k'.
Proof.
  intros Hne. induction d as [|[k0 v0] d IH]; simpl.
  - assert (E : keqb k' k = false) by (apply keqb_neq; congruence).
    rewrite E; reflexivity.
  - destruct (keqb k k0) eqn:E; simpl.
    + apply keqb_eq in E; subst k0.
      assert (E : keqb k' k = false) by (apply keqb_neq; congruence).
      rewrite E; reflexivity.
    + rewrite IH; reflexivity.
Qed.

Lemma dict_get_set d k k' v :
  dict_get (dict_set d k v) k' = if keqb k' k then Some v else dict_get d k'.
Proof.
  destruct (keqb k' k) eqn:E.
  - apply keqb_eq in E; subst; apply dict_get_set_eq.
  - apply keqb_neq in E. apply dict_get_set_ne; congruence.
Qed.

Lemma dict_mem_In d k : dict_mem d k = true <-> In k (keys d).
Proof.
  unfold dict_mem. induction d as [|[k' v'] d IH]; simpl.
  - split; [discriminate|tauto].
  - destruct (keqb k k') eqn:E.
    + apply keqb_eq in E; subst. split; auto.
    + apply keqb_neq in E. rewrite IH. split; [auto|intros [?|?]; congruence].
Qed.

Lemma dict_mem_not_In d k : dict_mem d k = false <-> ~ In k (keys d).
Proof.
  rewrite <- dict_mem_In. destruct (dict_mem d k); split; congruence.
Qed.

Lemma dict_get_Some_In d k v : dict_get d k = Some v -> In (k, v) d.
Proof.
  induction d as [|[k' v'] d IH]; simpl; [discriminate|].
  destruct (keqb k k') eqn:E.
  - apply keqb_eq in E; subst. intros [= ->]; auto.
  - auto.
Qed.

Lemma dict_get_None d k : dict_get d k = None <-> ~ In k (keys d).
Proof.
  rewrite <- dict_mem_not_In. unfold dict_mem.
  destruct (dict_get d k); split; congruence.
Qed.

Lemma In_dict_get d k v : NoDup (keys d) -> In (k, v) d -> dict_get d k = Some v.
Proof.
  induction d as [|[k' v'] d IH]; simpl; [tauto|].
  intros Hnd [E|Hin]; inversion Hnd as [|? ? Hk' Hd]; subst.
  - injection E as -> ->. rewrite keqb_refl; reflexivity.
  - destruct (keqb k k') eqn:E.
    + apply keqb_eq in E; subst. exfalso; apply Hk'.
      change k' with (fst (k', v)). apply in_map; exact Hin.
    + auto.
Qed.

Lemma keys_dict_set d k v :
  keys (dict_set d k v) = if dict_mem d k then keys d else keys d ++ [k].
Proof.
  unfold dict_mem. induction d as [|[k' v'] d IH]; simpl; [reflexivity|].
  destruct (keqb k k') eqn:E; simpl; [reflexivity|].
  rewrite IH. destruct (dict_get d k); reflexivity.
Qed.

Lemma In_keys_dict_set d k v k' :
  In k' (keys (dict_set d k v)) <-> In k' (keys d) \/ k' = k.
Proof.
  rewrite keys_dict_set. destruct (dict_mem d k) eqn:E.
  - apply dict_mem_In in E. split; [tauto|]. intros [?| ->]; assumption.
  - rewrite in_app_iff; simpl.
    split; [intros [?|[?|[]]]; auto|intros [?|?]; auto].
Qed.

Lemma NoDup_keys_dict_set d k v :
  NoDup (keys d) -> NoDup (keys (dict_set d k v)).
Proof.
  intros Hd. rewrite keys_dict_set. destruct (dict_mem d k) eqn:E; [assumption|].
  apply dict_mem_not_In in E.
  apply NoDup_app; [assumption|repeat constructor; auto using in_nil|].
  intros a Ha [<-|[]]. exact (E Ha).
Qed.

Lemma length_dict_set_le d k v : length d <= length (dict_set d k v).
Proof.
  induction d as [|[k' v'] d IH]; simpl; [lia|].
  destruct (keqb k k'); simpl; lia.
Qed.

End DictFacts.

Section DefaultDictFacts.
Context {V : Type}.
Implicit Types (d : dict K (list V)) (k : K) (v : V).

Lemma dd_get_set d k k' (l : list V) :
  dd_get (dict_set d k l) k' = if keqb k' k then l else dd_get d k'.
Proof.
  unfold dd_get. rewrite dict_get_set. destruct (keqb k' k); reflexivity.
Qed.

Lemma dd_get_append d k k' v :
  dd_get (dd_append d k v) k' =
  if keqb k' k then dd_get d k ++ [v] else dd_get d k'.
Proof. unfold dd_append. apply dd_get_set. Qed.

Lemma In_dd_get_append d k k' v v' :
  In v' (dd_get (dd_append d k v) k') <->
  In v' (dd_get d k') \/ (k' = k /\ v' = v).
Proof.
  rewrite dd_get_append. destruct (keqb k' k) eqn:E.
  - apply keqb_eq in E; subst k'. rewrite in_app_iff; simpl.
    intuition (subst; auto).
  - apply keqb_neq in E. intuition congruence.
Qed.

Lemma dd_get_nil_not_key d k : ~ In k (keys d) -> dd_get d k = [].
Proof.
  intros Hk. unfold dd_get. apply dict_get_None in Hk. rewrite Hk; reflexivity.
Qed.

End DefaultDictFacts.
End KeyFacts.

(* ================================================================= *)
(** * Loops *)

Section Loops.
Context {X St : Type}.
Implicit Types (xs : list X) (body : St -> X -> result St) (s : St).

Lemma for_each_app xs ys body s :
  for_each (xs ++ ys) body s = (s' <- for_each xs body s ;; for_each ys body s').
Proof.
  revert s; induction xs as [|x xs IH]; intros s; simpl; [reflexivity|].
  destruct (body s x); simpl; auto.
Qed.

(** The rule of the [for] loop: an invariant indexed by the part of the
    list already visited. It yields the result as well: the loop raises
    nothing when its body raises nothing under the invariant. *)
Lemma for_each_prefix (P : list X -> St -> Prop) xs body :
  (forall pre x post s,
      xs = pre ++ x :: post -> P pre s ->
      exists s', body s x = Ok s' /\ P (pre ++ [x]) s') ->
  forall s, P [] s -> exists s', for_each xs body s = Ok s' /\ P xs s'.
Proof.
  intros Hbody.
  enough (Hgen : forall post pre s,
             xs = pre ++ post -> P pre s ->
             exists s', for_each post body s = Ok s' /\ P xs s').
  { intros s Hs. apply (Hgen xs [] s); auto. }
  induction post as [|x post IH]; intros pre s Hxs Hs; simpl.
  - exists s. rewrite app_nil_r in Hxs. subst; auto.
  - destruct (Hbody pre x post s Hxs Hs) as (s' & Hs' & HP).
    rewrite Hs'; simpl. apply (IH (pre ++ [x])); auto.
    rewrite <- app_assoc; exact Hxs.
Qed.

(** A loop whose body keeps [P], moves along the preorder [R] and
    establishes, for the element [x] it visits, a fact [Q x] that is
    stable along [R]. *)
Lemma for_each_progress (P : St -> Prop) (R : St -> St -> Prop)
  (Q : X -> St -> Prop) xs body :
  (forall s, R s s) ->
  (forall a b c, R a b -> R b c -> R a c) ->
  (forall x a b, Q x a -> R a b -> Q x b) ->
  (forall x s, In x xs -> P s ->
               exists s', body s x = Ok s' /\ P s' /\ R s s' /\ Q x s') ->
  forall s, P s ->
  exists s', for_each xs body s = Ok s' /\ P s' /\ R s s' /\
             forall x, In x xs -> Q x s'.
Proof.
  intros Hrefl Htrans Hstable Hbody s Hs.
  destruct (@for_each_prefix
              (fun pre s' => P s' /\ R s s' /\ forall x, In x pre -> Q x s')
              xs body) with (s := s) as (s' & Hrun & HP & HR & HQ).
  - intros pre x post s1 Hxs (HP & HR & HQ).
    destruct (Hbody x s1) as (s2 & Hrun & HP2 & HR2 & HQ2); auto.
    { subst xs. apply in_or_app; right; left; reflexivity. }
    exists s2; repeat split; eauto.
    intros y Hy. apply in_app_or in Hy as [Hy|[<-|[]]]; eauto.
  - repeat split; auto. intros x [].
  - exists s'; auto.
Qed.

Lemma for_each_invariant (P : St -> Prop) (R : St -> St -> Prop) xs body :
  (forall s, R s s) ->
  (forall a b c, R a b -> R b c -> R a c) ->
  (forall x s, In x xs -> P s -> exists s', body s x = Ok s' /\ P s' /\ R s s') ->
  forall s, P s -> exists s', for_each xs body s = Ok s' /\ P s' /\ R s s'.
Proof.
  intros Hrefl Htrans Hbody s Hs.
  destruct (@for_each_progress P R (fun _ _ => True) xs body)
    with (s := s) as (s' & ? & ? & ? & _); auto.
  - intros x s1 Hx H1. destruct (Hbody x s1 Hx H1) as (s2 & ? & ? & ?).
    exists s2; auto.
  - exists s'; auto.
Qed.

End Loops.

(* ================================================================= *)
(** * Indexing *)

Lemma list_index_Ok {A} (l : list A) (i : nat) (d : A) :
  i < length l -> list_index l i = Ok (nth i l d).
Proof.
  intros Hi. unfold list_index.
  rewrite (nth_error_nth' l d Hi). reflexivity.
Qed.

Lemma list_index_nth_error {A} (l : list A) (i : nat) (x : A) :
  list_index l i = Ok x <-> nth_error l i = Some x.
Proof.
  unfold list_index. destruct (nth_error l i); split; congruence.
Qed.

Lemma py_index_of_nat {A} (l : list A) (i : nat) :
  py_index l (Z.of_nat i) = list_index l i.
Proof.
  unfold py_index.
  destruct (Z.ltb_spec (Z.of_nat i) 0); [lia|].
  rewrite Nat2Z.id. reflexivity.
Qed.

Lemma length_list_set {A} (l : list A) i x : length (list_set l i x) = length l.
Proof.
  revert i; induction l as [|y l IH]; intros [|i]; simpl; auto.
Qed.

Lemma nth_list_set_eq {A} (l : list A) i x d :
  i < length l -> nth i (list_set l i x) d = x.
Proof.
  revert i; induction l as [|y l IH]; intros [|i]; simpl; intros Hi;
    try lia; auto.
  apply IH; lia.
Qed.

Lemma nth_list_set_ne {A} (l : list A) i j x d :
  i <> j -> nth j (list_set l i x) d = nth j l d.
Proof.
  revert i j; induction l as [|y l IH]; intros [|i] [|j]; simpl; intros Hij;
    try congruence; auto.
Qed.

Lemma slice_one {A} (l : list A) i x :
  nth_error l i = Some x -> slice l i 1 = [x].
Proof.
  unfold slice. revert i; induction l as [|y l IH]; intros [|i]; simpl;
    try discriminate.
  - intros [= ->]; reflexivity.
  - apply IH.
Qed.

Lemma slice_app {A} (l : list A) i l1 l2 :
  slice l i (l1 + l2) = slice l i l1 ++ slice l (i + l1) l2.
Proof.
  unfold slice. rewrite (Nat.add_comm i l1), <- skipn_skipn.
  generalize (skipn i l) as m.
  induction l1 as [|l1 IH]; intros m; simpl; [reflexivity|].
  destruct m as [|y m]; simpl.
  - rewrite firstn_nil. reflexivity.
  - f_equal. apply IH.
Qed.

Lemma length_slice {A} (l : list A) i len :
  i + len <= length l -> length (slice l i len) = len.
Proof.
  intros H. unfold slice. rewrite length_firstn, length_skipn. lia.
Qed.

(* ================================================================= *)
(** * The tables of the parser *)

Lemma nth_nth_list_set {A} (t : list (list A)) i j x i' j' d :
  i < length t -> j < length (nth i t []) ->
  nth j' (nth i' (list_set t i (list_set (nth i t []) j x)) []) d =
  if (i' =? i) && (j' =? j) then x else nth j' (nth i' t []) d.
Proof.
  intros Hi Hj.
  destruct (Nat.eqb_spec i' i) as [->|Hne]; simpl.
  - rewrite nth_list_set_eq by assumption.
    destruct (Nat.eqb_spec j' j) as [->|Hne].
    + apply nth_list_set_eq; assumption.
    + apply nth_list_set_ne; congruence.
  - rewrite nth_list_set_ne by congruence. reflexivity.
Qed.

Lemma length_nth_list_set {A} (t : list (list A)) i j x i' :
  i < length t ->
  length (nth i' (list_set t i (list_set (nth i t []) j x)) []) =
  length (nth i' t []).
Proof.
  intros Hi. destruct (Nat.eq_dec i' i) as [->|Hne].
  - rewrite nth_list_set_eq by assumption. apply length_list_set.
  - rewrite nth_list_set_ne by congruence. reflexivity.
Qed.

Lemma record_entry_spec n i j A e st :
  dims n st -> i < n -> j < n ->
  exists st',
    record_entry i j A e st = Ok st' /\ dims n st' /\
    (forall i' j',
        cell (fst st') i' j' =
        if (i' =? i) && (j' =? j) then set_add (cell (fst st) i j) A
        else cell (fst st) i' j') /\
    (forall i' j' A',
        bcell (snd st') i' j' A' =
        if (i' =? i) && (j' =? j)
        then (if keqb A' A then bcell (snd st) i j A ++ [e]
              else bcell (snd st) i j A')
        else bcell (snd st) i' j' A').
Proof.
  destruct st as [t b]. intros [[Ht Hrow] [Hb Hbrow]] Hi Hj.
  cbn [fst snd] in *. unfold record_entry.
  rewrite (list_index_Ok t []) by lia. simpl.
  rewrite (list_index_Ok (nth i t []) []) by (rewrite Hrow; lia). simpl.
  rewrite (list_index_Ok b []) by lia. simpl.
  rewrite (list_index_Ok (nth i b []) []) by (rewrite Hbrow; lia). simpl.
  eexists; split; [reflexivity|]. unfold dims; cbn [fst snd]. repeat split.
  - rewrite length_list_set; assumption.
  - intros i' Hi'. rewrite length_nth_list_set by lia. auto.
  - rewrite length_list_set; assumption.
  - intros i' Hi'. rewrite length_nth_list_set by lia. auto.
  - intros i' j'. unfold cell.
    apply nth_nth_list_set; [lia|rewrite Hrow; lia].
  - intros i' j' A'. unfold bcell.
    rewrite nth_nth_list_set by (try rewrite Hbrow; lia).
    destruct ((i' =? i) && (j' =? j)); [|reflexivity].
    exact (dd_get_append (K := string) _ _ _ _).
Qed.

Lemma extends_refl st : extends st st.
Proof. intros i j A H; exact H. Qed.

Lemma extends_trans a b c : extends a b -> extends b c -> extends a c.
Proof. intros Hab Hbc i j A H; auto. Qed.

Lemma entry_ok_extends g words st st' i j A e :
  extends st st' ->
  entry_ok g words (fst st) i j A e -> entry_ok g words (fst st') i j A e.
Proof.
  intros Hext. destruct e as [t|B C k ls rs]; simpl; [tauto|].
  intros (? & ? & ? & ? & ? & ? & ?). repeat split; auto.
Qed.

Lemma complete_extends g words len st st' :
  extends st st' -> complete g words len st -> complete g words len st'.
Proof. intros Hext Hc i A l Hl Hs. apply Hext; eauto. Qed.

(** Recording a justified back-pointer keeps the invariant. *)
Lemma record_entry_ok g words i j A e st :
  tables_ok g words st -> i < length words -> j < length words ->
  entry_ok g words (fst st) i j A e ->
  exists st',
    record_entry i j A e st = Ok st' /\ tables_ok g words st' /\
    extends st st' /\ In A (cell (fst st') i j).
Proof.
  intros [Hdims Hinv] Hi Hj He.
  destruct (record_entry_spec A e Hdims Hi Hj) as (st' & Hrun & Hdims' & Hc & Hb).
  assert (Hext : extends st st').
  { intros i' j' A' HA'. rewrite Hc.
    destruct ((i' =? i) && (j' =? j)) eqn:E; [|assumption].
    apply andb_true_iff in E as [E1 E2].
    apply Nat.eqb_eq in E1, E2; subst. apply In_set_add; auto. }
  exists st'. split; [exact Hrun|]. split; [|split; [exact Hext|]].
  - split; [exact Hdims'|]. intros i0 j0 A0.
    specialize (Hinv i0 j0 A0) as Hinv0.
    rewrite Hc, Hb.
    destruct ((i0 =? i) && (j0 =? j)) eqn:E.
    + apply andb_true_iff in E as [E1 E2].
      apply Nat.eqb_eq in E1, E2; subst i0 j0.
      rewrite In_set_add.
      destruct (keqb A0 A) eqn:EA.
      * apply keqb_eq in EA; subst A0. split; [split|].
        -- intros _. destruct (bcell (snd st) i j A); discriminate.
        -- auto.
        -- intros e' He'. apply entry_ok_extends with (st := st); [assumption|].
           apply in_app_or in He' as [He'|[<-|[]]]; [|assumption].
           apply Hinv0; assumption.
      * apply keqb_neq in EA. split; [split|].
        -- intros [H|H]; [apply Hinv0; assumption|congruence].
        -- intros H. left. apply Hinv0; assumption.
        -- intros e' He'. apply entry_ok_extends with (st := st); [assumption|].
           apply Hinv0; assumption.
    + split; [apply Hinv0|].
      intros e' He'. apply entry_ok_extends with (st := st); [assumption|].
      apply Hinv0; assumption.
  - rewrite Hc, !Nat.eqb_refl. simpl. apply In_set_add; auto.
Qed.

Lemma nth_nth_repeat {A} (d : A) n i j :
  nth j (nth i (repeat (repeat d n) n) []) d = d.
Proof.
  destruct (Nat.lt_ge_cases i n) as [Hi|Hi].
  - rewrite (nth_repeat_lt (repeat d n) [] Hi).
    destruct (Nat.lt_ge_cases j n) as [Hj|Hj].
    + apply nth_repeat_lt; assumption.
    + apply nth_overflow. rewrite repeat_length; assumption.
  - rewrite (nth_overflow (repeat (repeat d n) n) [])
      by (rewrite repeat_length; assumption).
    destruct j; reflexivity.
Qed.

Lemma cell_init n i j : cell (repeat (repeat [] n) n) i j = [].
Proof. apply nth_nth_repeat. Qed.

Lemma bcell_init n i j A : bcell (repeat (repeat [] n) n) i j A = [].
Proof. unfold bcell. rewrite nth_nth_repeat. reflexivity. Qed.

Lemma dims_init n : dims n (repeat (repeat [] n) n, repeat (repeat [] n) n).
Proof.
  unfold dims; simpl. rewrite !repeat_length.
  repeat split; intros i Hi; rewrite nth_repeat_lt by assumption;
    apply repeat_length.
Qed.

Lemma tables_ok_init g words :
  tables_ok g words (repeat (repeat [] (length words)) (length words),
                     repeat (repeat [] (length words)) (length words)).
Proof.
  split; [apply dims_init|]. intros i j A; simpl.
  rewrite cell_init, bcell_init. split; [split|]; simpl; tauto.
Qed.

Section Spans.
Variables (g : rules_t) (words : list string).

Lemma span_bounds A i len :
  span g words A i len -> 1 <= len /\ i + len <= length words.
Proof.
  induction 1 as [A i t Ht _|A B C i l1 l2 _ _ IH1 _ IH2].
  - assert (i < length words) by (apply nth_error_Some; congruence). lia.
  - lia.
Qed.

Lemma span_one A i :
  span g words A i 1 <->
  exists t, nth_error words i = Some t /\ has_prod g A [t].
Proof.
  split.
  - intros H. inversion H as [A' i' t Ht Hp|A' B C i' l1 l2 Hp H1 H2 E]; subst.
    + eauto.
    + apply span_bounds in H1, H2. lia.
  - intros (t & Ht & Hp). eapply span_word; eauto.
Qed.

Lemma span_long A i len :
  2 <= len -> span g words A i len ->
  exists B C k,
    k < len - 1 /\ has_prod g A [B; C] /\
    span g words B i (k + 1) /\ span g words C (i + k + 1) (len - 1 - k).
Proof.
  intros Hlen H.
  inversion H as [A' i' t Ht Hp|A' B C i' l1 l2 Hp H1 H2 E]; subst; [lia|].
  pose proof (span_bounds H1). pose proof (span_bounds H2).
  exists B, C, (l1 - 1).
  replace (l1 - 1 + 1) with l1 by lia.
  replace (i + (l1 - 1) + 1) with (i + l1) by lia.
  replace (l1 + l2 - 1 - (l1 - 1)) with l2 by lia.
  repeat split; auto; lia.
Qed.

(** Soundness of the table: what is in a cell derives the span. *)
Lemma tables_ok_sound st :
  tables_ok g words st ->
  forall j i A, In A (cell (fst st) i j) -> span g words A i (j + 1).
Proof.
  intros [_ Hinv] j.
  induction j as [j IH] using lt_wf_ind. intros i A HA.
  destruct (Hinv i j A) as [Hnonempty Hentries].
  apply Hnonempty in HA.
  destruct (bcell (snd st) i j A) as [|e es] eqn:E; [congruence|].
  specialize (Hentries e (or_introl eq_refl)).
  destruct e as [t|B C k ls rs]; simpl in Hentries.
  - destruct Hentries as (-> & Ht & Hp). eapply span_word; eauto.
  - destruct Hentries as (Hk & -> & -> & Hn & HB & HC & Hp).
    replace (j + 1) with ((k + 1) + (j - k - 1 + 1)) by lia.
    apply span_split with (B := B) (C := C); [assumption| |].
    + apply IH; [lia|assumption].
    + replace (i + (k + 1)) with (i + k + 1) by lia.
      apply IH; [lia|assumption].
Qed.

End Spans.

(** The reverse index holds, under a body, the variables that have it. *)
Lemma In_build_reverse_grammar (g : rules_t) (key : production) (A : string) :
  In A (dd_get (_build_reverse_grammar g) key) <-> has_prod g A key.
Proof.
  unfold _build_reverse_grammar.
  assert (Hinner : forall var (ps : list production) rev,
             In A (dd_get (fold_left (fun reverse (prod : production) =>
                                        dd_append reverse prod var) ps rev) key)
             <-> In A (dd_get rev key) \/ (A = var /\ In key ps)).
  { intros var ps; induction ps as [|p ps IH]; intros rev; simpl.
    - tauto.
    - rewrite IH, In_dd_get_append. intuition (subst; auto). }
  assert (Hgen : forall rev,
             In A (dd_get (fold_left
                             (fun reverse '(var, productions) =>
                                fold_left (fun reverse (prod : production) =>
                                             dd_append reverse prod var)
                                          productions reverse) g rev) key)
             <-> In A (dd_get rev key) \/ has_prod g A key).
  { unfold has_prod. induction g as [|[var ps] g' IH]; intros rev; simpl.
    - split; [auto|intros [?|(? & [] & _)]; assumption].
    - rewrite IH, Hinner. split.
      + intros [[?|[-> ?]]|(ps' & ? & ?)]; eauto 6.
      + intros [?|(ps' & [E|?] & ?)]; eauto 6.
        injection E as -> ->. auto. }
  rewrite Hgen. unfold dd_get; simpl. tauto.
Qed.

Lemma set_iter_In `{PySetOrder} (s : list string) (x : string) :
  In x (set_iter s) <-> In x s.
Proof.
  split; apply Permutation_in;
    [apply set_iter_perm|apply Permutation_sym, set_iter_perm].
Qed.

Lemma in_range (n i : nat) : In i (range n) <-> i < n.
Proof. unfold range. rewrite in_seq. lia. Qed.

(** Sets up the rule of the loop for the outermost [for_each] of the
    goal, with invariant [P], preorder [R] and per-element fact [Q]. *)
Ltac loop_rule P R Q H :=
  match goal with
  | |- context [for_each ?xs ?body ?s] =>
      assert (H : exists s', for_each xs body s = Ok s' /\ P s' /\ R s s' /\
                             forall x, In x xs -> Q x s');
      [apply (@for_each_progress _ _ P R Q xs body)|]
  end.

(** The step that leaves the tables as they are. *)
Ltac unchanged :=
  eexists; split; [reflexivity|]; split; [assumption|];
  split; [apply extends_refl|].

(** The step that ends in the tables [s], its run, invariant and
    extension being at hand. *)
Ltac ends_in s :=
  exists s; split; [assumption|]; split; [assumption|];
  split; [assumption|].

Section Filling.
Context `{PySetOrder}.
Variables (cg : cnf) (words : list string).
Local Abbreviation self := (CYKParser_init cg).
Local Abbreviation g := (cnf_rules cg).
Local Abbreviation n := (length words).

Lemma fill_diagonal_ok st :
  tables_ok g words st ->
  exists st',
    fill_diagonal self words st = Ok st' /\ tables_ok g words st' /\
    extends st st' /\ complete g words 1 st'.
Proof.
  intros Hst. unfold fill_diagonal.
  loop_rule (tables_ok g words) extends
            (fun i (s : table_t * backpointer_t) =>
               forall A t, nth_error words i = Some t ->
                           has_prod g A [t] -> In A (cell (fst s) i 0))
            Hloop.
  - apply extends_refl.
  - apply extends_trans.
  - intros i a b Ha Hab A t Ht Hp. apply Hab; eauto.
  - intros i s Hi Hs. apply in_range in Hi.
    rewrite (list_index_Ok words "" Hi). simpl.
    assert (Hw : nth_error words i = Some (nth i words "")).
    { apply nth_error_nth'; assumption. }
    set (word := nth i words "") in *.
    cbn [cyk_grammar CYKParser_init].
    loop_rule (tables_ok g words) extends
              (fun (x : string * list production)
                   (s' : table_t * backpointer_t) =>
                 In [word] (snd x) -> In (fst x) (cell (fst s') i 0)) Hitems.
    + apply extends_refl.
    + apply extends_trans.
    + intros x a b Ha Hab Hx. apply Hab; auto.
    + intros [var ps] s1 Hvar Hs1.
      loop_rule (tables_ok g words) extends
                (fun (prod : production) (s' : table_t * backpointer_t) =>
                   prod = [word] -> In var (cell (fst s') i 0)) Hprods.
      * apply extends_refl.
      * apply extends_trans.
      * intros x a b Ha Hab Hx. apply Hab; auto.
      * intros prod s2 Hprod Hs2.
        destruct prod as [|t [|? ?]]; try (unchanged; discriminate).
        destruct (String.eqb_spec t word) as [->|Hne].
        -- destruct (@record_entry_ok g words i 0 var (terminal_entry word) s2)
             as (s3 & Hrun & Hs3 & Hext & Hin); auto.
           { lia. }
           { simpl. repeat split; auto. exists ps; auto. }
           exists s3; auto.
        -- unchanged. congruence.
      * exact Hs1.
      * destruct Hprods as (s2 & Hrun & Hs2 & Hext & Hq).
        ends_in s2. simpl. intros Hin. apply (Hq [word]); auto.
    + exact Hs.
    + destruct Hitems as (s1 & Hrun & Hs1 & Hext & Hq).
      ends_in s1.
      intros A t Ht (ps & HA & Hp).
      assert (t = word) by congruence. subst t.
      apply (Hq (A, ps)); assumption.
  - exact Hst.
  - destruct Hloop as (st' & Hrun & Hst' & Hext & Hq).
    ends_in st'.
    intros i A l Hl Hspan. assert (l = 1) by lia. subst l.
    apply span_one in Hspan as (t & Ht & Hp). simpl.
    apply (Hq i) with (t := t); auto.
    apply in_range. apply nth_error_Some. congruence.
Qed.

Lemma reverse_grammar_Some B C vars A :
  dict_get (_build_reverse_grammar g) [B; C] = Some vars ->
  In A vars -> has_prod g A [B; C].
Proof.
  intros Hget HA. apply In_build_reverse_grammar.
  unfold dd_get. rewrite Hget. exact HA.
Qed.

Lemma reverse_grammar_None B C A :
  dict_get (_build_reverse_grammar g) [B; C] = None -> ~ has_prod g A [B; C].
Proof.
  intros Hget HA. apply In_build_reverse_grammar in HA.
  unfold dd_get in HA. rewrite Hget in HA.
  exact HA.
Qed.

Lemma reverse_grammar_complete B C A :
  has_prod g A [B; C] ->
  exists vars, dict_get (_build_reverse_grammar g) [B; C] = Some vars /\ In A vars.
Proof.
  intros HA.
  destruct (dict_get (_build_reverse_grammar g) [B; C]) as [vars|] eqn:E.
  - exists vars; split; [reflexivity|].
    apply In_build_reverse_grammar in HA.
    unfold dd_get in HA. rewrite E in HA. exact HA.
  - exfalso. eapply reverse_grammar_None; eauto.
Qed.

(** One split point: every [A -> B C] with [B] on the left part and [C]
    on the right part enters the cell. *)
Lemma combine_split_ok i j k st :
  tables_ok g words st -> complete g words j st ->
  i + j < n -> k < j ->
  exists st',
    combine_split self i j k st = Ok st' /\ tables_ok g words st' /\
    extends st st' /\
    forall A B C,
      has_prod g A [B; C] ->
      span g words B i (k + 1) -> span g words C (i + k + 1) (j - k) ->
      In A (cell (fst st') i j).
Proof.
  intros Hst Hcomplete Hij Hk. unfold combine_split.
  pose proof Hst as [[[Ht Hrow] _] _].
  rewrite (list_index_Ok (fst st) []) by lia. simpl.
  rewrite (list_index_Ok (nth i (fst st) []) []) by (rewrite Hrow; lia). simpl.
  rewrite (list_index_Ok (fst st) []) by lia. simpl.
  rewrite (list_index_Ok (nth (i + k + 1) (fst st) []) [])
    by (rewrite Hrow; lia). simpl.
  fold (cell (fst st) i k). fold (cell (fst st) (i + k + 1) (j - k - 1)).
  set (left_vars := cell (fst st) i k).
  set (right_vars := cell (fst st) (i + k + 1) (j - k - 1)).
  loop_rule (fun s => tables_ok g words s /\ extends st s) extends
            (fun B (s : table_t * backpointer_t) =>
               forall C A, In C right_vars -> has_prod g A [B; C] ->
                           In A (cell (fst s) i j)) HloopB.
  - apply extends_refl.
  - apply extends_trans.
  - intros B a b Ha Hab C A HC Hp. apply Hab; eauto.
  - intros B s HB [Hs Hsts]. apply (proj1 (set_iter_In _ _)) in HB.
    loop_rule (fun s => tables_ok g words s /\ extends st s) extends
              (fun C (s : table_t * backpointer_t) =>
                 forall A, has_prod g A [B; C] -> In A (cell (fst s) i j))
              HloopC.
    + apply extends_refl.
    + apply extends_trans.
    + intros C a b Ha Hab A Hp. apply Hab; eauto.
    + intros C s1 HC [Hs1 Hsts1]. apply (proj1 (set_iter_In _ _)) in HC. cbv beta zeta.
      destruct (dict_get (_build_reverse_grammar g) [B; C]) as [vars|] eqn:E;
        cbv beta iota.
      * loop_rule (fun s => tables_ok g words s /\ extends st s) extends
                  (fun A (s : table_t * backpointer_t) =>
                     In A (cell (fst s) i j)) HloopA.
        -- apply extends_refl.
        -- apply extends_trans.
        -- intros A a b Ha Hab. apply Hab; eauto.
        -- intros A s2 HA [Hs2 Hsts2].
           destruct (@record_entry_ok g words i j A
                       (split_entry B C k i (i + k + 1)) s2)
             as (s3 & Hrun & Hs3 & Hext & Hin); auto.
           { lia. }
           { lia. }
           { simpl. split; [lia|]. split; [reflexivity|].
             split; [reflexivity|]. split; [lia|].
             split; [apply Hsts2; exact HB|].
             split; [apply Hsts2; exact HC|].
             eapply reverse_grammar_Some; eauto. }
           exists s3. split; [assumption|]. split; [|auto].
           split; [assumption|]. eapply extends_trans; eauto.
        -- auto.
        -- destruct HloopA as (s2 & Hrun & Hs2 & Hext & Hq).
           exists s2. split; [assumption|]. split; [assumption|].
           split; [assumption|].
           intros A Hp.
           destruct (reverse_grammar_complete Hp) as (vars' & E' & HA).
           rewrite E in E'. injection E' as <-. auto.
      * exists s1. split; [reflexivity|]. split; [auto|].
        split; [apply extends_refl|].
        intros A Hp. exfalso. eapply reverse_grammar_None; eauto.
    + auto.
    + destruct HloopC as (s1 & Hrun & Hs1 & Hext & Hq).
      exists s1. split; [assumption|]. split; [assumption|].
      split; [assumption|].
      intros C A HC Hp. apply (Hq C); [apply set_iter_In|]; assumption.
  - split; [assumption|apply extends_refl].
  - destruct HloopB as (st' & Hrun & [Hst' _] & Hext & Hq).
    ends_in st'.
    intros A B C Hp HB HC.
    apply (Hq B) with (C := C); auto.
    + apply set_iter_In. unfold left_vars.
      replace k with (k + 1 - 1) by lia.
      apply Hcomplete; [lia|assumption].
    + unfold right_vars.
      replace (j - k - 1) with (j - k - 1 + 1 - 1) by lia.
      apply Hcomplete; [lia|].
      replace (j - k - 1 + 1) with (j - k) by lia. assumption.
Qed.

Lemma seq_middle a m pre x post :
  seq a m = pre ++ x :: post -> x = a + length pre /\ length pre < m.
Proof.
  intros E.
  assert (Hlen : m = length pre + S (length post)).
  { pose proof (f_equal (@length nat) E) as Hl.
    rewrite length_seq, length_app in Hl. simpl in Hl. exact Hl. }
  split; [|lia].
  assert (Hnth : nth (length pre) (seq a m) 0 = x).
  { rewrite E, nth_middle. reflexivity. }
  rewrite seq_nth in Hnth by lia. congruence.
Qed.

(** All the spans of [len] words, the shorter ones being done. *)
Lemma fill_length_ok len st :
  2 <= len <= n ->
  tables_ok g words st -> complete g words (len - 1) st ->
  exists st',
    for_each (range (n - len + 1))
      (fun st i =>
         for_each (range (len - 1))
                  (fun st k => combine_split self i (len - 1) k st) st) st
    = Ok st' /\
    tables_ok g words st' /\ extends st st' /\ complete g words len st'.
Proof.
  intros Hlen Hst Hcomplete.
  loop_rule (fun s => tables_ok g words s /\ complete g words (len - 1) s)
            extends
            (fun i (s : table_t * backpointer_t) =>
               forall A, span g words A i len -> In A (cell (fst s) i (len - 1)))
            Hloop.
  - apply extends_refl.
  - apply extends_trans.
  - intros i a b Ha Hab A HA. apply Hab; auto.
  - intros i s Hi [Hs Hcs]. apply in_range in Hi.
    loop_rule (fun s => tables_ok g words s /\ complete g words (len - 1) s)
              extends
              (fun k (s : table_t * backpointer_t) =>
                 forall A B C,
                   has_prod g A [B; C] -> span g words B i (k + 1) ->
                   span g words C (i + k + 1) (len - 1 - k) ->
                   In A (cell (fst s) i (len - 1)))
              Hsplits.
    + apply extends_refl.
    + apply extends_trans.
    + intros k a b Ha Hab A B C Hp HB HC. apply Hab; eauto.
    + intros k s1 Hk [Hs1 Hcs1]. apply in_range in Hk.
      destruct (@combine_split_ok i (len - 1) k s1)
        as (s2 & Hrun & Hs2 & Hext & Hq); auto; try lia.
      exists s2. split; [assumption|]. split; [|auto].
      split; [assumption|]. eapply complete_extends; eauto.
    + auto.
    + destruct Hsplits as (s1 & Hrun & Hs1 & Hext & Hq).
      ends_in s1.
      intros A HA. apply span_long in HA as (B & C & k & Hk & Hp & HB & HC);
        [|lia].
      apply (Hq k) with (B := B) (C := C); auto. apply in_range; assumption.
  - auto.
  - destruct Hloop as (st' & Hrun & [Hst' Hc'] & Hext & Hq).
    ends_in st'.
    intros i A l Hl Hspan.
    destruct (Nat.eq_dec l len) as [->|Hne].
    + apply (Hq i); [|assumption].
      apply span_bounds in Hspan. apply in_range. lia.
    + apply Hc'; [lia|assumption].
Qed.

Lemma fill_spans_ok st :
  tables_ok g words st -> complete g words 1 st ->
  exists st',
    fill_spans self n st = Ok st' /\ tables_ok g words st' /\
    extends st st' /\ forall len, complete g words len st'.
Proof.
  intros Hst Hcomplete. unfold fill_spans, range_from.
  set (P := fun (pre : list nat) (s : table_t * backpointer_t) =>
              tables_ok g words s /\ extends st s /\
              complete g words (1 + length pre) s).
  match goal with
  | |- context [for_each ?xs ?body ?s] =>
      assert (Hloop : exists s', for_each xs body s = Ok s' /\ P xs s');
      [apply (@for_each_prefix _ _ P xs body)|]
  end.
  - intros pre len post s Hxs (Hs & Hext & Hcs).
    apply seq_middle in Hxs as [-> Hpre].
    assert (Hc : complete g words (2 + length pre - 1) s).
    { replace (2 + length pre - 1) with (1 + length pre) by lia. assumption. }
    destruct (@fill_length_ok (2 + length pre) s ltac:(lia) Hs Hc)
      as (s' & Hrun & Hs' & Hext' & Hcs').
    exists s'. split; [assumption|]. split; [assumption|].
    split; [eapply extends_trans; eauto|].
    rewrite length_app.
    replace (1 + (length pre + length [2 + length pre]))
      with (2 + length pre) by (simpl; lia).
    assumption.
  - split; [assumption|]. split; [apply extends_refl|assumption].
  - destruct Hloop as (st' & Hrun & Hst' & Hext & Hc').
    ends_in st'.
    intros len i A l Hl Hspan.
    apply Hc'; [|assumption].
    apply span_bounds in Hspan. rewrite length_seq. lia.
Qed.

(** The tables are filled without an exception, and hold exactly the
    variables that derive each span. *)
Lemma fill_tables_ok :
  exists st,
    fill_tables self words = Ok st /\ tables_ok g words st /\
    forall i j A, In A (cell (fst st) i j) <-> span g words A i (j + 1).
Proof.
  unfold fill_tables. cbv zeta.
  destruct (@fill_diagonal_ok
              (@pair table_t backpointer_t
                     (repeat (repeat [] n) n) (repeat (repeat [] n) n)))
    as (st1 & Hrun1 & Hst1 & _ & Hc1); [apply tables_ok_init|].
  rewrite Hrun1; simpl.
  destruct (@fill_spans_ok st1) as (st2 & Hrun2 & Hst2 & _ & Hc2); auto.
  exists st2. split; [assumption|]. split; [assumption|].
  intros i j A. split.
  - apply tables_ok_sound; assumption.
  - intros Hspan. replace j with (j + 1 - 1) by lia.
    apply (Hc2 (j + 1)); [lia|assumption].
Qed.

(** [parse] on at least one word: the flag is the membership of the
    start symbol in the cell of the whole sentence. *)
Lemma parse_nonempty sentence :
  tokenize sentence = words -> words <> [] ->
  exists table backpointer,
    fill_tables self words = Ok (table, backpointer) /\
    tables_ok g words (table, backpointer) /\
    (forall i j A, In A (cell table i j) <-> span g words A i (j + 1)) /\
    let accepts := mem (cnf_start cg) (cell table 0 (n - 1)) in
    parse self sentence =
    Ok (accepts, if accepts then Some (table, backpointer, words) else None).
Proof.
  intros Htok Hne.
  destruct fill_tables_ok as ([table backpointer] & Hrun & Hst & Hcells).
  exists table, backpointer. repeat (split; [assumption|]).
  unfold parse. rewrite Htok. cbv zeta. rewrite Hrun. simpl.
  destruct Hst as [[[Ht Hrow] _] _]. simpl in Ht, Hrow.
  assert (0 < n) by (destruct words; [congruence|simpl; lia]).
  rewrite (list_index_Ok table []) by lia. simpl.
  replace (Z.of_nat n - 1)%Z with (Z.of_nat (n - 1)) by lia.
  rewrite py_index_of_nat.
  rewrite (list_index_Ok (nth 0 table []) []) by (rewrite Hrow; lia). simpl.
  reflexivity.
Qed.

(** The tree rebuilt from the back-pointers of a variable of a cell: it
    is there, its root is the variable and its leaves are the span. *)
Lemma build_tree_ok table backpointer :
  tables_ok g words (table, backpointer) ->
  forall j i A fuel,
    In A (cell table i j) -> j < fuel ->
    exists t,
      build_tree fuel backpointer A i (Z.of_nat j) = Ok (Some t) /\
      root t = A /\ leaves t = slice words i (j + 1).
Proof.
  intros Hst j. induction j as [j IH] using lt_wf_ind.
  intros i A fuel HA Hfuel.
  pose proof (tables_ok_sound Hst j i A HA) as Hspan.
  apply span_bounds in Hspan.
  destruct Hst as [[_ [Hb Hbrow]] Hinv]. simpl in Hb, Hbrow, Hinv.
  destruct (Hinv i j A) as [Hnonempty Hentries].
  apply Hnonempty in HA.
  destruct fuel as [|fuel]; [lia|]. simpl.
  rewrite (list_index_Ok backpointer []) by lia. simpl.
  rewrite py_index_of_nat.
  rewrite (list_index_Ok (nth i backpointer []) []) by (rewrite Hbrow; lia).
  simpl. fold (bcell backpointer i j A).
  destruct (bcell backpointer i j A) as [|e es]; [congruence|].
  specialize (Hentries e (or_introl eq_refl)).
  destruct e as [t|B C k ls rs]; simpl in Hentries.
  - destruct Hentries as (-> & Ht & Hp). simpl.
    eexists; split; [reflexivity|]. split; [reflexivity|].
    simpl. symmetry. apply slice_one; assumption.
  - destruct Hentries as (Hk & -> & -> & Hn & HB & HC & Hp).
    destruct j as [|j]; [lia|].
    change (Z.of_nat (S j) =? 0)%Z with false. cbv iota.
    replace (Z.of_nat (S j) - Z.of_nat k - 1)%Z
      with (Z.of_nat (S j - k - 1)) by lia.
    destruct (IH k ltac:(lia) i B fuel HB ltac:(lia)) as (tl & Hl & Hrl & Hll).
    rewrite Hl; cbn [bind].
    destruct (IH (S j - k - 1) ltac:(lia) (i + k + 1) C fuel HC ltac:(lia))
      as (tr & Hr & Hrr & Hlr).
    rewrite Hr; cbn [bind].
    eexists; split; [reflexivity|]. split; [reflexivity|].
    cbn [leaves]. rewrite Hll, Hlr.
    replace (S j + 1) with ((k + 1) + (S j - k - 1 + 1)) by lia.
    rewrite (slice_app words i (k + 1) (S j - k - 1 + 1)).
    replace (i + (k + 1)) with (i + k + 1) by lia. reflexivity.
Qed.

Lemma slice_all {A} (l : list A) : slice l 0 (length l) = l.
Proof. unfold slice. simpl. apply firstn_all. Qed.

(** On acceptance, [build_parse_tree] returns a tree rooted at the start
    symbol whose leaves spell the words. *)
Lemma build_parse_tree_ok sentence data :
  tokenize sentence = words ->
  parse self sentence = Ok (true, data) ->
  exists t,
    build_parse_tree self data = Ok (Some t) /\
    root t = cnf_start cg /\ leaves t = words.
Proof.
  intros Htok Hparse.
  destruct words as [|w ws] eqn:Ew.
  { unfold parse in Hparse. rewrite Htok in Hparse. discriminate. }
  rewrite <- Ew in *.
  assert (Hne : words <> []) by (rewrite Ew; discriminate).
  destruct (parse_nonempty sentence Htok Hne)
    as (table & backpointer & _ & Hst & _ & Hrun).
  cbv zeta in Hrun. rewrite Hrun in Hparse.
  destruct (mem (cnf_start cg) (cell table 0 (n - 1))) eqn:Hacc;
    [|discriminate].
  injection Hparse as <-. apply mem_In in Hacc.
  assert (0 < n) by (rewrite Ew; simpl; lia).
  destruct (@build_tree_ok table backpointer Hst (n - 1) 0 (cnf_start cg)
                           (S n) Hacc ltac:(lia)) as (t & Ht & Hroot & Hleaves).
  exists t. split; [|split; [assumption|]].
  - unfold build_parse_tree.
    replace (Z.of_nat n - 1)%Z with (Z.of_nat (n - 1)) by lia. exact Ht.
  - rewrite Hleaves. replace (n - 1 + 1) with n by lia. apply slice_all.
Qed.

End Filling.

(* ================================================================= *)
(** * The parser: empty input, one word, back-pointers and trees *)

(** C2 (the code departs from it). On a sentence without any word the
    tables are empty and the final test [table[0][n - 1]] indexes the
    empty table: [parse] raises [IndexError] instead of returning a
    rejection. *)
Theorem parse_empty_raises `{PySetOrder} (self : CYKParser) (sentence : string) :
  tokenize sentence = [] -> parse self sentence = Raise IndexError.
Proof.
  intros Htok. unfold parse, fill_tables. rewrite Htok. reflexivity.
Qed.

Lemma parse_empty_raises_witness :
  tokenize "  " = [] /\
  @parse insertion_order (CYKParser_init ab_grammar) "  " = Raise IndexError.
Proof.
  split; [reflexivity|].
  apply (@parse_empty_raises insertion_order). reflexivity.
Defined.

(** C4 (as stated, refuted). The grammar [S0 -> A B, A -> a, B -> b] has
    a variable, [A], that yields the word [a] directly, and yet the
    one-word sentence [a] is rejected. *)
Lemma parse_single_token_counterexample :
  tokenize "a" = ["a"] /\
  has_prod (cnf_rules ab_grammar) "A" ["a"] /\
  @parse insertion_order (CYKParser_init ab_grammar) "a" = Ok (false, None).
Proof.
  split; [reflexivity|]. split; [|reflexivity].
  exists [["a"]]. simpl. auto.
Qed.

(** C4 (as amended). A sentence of one word [w] is parsed without an
    exception, and it is accepted if and only if the start symbol of the
    grammar has the production [w]. *)
Theorem parse_single_token `{PySetOrder} (cg : cnf) (sentence w : string) :
  tokenize sentence = [w] ->
  exists acc data,
    parse (CYKParser_init cg) sentence = Ok (acc, data) /\
    (acc = true <-> has_prod (cnf_rules cg) (cnf_start cg) [w]).
Proof.
  intros Htok.
  destruct (@parse_nonempty _ cg [w] sentence Htok ltac:(discriminate))
    as (table & backpointer & _ & _ & Hcells & Hrun).
  cbv zeta in Hrun. do 2 eexists. split; [exact Hrun|].
  rewrite mem_In, Hcells. simpl. rewrite span_one. simpl. split.
  - intros (t & E & Hp). injection E as <-. exact Hp.
  - intros Hp. eauto.
Qed.

Lemma parse_single_token_witness :
  tokenize "a" = ["a"] /\
  exists acc data,
    @parse insertion_order (CYKParser_init ab_grammar) "a" = Ok (acc, data) /\
    (acc = true <->
     has_prod (cnf_rules ab_grammar) (cnf_start ab_grammar) ["a"]).
Proof.
  split; [reflexivity|].
  apply (@parse_single_token insertion_order ab_grammar "a" "a"). reflexivity.
Defined.

(** C10. On a sentence of at least one word the tables are filled
    without an exception, every variable of a cell [table[i][j]] has at
    least one back-pointer in [backpointer[i][j]], and when [parse]
    accepts, [build_parse_tree] on the data it returns gives a tree
    (not [None]) whose root is the start symbol of the grammar. *)
Theorem backpointers_cover_table `{PySetOrder} (cg : cnf) (sentence : string) :
  tokenize sentence <> [] ->
  exists (table : table_t) (backpointer : backpointer_t) (acc : bool),
    fill_tables (CYKParser_init cg) (tokenize sentence)
    = Ok (table, backpointer) /\
    (forall i j A, In A (cell table i j) -> bcell backpointer i j A <> []) /\
    parse (CYKParser_init cg) sentence
    = Ok (acc, if acc then Some (table, backpointer, tokenize sentence)
               else None) /\
    (acc = true ->
     exists t,
       build_parse_tree (CYKParser_init cg)
                        (Some (table, backpointer, tokenize sentence))
       = Ok (Some t) /\
       root t = cnf_start cg).
Proof.
  intros Hne.
  destruct (@parse_nonempty _ cg (tokenize sentence) sentence eq_refl Hne)
    as (table & backpointer & Hfill & Hst & _ & Hrun).
  cbv zeta in Hrun.
  exists table, backpointer,
    (mem (cnf_start cg) (cell table 0 (length (tokenize sentence) - 1))).
  split; [exact Hfill|]. split; [|split; [exact Hrun|]].
  - intros i j A HA. destruct Hst as [_ Hinv]. apply (Hinv i j A). exact HA.
  - intros Hacc. rewrite Hacc in Hrun.
    destruct (@build_parse_tree_ok _ cg (tokenize sentence) sentence _
                                   eq_refl Hrun) as (t & Ht & Hroot & _).
    exists t; auto.
Qed.

Lemma backpointers_cover_table_witness :
  tokenize "a b" <> [] /\
  exists (table : table_t) (backpointer : backpointer_t) (acc : bool),
    @fill_tables insertion_order (CYKParser_init ab_grammar) (tokenize "a b")
    = Ok (table, backpointer) /\
    (forall i j A, In A (cell table i j) -> bcell backpointer i j A <> []) /\
    @parse insertion_order (CYKParser_init ab_grammar) "a b"
    = Ok (acc, if acc then Some (table, backpointer, tokenize "a b")
               else None) /\
    (acc = true ->
     exists t,
       build_parse_tree (CYKParser_init ab_grammar)
                        (Some (table, backpointer, tokenize "a b"))
       = Ok (Some t) /\
       root t = cnf_start ab_grammar).
Proof.
  split; [discriminate|].
  apply (@backpointers_cover_table insertion_order ab_grammar "a b").
  discriminate.
Defined.

(** C6. When [parse] accepts a sentence, [build_parse_tree] on the data
    it returns gives a tree whose leaves, read from left to right, are
    the words of the sentence. *)
Theorem parse_tree_leaves `{PySetOrder} (cg : cnf) (sentence : string)
  (data : option parse_data_t) :
  parse (CYKParser_init cg) sentence = Ok (true, data) ->
  exists t,
    build_parse_tree (CYKParser_init cg) data = Ok (Some t) /\
    leaves t = tokenize sentence.
Proof.
  intros Hparse.
  destruct (@build_parse_tree_ok _ cg (tokenize sentence) sentence data
                                 eq_refl Hparse) as (t & Ht & _ & Hleaves).
  exists t; auto.
Qed.

Lemma parse_tree_leaves_witness :
  let self := CYKParser_init ab_grammar in
  let data := parse_data_of (@parse insertion_order self "a b") in
  @parse insertion_order self "a b" = Ok (true, data) /\
  exists t,
    build_parse_tree self data = Ok (Some t) /\ leaves t = tokenize "a b".
Proof.
  split; [reflexivity|].
  apply (@parse_tree_leaves insertion_order ab_grammar "a b"). reflexivity.
Defined.

(* ================================================================= *)
(** * Folds and [while] loops *)

Lemma fold_left_invariant {A B} (f : A -> B -> A) (P : A -> Prop) (l : list B) :
  (forall a b, In b l -> P a -> P (f a b)) ->
  forall a, P a -> P (fold_left f l a).
Proof.
  induction l as [|b l IH]; simpl; intros Hf a Ha; [assumption|].
  apply IH; auto.
Qed.

(** The same with the part of the list already visited. *)
Lemma fold_left_prefix {A B} (f : A -> B -> A) (P : list B -> A -> Prop)
  (l : list B) :
  (forall pre b post a, l = pre ++ b :: post -> P pre a -> P (pre ++ [b]) (f a b)) ->
  forall a, P [] a -> P l (fold_left f l a).
Proof.
  intros Hf.
  enough (Hgen : forall post pre a,
             l = pre ++ post -> P pre a -> P l (fold_left f post a)).
  { intros a Ha. apply (Hgen l [] a); auto. }
  induction post as [|b post IH]; intros pre a Hl Ha; simpl.
  - rewrite app_nil_r in Hl. subst; assumption.
  - apply (IH (pre ++ [b])).
    + rewrite <- app_assoc; exact Hl.
    + eapply Hf; eauto.
Qed.

(** Partial correctness of a [for] loop whose body may raise. *)
Lemma for_each_partial {X St} (P : St -> Prop) (xs : list X)
  (body : St -> X -> result St) :
  (forall x s s', In x xs -> P s -> body s x = Ok s' -> P s') ->
  forall s s', P s -> for_each xs body s = Ok s' -> P s'.
Proof.
  induction xs as [|x xs IH]; simpl; intros Hbody s s' Hs Hrun.
  - injection Hrun as <-. assumption.
  - destruct (body s x) as [s1| |] eqn:E; simpl in Hrun; try discriminate.
    apply (IH (fun y a b Hy => Hbody y a b (or_intror Hy)) s1); eauto.
Qed.

(** A [while] loop ends within its fuel when each round that reports a
    change increases a bounded measure. The last round reported no
    change. *)
Lemma while_changed_terminates {St} (pass : St -> St * bool)
  (I : St -> Prop) (mu : St -> nat) (bound : nat) :
  (forall s, I s -> mu s <= bound) ->
  (forall s, I s -> I (fst (pass s)) /\
                    (snd (pass s) = true -> mu s < mu (fst (pass s)))) ->
  forall fuel s,
    I s -> bound < mu s + fuel ->
    exists s0 s',
      while_changed fuel pass s = Ok s' /\ I s0 /\ pass s0 = (s', false).
Proof.
  intros Hbound Hpass.
  induction fuel as [|fuel IH]; intros s Hs Hfuel.
  - specialize (Hbound s Hs). lia.
  - simpl. destruct (Hpass s Hs) as [HI Hmu].
    destruct (pass s) as [s' c] eqn:E. simpl in HI, Hmu.
    destruct c.
    + apply IH; [assumption|]. specialize (Hmu eq_refl). lia.
    + exists s, s'. auto.
Qed.

Lemma fold_left_progress {A B} (P : A -> Prop) (R : A -> A -> Prop)
  (Q : B -> A -> Prop) (f : A -> B -> A) (l : list B) :
  (forall a, R a a) ->
  (forall a b c, R a b -> R b c -> R a c) ->
  (forall x a b, Q x a -> R a b -> Q x b) ->
  (forall x a, In x l -> P a -> P (f a x) /\ R a (f a x) /\ Q x (f a x)) ->
  forall a, P a ->
  P (fold_left f l a) /\ R a (fold_left f l a) /\
  forall x, In x l -> Q x (fold_left f l a).
Proof.
  intros Hrefl Htrans Hstable Hf a Ha.
  apply (@fold_left_prefix A B f
           (fun pre a' => P a' /\ R a a' /\ forall x, In x pre -> Q x a') l).
  - intros pre b post a' Hl (HP & HR & HQ).
    destruct (Hf b a') as (HP' & HR' & HQ'); auto.
    { subst l. apply in_or_app; right; left; reflexivity. }
    split; [assumption|]. split; [eauto|].
    intros x Hx. apply in_app_or in Hx as [Hx|[<-|[]]]; eauto.
  - split; [assumption|]. split; [apply Hrefl|]. intros x [].
Qed.

Lemma nullable_pass_inv (g : rules_t) (nl : list string) :
  NoDup nl -> incl nl (keys g) ->
  NoDup (fst (nullable_pass g nl)) /\
  incl (fst (nullable_pass g nl)) (keys g) /\
  (snd (nullable_pass g nl) = true ->
   length nl < length (fst (nullable_pass g nl))).
Proof.
  intros Hnd Hincl. unfold nullable_pass.
  set (f := fun '(nullable, changed) '(var, productions) => _).
  assert (HP : (fun st : list string * bool =>
                  NoDup (fst st) /\ incl (fst st) (keys g) /\
                  length nl <= length (fst st) /\
                  (snd st = true -> length nl < length (fst st)))
                 (fold_left f g (nl, false))).
  { apply fold_left_invariant.
    - intros [nl1 c1] [var ps] Hin (H1 & H2 & H3 & H4). simpl in *.
      destruct (mem var nl1) eqn:Emem; simpl; [auto|].
      destruct (existsb _ ps); simpl; [|auto].
      unfold set_add. rewrite Emem. apply mem_not_In in Emem.
      split; [|split; [|split]].
      + apply NoDup_app; [assumption|repeat constructor; auto using in_nil|].
        intros a Ha [<-|[]]. exact (Emem Ha).
      + intros a Ha. apply in_app_or in Ha as [Ha|[<-|[]]]; [auto|].
        change var with (fst (var, ps)). apply in_map; exact Hin.
      + rewrite length_app; simpl; lia.
      + intros _. rewrite length_app; simpl; lia.
    - simpl. repeat split; auto. discriminate. }
  simpl in HP. tauto.
Qed.

Lemma nullable_loop_terminates (g : rules_t) :
  exists nl, while_changed (S (length g)) (nullable_pass g) [] = Ok nl.
Proof.
  destruct (@while_changed_terminates _ (nullable_pass g)
              (fun nl => NoDup nl /\ incl nl (keys g))
              (@length string) (length g)) with (fuel := S (length g)) (s := @nil string)
    as (s0 & s' & Hrun & _).
  - intros nl [Hnd Hincl].
    replace (length g) with (length (keys g)) by apply length_map.
    apply NoDup_incl_length; assumption.
  - intros nl [Hnd Hincl].
    destruct (@nullable_pass_inv g nl Hnd Hincl) as (? & ? & ?). auto.
  - split; [constructor|]. intros a [].
  - simpl; lia.
  - exists s'; exact Hrun.
Qed.

(* ================================================================= *)
(** * Pass 2: epsilon productions *)

Lemma nullable_pass_nil (g : rules_t) :
  no_empty_production g -> nullable_pass g [] = ([], false).
Proof.
  unfold nullable_pass. intros Hg.
  induction g as [|[var ps] g IH]; [reflexivity|].
  cbn [fold_left]. change (mem var []) with false. cbn [negb].
  assert (E : existsb (fun prod : production =>
                         forallb (fun symbol => mem symbol []) prod) ps = false).
  { apply not_true_is_false. intros Hex.
    apply existsb_exists in Hex as (prod & Hprod & Hall).
    destruct prod as [|s prod]; [|discriminate].
    apply (Hg var ps); simpl; auto. }
  rewrite E. apply IH.
  intros var' ps' Hin. apply (Hg var' ps'). right; exact Hin.
Qed.

(** C8 (as stated, refuted). After [eliminate_start_symbol] on the
    grammar [S -> '' ; A has no rule], the dictionary has the keys [S0],
    [S] and [A]; [S] is nullable, so the pass rebuilds the dictionary,
    and the key [A] is gone. *)
Lemma eliminate_epsilon_productions_counterexample :
  let self := eliminate_start_symbol (CFGtoCNF_init blank_grammar) in
  grammar self = [("S0", [["S"]]); ("S", [[]]); ("A", [])] /\
  exists self',
    eliminate_epsilon_productions self = Ok self' /\
    grammar self' = [("S0", [["S"]]); ("S", [[]])] /\
    dict_mem (grammar self) "A" = true /\
    dict_mem (grammar self') "A" = false.
Proof.
  split; [reflexivity|]. eexists. split; [reflexivity|].
  repeat split; reflexivity.
Qed.

(** C8 (as amended). On a grammar none of whose productions is empty,
    [eliminate_epsilon_productions] changes nothing: no variable is
    nullable and the object is left as it is. *)
Theorem eliminate_epsilon_productions_unchanged (self : CFGtoCNF) :
  no_empty_production (grammar self) ->
  eliminate_epsilon_productions self = Ok self.
Proof.
  intros Hg. unfold eliminate_epsilon_productions. simpl.
  rewrite (nullable_pass_nil Hg). reflexivity.
Qed.

Lemma eliminate_epsilon_productions_unchanged_witness :
  let self := eliminate_start_symbol (CFGtoCNF_init demo_grammar) in
  no_empty_production (grammar self) /\
  eliminate_epsilon_productions self = Ok self.
Proof.
  assert (Hg : no_empty_production
                 (grammar (eliminate_start_symbol (CFGtoCNF_init demo_grammar)))).
  { intros var ps Hin Hnil. simpl in Hin.
    repeat (destruct Hin as [Hin|Hin];
            [injection Hin as <- <-; simpl in Hnil;
             repeat (destruct Hnil as [Hnil|Hnil]; [discriminate|]);
             exact Hnil|]).
    exact Hin. }
  split; [exact Hg|].
  apply (eliminate_epsilon_productions_unchanged _ Hg).
Defined.

Lemma NoDup_keys_dd_append {V} (d : dict string (list V)) k v :
  NoDup (keys d) -> NoDup (keys (dd_append d k v)).
Proof. apply NoDup_keys_dict_set. Qed.

Lemma In_keys_dd_append {V} (d : dict string (list V)) k v k' :
  In k' (keys (dd_append d k v)) <-> In k' (keys d) \/ k' = k.
Proof. apply In_keys_dict_set. Qed.

(** The pass never raises. When it rebuilds the grammar it keeps the
    empty productions, which are not [['']]. *)
Lemma eliminate_epsilon_productions_total (self : CFGtoCNF) :
  NoDup (keys (grammar self)) ->
  exists self',
    eliminate_epsilon_productions self = Ok self' /\
    NoDup (keys (grammar self')) /\
    (forall var, In [] (dd_get (grammar self) var) ->
                 In [] (dd_get (grammar self') var)) /\
    start_symbol self' = start_symbol self /\
    new_var_counter self' = new_var_counter self /\
    issued self' = issued self.
Proof.
  intros Hnd. unfold eliminate_epsilon_productions.
  destruct (nullable_loop_terminates (grammar self)) as (nl & Hnl).
  rewrite Hnl. simpl. destruct nl as [|x nl].
  { exists self. repeat split; auto. }
  eexists. split; [reflexivity|]. simpl.
  match goal with
  | |- context [fold_left ?f ?l ?init] =>
      destruct (@fold_left_progress _ _
                  (fun ng : rules_t => NoDup (keys ng))
                  (fun a b : rules_t =>
                     forall v p, In p (dd_get a v) -> In p (dd_get b v))
                  (fun (x : string * list production) (ng : rules_t) =>
                     In [] (snd x) -> In [] (dd_get ng (fst x)))
                  f l) with (a := init) as (HP & _ & HQ)
  end.
  - auto.
  - eauto.
  - intros [var ps] a b Ha Hab Hin. simpl in *. auto.
  - intros [var ps] ng Hin Hng. simpl.
    match goal with
    | |- context [fold_left ?f ?l ?init] =>
        destruct (@fold_left_progress _ _
                    (fun ng : rules_t => NoDup (keys ng))
                    (fun a b : rules_t =>
                       forall v p, In p (dd_get a v) -> In p (dd_get b v))
                    (fun (prod : production) (ng : rules_t) =>
                       prod = [] -> In [] (dd_get ng var))
                    f l) with (a := init) as (HP & HR & HQ)
    end.
    + auto.
    + eauto.
    + intros p a b Ha Hab Hp. auto.
    + intros p a _ Ha.
      unfold _generate_combinations.
      match goal with
      | |- context [if ?c then _ else _] => destruct c eqn:E
      end.
      * split; [apply NoDup_keys_dd_append; assumption|]. split.
        -- intros v q Hq. apply In_dd_get_append; auto.
        -- intros ->. apply In_dd_get_append; auto.
      * split; [assumption|]. split; [auto|].
        intros ->. simpl in E. discriminate.
    + assumption.
    + split; [assumption|]. split; [assumption|].
      intros Hnil. apply (HQ []); auto.
  - constructor.
  - repeat split; auto.
    intros var Hin. unfold dd_get in Hin.
    destruct (dict_get (grammar self) var) as [ps|] eqn:E; [|destruct Hin].
    apply dict_get_Some_In in E. apply (HQ (var, ps)); assumption.
Qed.

(* ================================================================= *)
(** * Pass 3: unit productions *)

Lemma In_dict_set {V} (d : dict string V) k v k' v' :
  In (k', v') (dict_set d k v) -> (k' = k /\ v' = v) \/ In (k', v') d.
Proof.
  induction d as [|[k0 v0] d IH]; simpl.
  - intros [E|[]]. injection E as <- <-. auto.
  - destruct (String.eqb_spec k k0) as [->|Hne]; simpl.
    + intros [E|Hin]; [injection E as <- <-|]; auto.
    + intros [E|Hin]; [auto|]. destruct (IH Hin); auto.
Qed.

Lemma dd_get_In_keys {V} (d : dict string (list V)) k x :
  In x (dd_get d k) -> In k (keys d).
Proof.
  unfold dd_get. destruct (dict_get d k) as [l|] eqn:E; [|intros []].
  intros _. apply dict_get_Some_In in E.
  change k with (fst (k, l)). apply in_map; exact E.
Qed.

Lemma dd_get_item {V} (d : dict string (list V)) k l :
  NoDup (keys d) -> In (k, l) d -> dd_get d k = l.
Proof.
  intros Hnd Hin. unfold dd_get. rewrite (In_dict_get _ _ _ Hnd Hin).
  reflexivity.
Qed.

Lemma dd_get_dd_add (up : dict string (list string)) k x k' :
  dd_get (dd_add up k x) k' =
  if keqb k' k then set_add (dd_get up k) x else dd_get up k'.
Proof. unfold dd_add. apply dd_get_set. Qed.

Lemma total_pairs_dict_set (up : dict string (list string)) k s :
  total_pairs (dict_set up k s) + length (dd_get up k) =
  total_pairs up + length s.
Proof.
  unfold total_pairs, dd_get.
  induction up as [|[k0 v0] up IH]; simpl; [lia|].
  destruct (String.eqb_spec k k0) as [->|Hne]; simpl.
  - lia.
  - lia.
Qed.

Lemma total_pairs_dd_add (up : dict string (list string)) k x :
  ~ In x (dd_get up k) -> total_pairs (dd_add up k x) = S (total_pairs up).
Proof.
  intros Hx. unfold dd_add.
  pose proof (total_pairs_dict_set up k (set_add (dd_get up k) x)) as E.
  unfold set_add in *. apply mem_not_In in Hx. rewrite Hx in *.
  rewrite length_app in E. simpl in E. lia.
Qed.

(** Case analysis on a comparison of keys. *)
Ltac case_key k k' E :=
  destruct (keqb k k') eqn:E; [apply keqb_eq in E|apply keqb_neq in E].

Section UnitPairs.
Variable g : rules_t.

Lemma unit_pairs_ok_dd_add up k x :
  unit_pairs_ok g up -> In k (keys g) -> In x (keys g) ->
  unit_pairs_ok g (dd_add up k x).
Proof.
  intros (Hnd & Hincl & Hsets) Hk Hx. unfold dd_add. split; [|split].
  - apply NoDup_keys_dict_set; assumption.
  - intros k' Hk'. apply In_keys_dict_set in Hk' as [Hk'| ->]; auto.
  - intros k' s Hin. apply In_dict_set in Hin as [[-> ->]|Hin]; [|eauto].
    assert (Hold : NoDup (dd_get up k) /\ incl (dd_get up k) (keys g)).
    { unfold dd_get. destruct (dict_get up k) as [l|] eqn:E.
      - apply dict_get_Some_In in E. eauto.
      - split; [constructor|intros a []]. }
    destruct Hold as [Hnd' Hincl']. split.
    + apply NoDup_set_add; assumption.
    + intros a Ha. apply In_set_add in Ha as [Ha| ->]; auto.
Qed.

Lemma total_pairs_bound up :
  unit_pairs_ok g up -> total_pairs up <= length g * length g.
Proof.
  intros (Hnd & Hincl & Hsets).
  assert (Hlen : length up <= length g).
  { rewrite <- (length_map fst up), <- (length_map fst g).
    apply NoDup_incl_length; assumption. }
  assert (Hsum : total_pairs up <= length up * length g).
  { clear Hnd Hincl Hlen. unfold total_pairs.
    induction up as [|[k s] up IH]; simpl; [lia|].
    assert (length s <= length g).
    { destruct (Hsets k s (or_introl eq_refl)) as [Hs1 Hs2].
      rewrite <- (length_map fst g). apply NoDup_incl_length; assumption. }
    assert (list_sum (map (fun kv => length (snd kv)) up)
            <= length up * length g).
    { apply IH. intros k' s' Hin. apply (Hsets k' s'). right; exact Hin. }
    lia. }
  nia.
Qed.

Lemma pass_step_refl a : pass_step a a.
Proof. unfold pass_step. repeat split; auto. Qed.

Lemma pass_step_trans a b c : pass_step a b -> pass_step b c -> pass_step a c.
Proof.
  intros (H1 & H2 & H3 & H4 & H5) (K1 & K2 & K3 & K4 & K5).
  unfold pass_step. split; [auto|]. split; [lia|]. split; [auto|]. split.
  - intros Hc. destruct (K4 Hc) as [Hb|Hlt]; [|right; lia].
    destruct (H4 Hb) as [Ha|Hlt]; [auto|right; lia].
  - intros Hc. specialize (K5 Hc).
    assert (Hb : snd b = false).
    { destruct (snd b); [|reflexivity]. specialize (K3 eq_refl). congruence. }
    rewrite K5. auto.
Qed.

Lemma pass_step_flag a b : pass_step a b -> snd b = false -> snd a = false.
Proof.
  intros (_ & _ & H3 & _) Hb. destruct (snd a); [|reflexivity].
  specialize (H3 eq_refl). congruence.
Qed.

(** The innermost loop of a round: the pairs [(var, C)] for [C] in a
    list of variables reached from [var]. *)
Lemma add_pairs_spec var (l : list string) (st : dict string (list string) * bool) :
  In var (keys g) ->
  (forall C, In C l -> In C (keys g) /\ unit_reach g var C) ->
  unit_pairs_ok g (fst st) /\ unit_pairs_sound g (fst st) ->
  let st' :=
    fold_left
      (fun '(unit_pairs, changed) C =>
         if negb (mem C (dd_get unit_pairs var))
         then (dd_add unit_pairs var C, true)
         else (unit_pairs, changed)) l st in
  (unit_pairs_ok g (fst st') /\ unit_pairs_sound g (fst st')) /\
  pass_step st st' /\
  forall C, In C l -> snd st' = false -> In C (dd_get (fst st') var).
Proof.
  intros Hvar Hl Hst. cbv zeta.
  apply (@fold_left_progress _ _
           (fun st => unit_pairs_ok g (fst st) /\ unit_pairs_sound g (fst st))
           pass_step
           (fun C st => snd st = false -> In C (dd_get (fst st) var))).
  - apply pass_step_refl.
  - apply pass_step_trans.
  - intros C a b Ha Hab Hb.
    pose proof (pass_step_flag Hab Hb) as Hfa.
    destruct Hab as (Hmono & _). auto.
  - intros C [up c] HC [Hok Hsound]. simpl in Hok, Hsound.
    destruct (Hl C HC) as [HCk HCr].
    destruct (mem C (dd_get up var)) eqn:E; simpl.
    + split; [auto|]. split; [apply pass_step_refl|].
      intros _. apply mem_In; exact E.
    + apply mem_not_In in E. split; [split|split].
      * apply unit_pairs_ok_dd_add; assumption.
      * intros k x. rewrite dd_get_dd_add.
        case_key k var Ek; [subst k|apply Hsound].
        intros Hx. apply In_set_add in Hx as [Hx| ->]; auto.
      * unfold pass_step; simpl. split; [|split; [|split; [|split]]].
        -- intros k x Hx. rewrite dd_get_dd_add.
           case_key k var Ek; [subst k|assumption].
           apply In_set_add; auto.
        -- rewrite total_pairs_dd_add by assumption. lia.
        -- auto.
        -- intros _. right. rewrite total_pairs_dd_add by assumption. lia.
        -- discriminate.
      * discriminate.
  - exact Hst.
Qed.

End UnitPairs.

Lemma for_each_Ok_all {X St} (xs : list X) (body : St -> X -> result St) s s' :
  for_each xs body s = Ok s' ->
  forall x, In x xs -> exists s1 s2, body s1 x = Ok s2.
Proof.
  revert s. induction xs as [|y xs IH]; simpl; intros s Hrun x Hx; [tauto|].
  destruct (body s y) as [s1| |] eqn:E; simpl in Hrun; try discriminate.
  destruct Hx as [<-|Hx]; eauto.
Qed.

Lemma for_each_Ok_or_Raise {X St} (e : exn) (xs : list X)
  (body : St -> X -> result St) :
  (forall x s, In x xs -> (exists s', body s x = Ok s') \/ body s x = Raise e) ->
  forall s, (exists s', for_each xs body s = Ok s') \/
            for_each xs body s = Raise e.
Proof.
  induction xs as [|y xs IH]; simpl; intros Hbody s; [eauto|].
  destruct (Hbody y s (or_introl eq_refl)) as [[s1 E]|E]; rewrite E; simpl;
    [|auto].
  apply IH. intros x s2 Hx. apply Hbody; auto.
Qed.

Lemma not_unit_nil (g : rules_t) : not_unit g [] = Raise IndexError.
Proof. reflexivity. Qed.

Lemma not_unit_spec (g : rules_t) (p : production) :
  p <> [] ->
  exists b, not_unit g p = Ok b /\ (b = true <-> non_unit g p).
Proof.
  intros Hp. unfold not_unit, non_unit.
  destruct p as [|s [|s' p]]; [congruence| |].
  - simpl. eexists; split; [reflexivity|].
    rewrite negb_true_iff, (dict_mem_not_In g s). split.
    + intros Hs. right. exists s; auto.
    + intros [Hlen|(s' & E & Hs)]; [simpl in Hlen; lia|].
      injection E as <-. assumption.
  - simpl. eexists; split; [reflexivity|]. split; [|reflexivity].
    intros _. left. lia.
Qed.

Lemma not_unit_Ok_or_Raise (g : rules_t) (p : production) :
  (exists b, not_unit g p = Ok b) \/ not_unit g p = Raise IndexError.
Proof.
  destruct p as [|s p]; [right; reflexivity|].
  left. destruct (@not_unit_spec g (s :: p)) as (b & Hb & _);
    [discriminate|eauto].
Qed.

Section UnitClosure.
Context `{PySetOrder}.
Variable g : rules_t.
Hypothesis g_keys : NoDup (keys g).

Local Abbreviation good :=
  (fun st : dict string (list string) * bool =>
     unit_pairs_ok g (fst st) /\ unit_pairs_sound g (fst st)).

Lemma unit_pairs_In_keys up k x :
  unit_pairs_ok g up -> In x (dd_get up k) -> In x (keys g).
Proof.
  intros (_ & _ & Hsets). unfold dd_get.
  destruct (dict_get up k) as [s|] eqn:E; [|intros []].
  apply dict_get_Some_In in E. apply (Hsets k s E).
Qed.

(** One round of the closure. *)
Lemma unit_pass_spec up :
  good (up, false) ->
  good (unit_pass g up) /\ pass_step (up, false) (unit_pass g up) /\
  (snd (unit_pass g up) = false -> unit_closed g up).
Proof.
  intros Hup. unfold unit_pass.
  match goal with
  | |- context [fold_left ?f ?l ?init] =>
      destruct (@fold_left_progress _ _ good pass_step
                  (fun (x : string * list production)
                       (st : dict string (list string) * bool) =>
                     snd st = false ->
                     forall B C, In [B] (snd x) -> dict_mem g B = true ->
                                 In C (dd_get (fst st) B) ->
                                 In C (dd_get (fst st) (fst x)))
                  f l (@pass_step_refl) (@pass_step_trans))
        with (a := init) as (HP & HR & HQ)
  end.
  - intros x a b Ha Hab Hb B C HB Hmem HC.
    pose proof (pass_step_flag Hab Hb) as Hfa.
    destruct Hab as (_ & _ & _ & _ & Heq). rewrite (Heq Hb) in *. eauto.
  - intros [var ps] st Hin Hst. cbn beta iota.
    assert (Hvar : In var (keys g)).
    { change var with (fst (var, ps)). apply in_map; exact Hin. }
    match goal with
    | |- context [fold_left ?f ?l ?init] =>
        destruct (@fold_left_progress _ _ good pass_step
                    (fun (prod : production)
                         (st : dict string (list string) * bool) =>
                       snd st = false ->
                       forall B C, prod = [B] -> dict_mem g B = true ->
                                   In C (dd_get (fst st) B) ->
                                   In C (dd_get (fst st) var))
                    f l (@pass_step_refl) (@pass_step_trans))
          with (a := init) as (HP & HR & HQ)
    end.
    + intros x a b Ha Hab Hb B C HB Hmem HC.
      pose proof (pass_step_flag Hab Hb) as Hfa.
      destruct Hab as (_ & _ & _ & _ & Heq). rewrite (Heq Hb) in *. eauto.
    + intros prod [up1 c1] Hprod Hst1. cbn beta iota.
      destruct prod as [|B [|? ?]];
        try (split; [assumption|]; split; [apply pass_step_refl|];
             intros _ B' C' E; discriminate).
      destruct (dict_mem g B) eqn:EB.
      * destruct (@add_pairs_spec g var (set_iter (dd_get up1 B)) (up1, c1))
          as (HP & HR & HQ); auto.
        { intros C HC. apply (proj1 (set_iter_In _ _)) in HC. split.
          - eapply unit_pairs_In_keys; [apply Hst1|exact HC].
          - apply unit_reach_step with (B := B).
            + rewrite (@dd_get_item _ g var ps g_keys Hin). exact Hprod.
            + apply dict_mem_In; exact EB.
            + apply Hst1; exact HC. }
        cbv zeta in HP, HR, HQ.
        split; [exact HP|]. split; [exact HR|].
        intros Hflag B' C E _ HC. injection E as <-.
        apply HQ; [|exact Hflag].
        destruct HR as (_ & _ & _ & _ & Heq). rewrite (Heq Hflag) in HC.
        apply set_iter_In. exact HC.
      * split; [assumption|]. split; [apply pass_step_refl|].
        intros _ B' C E Hmem. injection E as <-. congruence.
    + exact Hst.
    + split; [exact HP|]. split; [exact HR|].
      intros Hflag B C HB Hmem HC. simpl in HB |- *.
      exact (HQ [B] HB Hflag B C eq_refl Hmem HC).
  - exact Hup.
  - split; [exact HP|]. split; [exact HR|].
    intros Hflag var ps B C Hin HB Hmem HC.
    destruct HR as (_ & _ & _ & _ & Heq). specialize (Heq Hflag).
    simpl in Heq. 
    specialize (HQ (var, ps) Hin Hflag B C HB Hmem).
    rewrite Heq in HQ. simpl in HQ. auto.
Qed.

Lemma initial_unit_pairs :
  let up0 := fold_left (fun up var => dd_add up var var) (keys g) [] in
  good (up0, false) /\ unit_pairs_refl g up0.
Proof.
  cbv zeta.
  destruct (@fold_left_progress _ _
              (fun up => unit_pairs_ok g up /\ unit_pairs_sound g up)
              (fun a b : dict string (list string) =>
                 forall k x, In x (dd_get a k) -> In x (dd_get b k))
              (fun var up => In var (dd_get up var))
              (fun up var => dd_add up var var) (keys g))
    with (a := @nil (string * list string)) as (HP & _ & HQ).
  - auto.
  - eauto.
  - intros x a b Ha Hab. auto.
  - intros var up Hvar [Hok Hsound]. split; [split|split].
    + apply unit_pairs_ok_dd_add; assumption.
    + intros k x. rewrite dd_get_dd_add.
      case_key k var Ek; [subst k|apply Hsound].
      intros Hx. apply In_set_add in Hx as [Hx| ->]; auto.
      apply unit_reach_refl; assumption.
    + intros k x Hx. rewrite dd_get_dd_add.
      case_key k var Ek; [subst k|assumption]. apply In_set_add; auto.
    + rewrite dd_get_dd_add, keqb_refl. apply In_set_add; auto.
  - split.
    + split; [constructor|]. split; [intros a []|]. intros k s [].
    + intros k x [].
  - split; [exact HP|]. exact HQ.
Qed.

(** The closure loop ends within its fuel, in the unit pairs of [g]. *)
Lemma unit_closure_terminates :
  exists up,
    unit_closure g = Ok up /\
    unit_pairs_ok g up /\
    forall A C, In C (dd_get up A) <-> unit_reach g A C.
Proof.
  destruct initial_unit_pairs as [Hgood0 Hrefl0]. cbv zeta in Hgood0, Hrefl0.
  unfold unit_closure. cbv zeta.
  destruct (@while_changed_terminates _ (unit_pass g)
              (fun up => good (up, false) /\ unit_pairs_refl g up)
              total_pairs (length g * length g))
    with (fuel := S (length g * length g))
         (s := fold_left (fun up var => dd_add up var var) (keys g) [])
    as (s0 & up & Hrun & [Hgood Hrefl] & Hlast).
  - intros s [[Hok _] _]. apply total_pairs_bound; assumption.
  - intros s [Hgood Hrefl].
    destruct (unit_pass_spec Hgood) as (HP & HR & _).
    destruct HR as (Hmono & _ & _ & Hlt & _). simpl in Hmono, Hlt.
    split; [split|].
    + exact HP.
    + intros k Hk. apply Hmono. apply Hrefl; assumption.
    + intros Hc. destruct (Hlt Hc) as [?|?]; [discriminate|assumption].
  - split; assumption.
  - lia.
  - destruct (unit_pass_spec Hgood) as (_ & HR & Hclosed).
    rewrite Hlast in HR, Hclosed. simpl in Hclosed.
    destruct HR as (_ & _ & _ & _ & Heq). simpl in Heq.
    specialize (Heq eq_refl). subst up. specialize (Hclosed eq_refl).
    exists s0. split; [exact Hrun|]. split; [apply Hgood|].
    intros A C. split; [apply Hgood|].
    induction 1 as [A HA|A B C HB HBk _ IH].
    + apply Hrefl; assumption.
    + assert (HA : In (A, dd_get g A) g).
      { unfold dd_get in *. destruct (dict_get g A) as [ps|] eqn:E; [|destruct HB].
        apply dict_get_Some_In; exact E. }
      apply (Hclosed A (dd_get g A) B C); auto.
      apply dict_mem_In; exact HBk.
Qed.

Lemma unit_reach_keys A B : unit_reach g A B -> In B (keys g).
Proof. induction 1; assumption. Qed.

Lemma unit_reach_source A B : unit_reach g A B -> In A (keys g).
Proof.
  destruct 1 as [A HA|A B C HB _ _]; [assumption|].
  eapply dd_get_In_keys; eauto.
Qed.

(** The new grammar, when no production is empty: the non-unit
    productions of the variables reached, without repetition. *)
Lemma build_unit_free_ok up :
  unit_pairs_ok g up ->
  (forall A C, In C (dd_get up A) <-> unit_reach g A C) ->
  no_empty_production g ->
  exists ng,
    build_unit_free g up = Ok ng /\
    NoDup (keys ng) /\ incl (keys ng) (keys g) /\
    (forall var, NoDup (dd_get ng var)) /\
    forall var p,
      In p (dd_get ng var) <->
      exists B, unit_reach g var B /\ In p (dd_get g B) /\ non_unit g p.
Proof.
  intros Hok Hup Hne. unfold build_unit_free.
  set (P := fun ng : rules_t =>
              NoDup (keys ng) /\ incl (keys ng) (keys g) /\
              (forall var, NoDup (dd_get ng var)) /\
              forall var p,
                In p (dd_get ng var) ->
                exists B, unit_reach g var B /\ In p (dd_get g B) /\
                          non_unit g p).
  set (R := fun a b : rules_t =>
              forall v p, In p (dd_get a v) -> In p (dd_get b v)).
  assert (Hrefl : forall a, R a a) by (intros a v p Hp; exact Hp).
  assert (Htrans : forall a b c, R a b -> R b c -> R a c)
    by (intros a b c Hab Hbc v p Hp; auto).
  loop_rule P R
            (fun var (ng : rules_t) =>
               forall B p, unit_reach g var B -> In p (dd_get g B) ->
                           non_unit g p -> In p (dd_get ng var)) Hvars;
    [exact Hrefl|exact Htrans| | | |].
  - intros var a b Ha Hab B p HB Hp Hnu. apply Hab; eauto.
  - intros var ng Hvar Hng.
    loop_rule P R
              (fun B (ng : rules_t) =>
                 forall p, In p (dd_get g B) -> non_unit g p ->
                           In p (dd_get ng var)) HBs;
      [exact Hrefl|exact Htrans| | | |].
    + intros B a b Ha Hab p Hp Hnu. apply Hab; eauto.
    + intros B ng1 HB Hng1. apply (proj1 (set_iter_In _ _)) in HB.
      assert (HBr : unit_reach g var B) by (apply Hup; exact HB).
      assert (HBk : In B (keys g)) by (eapply unit_reach_keys; eauto).
      unfold dict_getitem.
      destruct (dict_get g B) as [ps|] eqn:EB;
        [|apply dict_get_None in EB; contradiction].
      cbn [bind].
      assert (Hps : dd_get g B = ps) by (unfold dd_get; rewrite EB; reflexivity).
      loop_rule P R
                (fun (prod : production) (ng : rules_t) =>
                   non_unit g prod -> In prod (dd_get ng var)) Hprods;
        [exact Hrefl|exact Htrans| | | |].
      * intros prod a b Ha Hab Hnu. apply Hab; eauto.
      * intros prod ng2 Hprod (Hnd & Hincl & Hsets & Hsound).
        assert (Hnonempty : prod <> []).
        { intros ->. apply (Hne B ps); [apply dict_get_Some_In|]; assumption. }
        destruct (not_unit_spec g Hnonempty) as (b & Hb & Hbspec).
        rewrite Hb. cbn [bind]. destruct b.
        -- destruct (mem prod (dd_get ng2 var)) eqn:Emem; cbn [negb].
           ++ exists ng2. split; [reflexivity|]. split; [repeat split; auto|].
              split; [apply Hrefl|]. intros _. apply mem_In; exact Emem.
           ++ apply mem_not_In in Emem.
              exists (dd_append ng2 var prod). split; [reflexivity|].
              split; [|split].
              ** split; [apply NoDup_keys_dd_append; assumption|].
                 split; [|split].
                 --- intros k Hk. apply In_keys_dd_append in Hk as [Hk| ->]; auto.
                 --- intros v. rewrite dd_get_append.
                     case_key v var Ev; [subst v|apply Hsets].
                     apply NoDup_app; [apply Hsets|repeat constructor; auto using in_nil|].
                     intros a Ha [<-|[]]. exact (Emem Ha).
                 --- intros v p Hp. apply In_dd_get_append in Hp as [Hp|[-> ->]];
                       [auto|].
                     exists B. split; [assumption|]. split; [|apply Hbspec; reflexivity].
                     rewrite Hps; assumption.
              ** intros v p Hp. apply In_dd_get_append; auto.
              ** intros _. apply In_dd_get_append; auto.
        -- exists ng2. split; [reflexivity|]. split; [repeat split; auto|].
           split; [apply Hrefl|]. intros Hnu. apply Hbspec in Hnu. discriminate.
      * exact Hng1.
      * destruct Hprods as (ng2 & Hrun & Hng2 & HR & HQ).
        exists ng2. split; [exact Hrun|]. split; [exact Hng2|].
        split; [exact HR|]. intros p Hp Hnu. rewrite Hps in Hp. auto.
    + exact Hng.
    + destruct HBs as (ng1 & Hrun & Hng1 & HR & HQ).
      exists ng1. split; [exact Hrun|]. split; [exact Hng1|].
      split; [exact HR|]. intros B p HB Hp Hnu.
      apply (HQ B); auto. apply set_iter_In. apply Hup. exact HB.
  - unfold P. split; [constructor|]. split; [intros a []|].
    split; [intros v; constructor|]. intros v p [].
  - destruct Hvars as (ng & Hrun & (Hnd & Hincl & Hsets & Hsound) & _ & HQ).
    exists ng. split; [exact Hrun|]. repeat (split; [assumption|]).
    intros var p. split; [apply Hsound|].
    intros (B & HB & Hp & Hnu). apply (HQ var) with (B := B); auto.
    eapply unit_reach_source; eauto.
Qed.

(** The new grammar, when some production is empty: [prod[0]] raises. *)
Lemma build_unit_free_raises up :
  unit_pairs_ok g up ->
  (forall A C, In C (dd_get up A) <-> unit_reach g A C) ->
  (exists var ps, In (var, ps) g /\ In [] ps) ->
  build_unit_free g up = Raise IndexError.
Proof.
  intros Hok Hup (var & ps & Hin & Hnil). unfold build_unit_free.
  assert (Hvar : In var (keys g)).
  { change var with (fst (var, ps)). apply in_map; exact Hin. }
  match goal with
  | |- for_each ?xs ?body ?init = _ =>
      destruct (@for_each_Ok_or_Raise _ _ IndexError xs body) with (s := init)
      as [[ng Hrun]|Hrun]; [|exfalso|exact Hrun]
  end.
  - intros v ng _.
    apply for_each_Ok_or_Raise. intros B ng1 HB.
    apply (proj1 (set_iter_In _ _)) in HB.
    assert (HBk : In B (keys g)).
    { eapply unit_reach_keys. apply Hup. exact HB. }
    unfold dict_getitem.
    destruct (dict_get g B) as [ps'|] eqn:EB;
      [|apply dict_get_None in EB; contradiction].
    cbn [bind]. apply for_each_Ok_or_Raise. intros prod ng2 _.
    destruct (not_unit_Ok_or_Raise g prod) as [[b Hb]|Hb]; rewrite Hb;
      cbn [bind]; [left|right; reflexivity].
    destruct b; [destruct (negb _)|]; eauto.
  - destruct (for_each_Ok_all _ _ _ Hrun var Hvar) as (ng1 & ng2 & Hrun1).
    assert (Hself : In var (set_iter (dd_get up var))).
    { apply set_iter_In. apply Hup. apply unit_reach_refl; assumption. }
    destruct (for_each_Ok_all _ _ _ Hrun1 var Hself) as (ng3 & ng4 & Hrun2).
    unfold dict_getitem in Hrun2.
    rewrite (In_dict_get _ _ _ g_keys Hin) in Hrun2. cbn [bind] in Hrun2.
    destruct (for_each_Ok_all _ _ _ Hrun2 [] Hnil) as (ng5 & ng6 & Hrun3).
    discriminate.
Qed.

End UnitClosure.

(** [eliminate_unit_productions] on a dictionary: it returns the grammar
    of the non-unit productions reached when no production is empty,
    and raises [IndexError] otherwise. *)
Lemma eliminate_unit_productions_spec `{PySetOrder} (self : CFGtoCNF) :
  NoDup (keys (grammar self)) ->
  (no_empty_production (grammar self) ->
   exists ng,
     eliminate_unit_productions self = Ok (with_grammar self ng) /\
     NoDup (keys ng) /\ incl (keys ng) (keys (grammar self)) /\
     (forall var, NoDup (dd_get ng var)) /\
     forall var p,
       In p (dd_get ng var) <->
       exists B, unit_reach (grammar self) var B /\
                 In p (dd_get (grammar self) B) /\
                 non_unit (grammar self) p) /\
  ((exists var ps, In (var, ps) (grammar self) /\ In [] ps) ->
   eliminate_unit_productions self = Raise IndexError).
Proof.
  intros Hnd. unfold eliminate_unit_productions.
  destruct (@unit_closure_terminates _ (grammar self) Hnd)
    as (up & Hrun & Hok & Hup).
  rewrite Hrun. cbn [bind]. split.
  - intros Hne.
    destruct (@build_unit_free_ok _ (grammar self) up Hok Hup Hne)
      as (ng & Hng & Hrest).
    exists ng. rewrite Hng. cbn [bind]. split; [reflexivity|exact Hrest].
  - intros Hex.
    rewrite (@build_unit_free_raises _ (grammar self) Hnd up Hok Hup Hex).
    reflexivity.
Qed.

(** C7. When [eliminate_unit_productions] returns, no variable of the
    new grammar has a production made of a single symbol that is a
    variable of the grammar (the one before the pass, and so the one
    after it), and no list of productions holds the same body twice. *)
Theorem eliminate_unit_productions_no_unit `{PySetOrder} (self self' : CFGtoCNF) :
  eliminate_unit_productions self = Ok self' ->
  forall var ps,
    In (var, ps) (grammar self') ->
    NoDup ps /\
    forall B, In [B] ps ->
              ~ In B (keys (grammar self)) /\ ~ In B (keys (grammar self')).
Proof.
  unfold eliminate_unit_productions. intros Hrun.
  destruct (unit_closure (grammar self)) as [up| |]; try discriminate.
  cbn [bind] in Hrun.
  destruct (build_unit_free (grammar self) up) as [ng| |] eqn:Hng;
    try discriminate.
  cbn [bind] in Hrun. injection Hrun as <-. simpl.
  set (g := grammar self) in *.
  set (P := fun ng : rules_t =>
              incl (keys ng) (keys g) /\
              forall var ps, In (var, ps) ng ->
                NoDup ps /\ forall B, In [B] ps -> ~ In B (keys g)).
  assert (HP : P ng).
  { unfold build_unit_free in Hng. revert Hng.
    apply for_each_partial with (P := P);
      [|split; [intros a []|intros ? ? []]].
    intros var ng1 ng2 Hvar Hng1.
    apply for_each_partial with (P := P); [|exact Hng1].
    intros B ng3 ng4 _ Hng3 Hrun.
    destruct (dict_getitem g B) as [prods| |]; try discriminate.
    cbn [bind] in Hrun. revert Hrun.
    apply for_each_partial with (P := P); [|exact Hng3].
    intros prod ng5 ng6 _ [Hincl Hsets] Hrun.
    destruct (not_unit g prod) as [keep| |] eqn:Ekeep; try discriminate.
    cbn [bind] in Hrun.
    destruct keep; [|injection Hrun as <-; split; assumption].
    destruct (mem prod (dd_get ng5 var)) eqn:Emem; cbn [negb] in Hrun;
      injection Hrun as <-; [split; assumption|].
    apply mem_not_In in Emem. split.
    - intros k Hk. apply In_keys_dd_append in Hk as [Hk| ->]; auto.
    - intros v ps Hin. apply In_dict_set in Hin as [[-> ->]|Hin]; [|eauto].
      assert (Hold : NoDup (dd_get ng5 var) /\
                     forall B, In [B] (dd_get ng5 var) -> ~ In B (keys g)).
      { unfold dd_get. destruct (dict_get ng5 var) as [l|] eqn:E.
        - apply dict_get_Some_In in E. eauto.
        - split; [constructor|intros ? []]. }
      destruct Hold as [Hnd Hunit]. split.
      + apply NoDup_app; [assumption|repeat constructor; auto using in_nil|].
        intros a Ha [<-|[]]. exact (Emem Ha).
      + intros B' HB'. apply in_app_or in HB' as [HB'|[E|[]]]; [auto|].
        subst prod. unfold not_unit in Ekeep. simpl in Ekeep.
        injection Ekeep as Ekeep. apply negb_true_iff in Ekeep.
        apply dict_mem_not_In; exact Ekeep. }
  destruct HP as [Hincl Hsets].
  intros var ps Hin. destruct (Hsets var ps Hin) as [Hnd Hunit].
  split; [exact Hnd|]. intros B HB. split; [auto|].
  intros HBk. apply (Hunit B HB). apply Hincl; exact HBk.
Qed.

Lemma eliminate_unit_productions_no_unit_witness :
  let self := eliminate_start_symbol (CFGtoCNF_init demo_grammar) in
  exists self',
    @eliminate_unit_productions insertion_order self = Ok self' /\
    forall var ps,
      In (var, ps) (grammar self') ->
      NoDup ps /\
      forall B, In [B] ps ->
                ~ In B (keys (grammar self)) /\ ~ In B (keys (grammar self')).
Proof.
  eexists. split; [vm_compute; reflexivity|].
  apply (@eliminate_unit_productions_no_unit insertion_order).
  vm_compute; reflexivity.
Defined.

(* ================================================================= *)
(** * Pass 1 and the whole conversion *)

Lemma eliminate_start_symbol_spec (G : cfg) :
  let self := eliminate_start_symbol (CFGtoCNF_init G) in
  NoDup (keys (grammar self)) /\
  (forall var ps,
      In (var, ps) (grammar self) ->
      (var = "S0" /\ ps = [[start G]]) \/
      exists prods, In (var, prods) (rules G) /\ ps = map split prods) /\
  start_symbol self = "S0" /\ new_var_counter self = 0 /\ issued self = [] /\
  original_grammar self = G.
Proof.
  cbv zeta. unfold eliminate_start_symbol. simpl.
  split; [|split; [|auto]].
  - apply fold_left_invariant.
    + intros g [var prods] _ Hg. apply NoDup_keys_dict_set; assumption.
    + repeat constructor. intros [].
  - apply (@fold_left_invariant _ _ _
             (fun g : rules_t =>
                forall var ps, In (var, ps) g ->
                  (var = "S0" /\ ps = [[start G]]) \/
                  exists prods, In (var, prods) (rules G) /\
                                ps = map split prods)).
    + intros g [var prods] Hin Hg v ps Hv.
      apply In_dict_set in Hv as [[-> ->]|Hv]; eauto.
    + intros var ps [E|[]]. injection E as <- <-. auto.
Qed.

Lemma no_blank_rule_no_empty (G : cfg) :
  no_blank_rule G ->
  no_empty_production (grammar (eliminate_start_symbol (CFGtoCNF_init G))).
Proof.
  intros HG var ps Hin Hnil.
  destruct (eliminate_start_symbol_spec G) as (_ & Hg1 & _).
  destruct (Hg1 var ps Hin) as [[_ ->]|(prods & Hprods & ->)].
  - destruct Hnil as [E|[]]. discriminate.
  - apply in_map_iff in Hnil as (p & Hp & Hpin).
    exact (HG var prods p Hprods Hpin Hp).
Qed.

Lemma epsilon_unchanged (self : CFGtoCNF) :
  no_empty_production (grammar self) ->
  eliminate_epsilon_productions self = Ok self.
Proof.
  intros Hg. unfold eliminate_epsilon_productions. simpl.
  rewrite (nullable_pass_nil Hg). reflexivity.
Qed.

(** [convert] returns when no rule string is blank. *)
Lemma convert_Ok `{PySetOrder} (G : cfg) :
  no_blank_rule G ->
  exists ng,
    let self1 := eliminate_start_symbol (CFGtoCNF_init G) in
    eliminate_unit_productions self1 = Ok (with_grammar self1 ng) /\
    convert (CFGtoCNF_init G) =
    let self := break_long_productions
                  (convert_terminals (with_grammar self1 ng)) in
    Ok ({| cnf_start := start_symbol self; cnf_rules := grammar self |}, self).
Proof.
  intros HG. cbv zeta. unfold convert.
  pose proof (no_blank_rule_no_empty HG) as Hne.
  destruct (eliminate_start_symbol_spec G) as (Hnd & _).
  rewrite (epsilon_unchanged _ Hne). cbn [bind].
  destruct (eliminate_unit_productions_spec _ Hnd) as [Hok _].
  destruct (Hok Hne) as (ng & Hrun & _).
  exists ng. split; [exact Hrun|]. rewrite Hrun. reflexivity.
Qed.

(** [convert] raises [IndexError] when a production is empty. *)
Lemma convert_Raise `{PySetOrder} (G : cfg) :
  (exists var ps,
      In (var, ps) (grammar (eliminate_start_symbol (CFGtoCNF_init G))) /\
      In [] ps) ->
  convert (CFGtoCNF_init G) = Raise IndexError.
Proof.
  intros (var & ps & Hin & Hnil). unfold convert.
  destruct (eliminate_start_symbol_spec G) as (Hnd & _).
  destruct (eliminate_epsilon_productions_total _ Hnd)
    as (self2 & Hrun & Hnd2 & Hkeep & _).
  rewrite Hrun. cbn [bind].
  destruct (eliminate_unit_productions_spec self2 Hnd2) as [_ Hraise].
  rewrite Hraise; [reflexivity|].
  assert (H2 : In [] (dd_get (grammar self2) var)).
  { apply Hkeep. rewrite (@dd_get_item _ _ _ _ Hnd Hin). exact Hnil. }
  exists var, (dd_get (grammar self2) var). split; [|exact H2].
  unfold dd_get in *. destruct (dict_get (grammar self2) var) eqn:E;
    [apply dict_get_Some_In; exact E|destruct H2].
Qed.

(** C3 (as stated, refuted). The grammar with start symbol [T] and the
    single rule [S -> A b] defines neither [T] nor [A], and [convert]
    returns a grammar: [T] stays as the body of [S0], [A] stays in the
    body of [S]. *)
Lemma convert_undefined_counterexample :
  ~ In (start undefined_grammar) (keys (rules undefined_grammar)) /\
  ~ In "A" (keys (rules undefined_grammar)) /\
  @normalize insertion_order undefined_grammar =
  Ok {| cnf_start := "S0";
        cnf_rules := [("S0", [["T"]]); ("X1", [["b"]]); ("S", [["A"; "X1"]])] |}.
Proof.
  split; [|split; [|reflexivity]]; simpl; intros [E|[]]; discriminate.
Qed.

(** C3 (as amended). [convert] checks no symbol: on every grammar none
    of whose rule strings is blank it returns a grammar, whether or not
    the start symbol and the symbols of the bodies have an entry. *)
Theorem convert_returns `{PySetOrder} (G : cfg) :
  no_blank_rule G -> exists g, normalize G = Ok g.
Proof.
  intros HG. unfold normalize.
  destruct (convert_Ok HG) as (ng & _ & Hrun). cbv zeta in Hrun.
  rewrite Hrun. cbn [bind]. eexists; reflexivity.
Qed.

Lemma convert_returns_witness :
  no_blank_rule undefined_grammar /\
  exists g, @normalize insertion_order undefined_grammar = Ok g.
Proof.
  assert (HG : no_blank_rule undefined_grammar).
  { intros var prods p [E|[]] Hp. injection E as <- <-.
    destruct Hp as [<-|[]]. discriminate. }
  split; [exact HG|].
  apply (@convert_returns insertion_order undefined_grammar HG).
Defined.

(* ================================================================= *)
(** * Generated names *)

Lemma to_uint_nonnil (n : nat) : Nat.to_uint n <> Decimal.Nil.
Proof.
  intros E. pose proof (Unsigned.of_to n) as Hn. rewrite E in Hn.
  simpl in Hn. subst n. discriminate.
Qed.

Lemma format_X_inj (a b : nat) : format_X a = format_X b -> a = b.
Proof.
  unfold format_X. intros E. injection E as E.
  apply (f_equal NilZero.uint_of_string) in E.
  rewrite !NilZero.usu in E by apply to_uint_nonnil.
  injection E as E. apply Unsigned.to_uint_inj; exact E.
Qed.

Lemma islower_format_X (n : nat) : islower (format_X n) = false.
Proof.
  unfold islower, format_X.
  set (tail := NilZero.string_of_uint (Nat.to_uint n)).
  change (str_exists is_upper_char (String "X" tail)) with true.
  apply andb_false_r.
Qed.

Lemma is_terminal_format_X (n : nat) : is_terminal (format_X n) = false.
Proof.
  unfold is_terminal. rewrite islower_format_X. reflexivity.
Qed.

Arguments get_new_variable : simpl never.

Lemma get_new_variable_spec (self : CFGtoCNF) :
  fst (get_new_variable self) = format_X (S (new_var_counter self)) /\
  new_var_counter (snd (get_new_variable self)) = S (new_var_counter self) /\
  grammar (snd (get_new_variable self)) = grammar self /\
  start_symbol (snd (get_new_variable self)) = start_symbol self /\
  (log_ok self -> log_ok (snd (get_new_variable self))).
Proof.
  unfold get_new_variable, log_ok. simpl.
  rewrite Nat.add_1_r. repeat split; auto.
  intros ->. rewrite seq_S, map_app. reflexivity.
Qed.

Section KeptBySelf.
Variable kept : CFGtoCNF -> Prop.
Hypothesis kept_new : forall self, kept self -> kept (snd (get_new_variable self)).
Hypothesis kept_grammar : forall self g, kept self -> kept (with_grammar self g).

Lemma convert_symbol_keeps st symbol :
  kept (snd (fst st)) -> kept (snd (fst (convert_symbol st symbol))).
Proof.
  destruct st as [[[ng tv] self] new_prod]. unfold convert_symbol.
  cbn [fst snd]. intros Hlog. destruct (is_terminal symbol); [|assumption].
  destruct (dict_get tv symbol); [assumption|].
  pose proof (@kept_new self) as Hl.
  destruct (get_new_variable self) as [X self']. cbn [fst snd] in *. auto.
Qed.

Lemma convert_terminals_keeps (self : CFGtoCNF) :
  kept self -> kept (convert_terminals self).
Proof.
  intros Hlog. unfold convert_terminals, convert_terminals_loop.
  match goal with
  | |- context [fold_left ?f ?l ?init] =>
      assert (HP : kept (snd (fold_left f l init)))
  end.
  { apply (@fold_left_invariant _ _ _
             (fun st : rules_t * dict string string * CFGtoCNF => kept (snd st)));
      [|exact Hlog].
    intros st [var ps] _ Hst.
    apply (@fold_left_invariant _ _ _
             (fun st : rules_t * dict string string * CFGtoCNF => kept (snd st)));
      [|exact Hst].
    intros [[ng tv] self1] prod _ Hst1. unfold convert_production.
    destruct (length prod =? 1); [exact Hst1|].
    match goal with
    | |- context [fold_left ?f ?l ?init] =>
        assert (HP : kept (snd (fst (fold_left f l init))))
    end.
    { apply (@fold_left_invariant _ _ _
               (fun st : rules_t * dict string string * CFGtoCNF * production =>
                  kept (snd (fst st)))); [|exact Hst1].
      intros st2 s _. apply convert_symbol_keeps. }
    destruct (fold_left convert_symbol prod _) as [[[? ?] ?] ?]. exact HP. }
  destruct (fold_left _ _ _) as [[? ?] ?]. apply kept_grammar. exact HP.
Qed.

Lemma break_production_keeps var st prod :
  kept (snd st) -> kept (snd (break_production var st prod)).
Proof.
  destruct st as [ng self]. unfold break_production. cbn [fst snd].
  intros Hlog.
  destruct (length prod <=? 2); [exact Hlog|].
  match goal with
  | |- context [fold_left ?f ?l ?init] =>
      assert (HP : kept (snd (fst (fold_left f l init))))
  end.
  { apply (@fold_left_invariant _ _ _
             (fun st : rules_t * CFGtoCNF * string => kept (snd (fst st))));
      [|exact Hlog].
    intros [[ng1 self1] cur] i _ Hst. cbn [fst snd] in Hst.
    pose proof (@kept_new self1) as Hl.
    destruct (get_new_variable self1) as [X self2]. cbn [fst snd] in *. auto. }
  destruct (fold_left _ _ _) as [[? ?] ?]. exact HP.
Qed.

Lemma break_long_productions_keeps (self : CFGtoCNF) :
  kept self -> kept (break_long_productions self).
Proof.
  intros Hlog. unfold break_long_productions, break_long_productions_loop.
  match goal with
  | |- context [fold_left ?f ?l ?init] =>
      assert (HP : kept (snd (fold_left f l init)))
  end.
  { apply (@fold_left_invariant _ _ _
             (fun st : rules_t * CFGtoCNF => kept (snd st))); [|exact Hlog].
    intros st [var ps] _ Hst.
    apply (@fold_left_invariant _ _ _
             (fun st : rules_t * CFGtoCNF => kept (snd st))); [|exact Hst].
    intros st1 prod _. apply break_production_keeps. }
  destruct (fold_left _ _ _) as [? ?]. apply kept_grammar. exact HP.
Qed.

End KeptBySelf.



Lemma convert_terminals_start (self : CFGtoCNF) :
  start_symbol (convert_terminals self) = start_symbol self.
Proof.
  apply (@convert_terminals_keeps (fun s => start_symbol s = start_symbol self));
    [| |reflexivity].
  - intros s Hs. rewrite <- Hs. apply get_new_variable_spec.
  - intros s g Hs. exact Hs.
Qed.

Lemma break_long_productions_start (self : CFGtoCNF) :
  start_symbol (break_long_productions self) = start_symbol self.
Proof.
  apply (@break_long_productions_keeps
           (fun s => start_symbol s = start_symbol self)); [| |reflexivity].
  - intros s Hs. rewrite <- Hs. apply get_new_variable_spec.
  - intros s g Hs. exact Hs.
Qed.







(* ================================================================= *)
(** * Passes 4 and 5: the shape of the productions *)

Lemma fold_left_flat {St} (f : string -> St -> production -> St)
  (g : rules_t) (st : St) :
  fold_left (fun st '(var, productions) => fold_left (f var) productions st) g st
  = fold_left (fun st vp => f (fst vp) st (snd vp)) (flat g) st.
Proof.
  unfold flat. revert st. induction g as [|[var ps] g IH]; intros st; simpl;
    [reflexivity|].
  rewrite fold_left_app, <- IH. f_equal.
  clear. revert st. induction ps as [|p ps IH]; intros st; simpl; auto.
Qed.

Lemma In_flat (g : rules_t) A p :
  In (A, p) (flat g) <-> exists ps, In (A, ps) g /\ In p ps.
Proof.
  unfold flat. rewrite in_flat_map. split.
  - intros ([var ps] & Hin & Hp). simpl in Hp.
    apply in_map_iff in Hp as (q & E & Hq). injection E as -> ->. eauto.
  - intros (ps & Hin & Hp). exists (A, ps). split; [assumption|].
    simpl. apply in_map; assumption.
Qed.

Lemma In_flat_dd_get (g : rules_t) A p :
  NoDup (keys g) -> In (A, p) (flat g) -> In p (dd_get g A).
Proof.
  intros Hnd Hin. apply In_flat in Hin as (ps & Hin & Hp).
  rewrite (@dd_get_item _ _ _ _ Hnd Hin). exact Hp.
Qed.

Lemma dd_get_In_flat (g : rules_t) A p :
  In p (dd_get g A) -> In (A, p) (flat g).
Proof.
  unfold dd_get. destruct (dict_get g A) as [ps|] eqn:E; [|intros []].
  intros Hp. apply In_flat. exists ps. split; [|assumption].
  apply dict_get_Some_In; exact E.
Qed.

Lemma is_terminal_islower (s : string) : is_terminal s = islower s.
Proof.
  unfold is_terminal. destruct (islower s) eqn:E; [reflexivity|].
  simpl. destruct (String.eqb_spec s "a") as [->|_]; [discriminate|].
  destruct (String.eqb_spec s "the") as [->|_]; [discriminate|reflexivity].
Qed.





Section TerminalsShape.
Variable K : list string.





End TerminalsShape.

Section BreakShape.
Variable E : list string.

Local Abbreviation extra := (fun s : string => In s E).



End BreakShape.

(* ================================================================= *)
(** * The grammar returned by [convert] *)

Lemma keys_fold_dict_set {V W} (f : W -> V) (l : list (string * W))
  (d : dict string V) k :
  In k (keys (fold_left (fun g '(var, x) => dict_set g var (f x)) l d)) <->
  In k (keys d) \/ In k (map fst l).
Proof.
  revert d. induction l as [|[var x] l IH]; intros d; simpl; [tauto|].
  rewrite IH, In_keys_dict_set. intuition.
Qed.

Lemma eliminate_start_symbol_keys (G : cfg) k :
  In k (keys (grammar (eliminate_start_symbol (CFGtoCNF_init G)))) <->
  k = "S0" \/ In k (keys (rules G)).
Proof.
  unfold eliminate_start_symbol. simpl.
  rewrite (keys_fold_dict_set (map split)). simpl. unfold keys. intuition.
Qed.

(** What a run of [convert] that returns went through: no production
    was empty, pass 2 changed nothing, pass 3 gave the grammar [g3] of
    the non-unit productions reached, and passes 4 and 5 ran on it. *)
Lemma convert_inversion `{PySetOrder} (G : cfg) (g : cnf) :
  normalize G = Ok g ->
  let self1 := eliminate_start_symbol (CFGtoCNF_init G) in
  no_empty_production (grammar self1) /\
  exists g3,
    NoDup (keys g3) /\ incl (keys g3) (keys (grammar self1)) /\
    (forall var, NoDup (dd_get g3 var)) /\
    (forall var p,
        In p (dd_get g3 var) <->
        exists B, unit_reach (grammar self1) var B /\
                  In p (dd_get (grammar self1) B) /\
                  non_unit (grammar self1) p) /\
    cnf_start g = "S0" /\
    cnf_rules g =
    grammar (break_long_productions (convert_terminals (with_grammar self1 g3))).
Proof.
  intros Hrun. cbv zeta.
  set (self1 := eliminate_start_symbol (CFGtoCNF_init G)).
  assert (Hne : no_empty_production (grammar self1)).
  { intros var ps Hin Hnil. unfold normalize in Hrun.
    rewrite (@convert_Raise _ G) in Hrun; [discriminate|].
    exists var, ps. auto. }
  split; [exact Hne|].
  destruct (eliminate_start_symbol_spec G) as (Hnd & _ & Hstart & _).
  fold self1 in Hnd, Hstart.
  destruct (eliminate_unit_productions_spec self1 Hnd) as [Hok _].
  destruct (Hok Hne) as (g3 & Hunit & H1 & H2 & H3 & H4).
  exists g3. repeat (split; [assumption|]).
  unfold normalize, convert in Hrun. fold self1 in Hrun.
  rewrite (epsilon_unchanged _ Hne) in Hrun. cbn [bind] in Hrun.
  rewrite Hunit in Hrun. cbn [bind] in Hrun. injection Hrun as <-.
  cbn [cnf_start cnf_rules]. split; [|reflexivity].
  rewrite break_long_productions_start, convert_terminals_start.
  exact Hstart.
Qed.

Lemma dd_get_In_item {V} (d : dict string (list V)) k x :
  In x (dd_get d k) -> In (k, dd_get d k) d.
Proof.
  unfold dd_get. destruct (dict_get d k) as [l|] eqn:E; [|intros []].
  intros _. apply dict_get_Some_In; exact E.
Qed.





(* ================================================================= *)
(** * The language is kept by the passes *)

Section UnitLanguage.
Variables (g1 g3 : rules_t) (words : list string).
Hypothesis g3_spec :
  forall var p,
    In p (dd_get g3 var) <->
    exists B, unit_reach g1 var B /\ In p (dd_get g1 B) /\ non_unit g1 p.

Lemma unit_reach_trans A B C :
  unit_reach g1 A B -> unit_reach g1 B C -> unit_reach g1 A C.
Proof.
  induction 1 as [A HA|A B' B HB' HB'k _ IH]; [auto|].
  intros HBC. eapply unit_reach_step; eauto.
Qed.

Lemma sgen_unit_lift A B i len :
  unit_reach g1 A B ->
  sgen (key_of g1) g1 words B i len -> sgen (key_of g1) g1 words A i len.
Proof.
  induction 1 as [A HA|A B' B HB' HB'k _ IH]; [auto|].
  intros HB. eapply sgen_unit; eauto.
Qed.

Lemma unit_language_sound :
  (forall A i len,
      sgen no_unit g3 words A i len -> sgen (key_of g1) g1 words A i len) /\
  (forall body i len,
      sgens no_unit g3 words body i len ->
      sgens (key_of g1) g1 words body i len).
Proof.
  apply sgen_sgens_ind.
  - intros A B i len _ [].
  - intros A t i Hin _ Ht.
    apply g3_spec in Hin as (B & HB & Hp & Hnu).
    apply sgen_unit_lift with (B := B); [assumption|].
    apply sgen_word with (t := t); [assumption| |assumption].
    destruct Hnu as [Hlen|(s & E & Hs)]; [simpl in Hlen; lia|].
    injection E as <-. exact Hs.
  - intros A body i len Hin Hlen _ IH.
    apply g3_spec in Hin as (B & HB & Hp & Hnu).
    apply sgen_unit_lift with (B := B); [assumption|].
    apply sgen_long with (body := body); assumption.
  - constructor.
  - intros s body i len Hs Hw _ IH. apply sgens_terminal; assumption.
  - intros s body i l1 l2 Hs _ IH1 _ IH2. apply sgens_variable; assumption.
Qed.

Lemma sgen_transfer A B i len :
  (forall p, In p (dd_get g3 B) -> In p (dd_get g3 A)) ->
  sgen no_unit g3 words B i len -> sgen no_unit g3 words A i len.
Proof.
  intros Hsub HB.
  destruct HB as [B B' i len _ [] _|B t i Hin Hu Ht|B body i len Hin Hlen Hb].
  - apply sgen_word with (t := t); auto.
  - apply sgen_long with (body := body); auto.
Qed.

Lemma unit_language_complete :
  (forall A i len,
      sgen (key_of g1) g1 words A i len -> sgen no_unit g3 words A i len) /\
  (forall body i len,
      sgens (key_of g1) g1 words body i len ->
      sgens no_unit g3 words body i len).
Proof.
  apply sgen_sgens_ind.
  - intros A B i len Hin HB _ IH.
    apply sgen_transfer with (B := B); [|exact IH].
    intros p Hp. apply g3_spec in Hp as (C & HC & HpC & Hnu).
    apply g3_spec. exists C. split; [|auto].
    eapply unit_reach_step; eauto.
  - intros A t i Hin Hu Ht.
    apply sgen_word with (t := t); [|intros []|assumption].
    apply g3_spec. exists A. split; [|split; [assumption|]].
    + apply unit_reach_refl. eapply dd_get_In_keys; eauto.
    + right. exists t. auto.
  - intros A body i len Hin Hlen _ IH.
    apply sgen_long with (body := body); [|assumption|assumption].
    apply g3_spec. exists A. split; [|split; [assumption|]].
    + apply unit_reach_refl. eapply dd_get_In_keys; eauto.
    + left. lia.
  - constructor.
  - intros s body i len Hs Hw _ IH. apply sgens_terminal; assumption.
  - intros s body i l1 l2 Hs _ IH1 _ IH2. apply sgens_variable; assumption.
Qed.

End UnitLanguage.

Section ChomskySpans.
Variables (g : rules_t) (words : list string).
Hypothesis g_keys : NoDup (keys g).
Hypothesis g_chomsky : chomsky g.

Lemma has_prod_dd_get A p : has_prod g A p <-> In p (dd_get g A).
Proof.
  split.
  - intros (ps & Hin & Hp). rewrite (@dd_get_item _ _ _ _ g_keys Hin). exact Hp.
  - intros Hp. exists (dd_get g A). split; [|exact Hp].
    eapply dd_get_In_item; eauto.
Qed.

Lemma span_sgen A i len :
  span g words A i len -> sgen no_unit g words A i len.
Proof.
  induction 1 as [A i t Ht Hp|A B C i l1 l2 Hp _ IH1 _ IH2].
  - apply sgen_word with (t := t); [apply has_prod_dd_get; assumption| |assumption].
    intros [].
  - apply has_prod_dd_get in Hp.
    destruct (g_chomsky _ _ Hp) as [Hlen|(B' & C' & E & HB & HC)];
      [discriminate|].
    injection E as <- <-.
    apply sgen_long with (body := [B; C]); [assumption|simpl; lia|].
    apply sgens_variable; [assumption|assumption|].
    rewrite <- (Nat.add_0_r l2).
    apply sgens_variable; [assumption|assumption|]. constructor.
Qed.

Lemma sgen_span :
  (forall A i len, sgen no_unit g words A i len -> span g words A i len) /\
  (forall body i len,
      sgens no_unit g words body i len ->
      (forall s, In s body -> is_terminal s = false) ->
      spans g words body i len).
Proof.
  apply sgen_sgens_ind.
  - intros A B i len _ [].
  - intros A t i Hin _ Ht.
    apply span_word with (t := t); [assumption|].
    apply has_prod_dd_get; assumption.
  - intros A body i len Hin Hlen _ IH.
    destruct (g_chomsky _ _ Hin) as [Hlen1|(B & C & -> & HB & HC)]; [lia|].
    assert (Hs : spans g words [B; C] i len).
    { apply IH. intros s [<-|[<-|[]]]; assumption. }
    inversion Hs as [|s1 b1 i1 l1 l2 HsB HsC]; subst.
    inversion HsC as [|s2 b2 i2 l3 l4 HsC' Hnil]; subst.
    inversion Hnil; subst. rewrite Nat.add_0_r.
    apply span_split with (B := B) (C := C);
      [apply has_prod_dd_get; assumption|assumption|assumption].
  - intros i _. constructor.
  - intros s body i len Hs _ _ _ Hall.
    rewrite (Hall s (or_introl eq_refl)) in Hs. discriminate.
  - intros s body i l1 l2 Hs _ IH1 _ IH2 Hall.
    apply spans_cons; [exact IH1|]. apply IH2.
    intros s' Hs'. apply Hall. right; exact Hs'.
Qed.

End ChomskySpans.

Lemma subst_terminal_extends tv tv' s :
  dict_extends tv tv' ->
  (is_terminal s = true -> dict_get tv s <> None) ->
  subst_terminal tv' s = subst_terminal tv s.
Proof.
  intros Hext Hdom. unfold subst_terminal.
  destruct (is_terminal s); [|reflexivity].
  destruct (dict_get tv s) as [X|] eqn:E; [|exfalso; apply Hdom; auto].
  rewrite (Hext s X E). reflexivity.
Qed.

Lemma converted_extends tv tv' q :
  dict_extends tv tv' ->
  (length q <> 1 ->
   forall s, In s q -> is_terminal s = true -> dict_get tv s <> None) ->
  converted tv' q = converted tv q.
Proof.
  intros Hext Hdom. unfold converted.
  destruct (Nat.eqb_spec (length q) 1) as [E|E]; [reflexivity|].
  apply map_ext_in. intros s Hs. apply subst_terminal_extends; auto.
Qed.

Section TerminalsExact.
Variables (c0 : nat) (done : list (string * production)).
Hypothesis done_fresh :
  forall k A q, c0 < k -> In (A, q) done -> A <> format_X k.

Lemma convert_symbol_exact ng tv self new_prod symbol :
  terminals_exact c0 done (ng, tv, self) ->
  exists ng' tv' self',
    convert_symbol (ng, tv, self, new_prod) symbol
    = (ng', tv', self', new_prod ++ [subst_terminal tv' symbol]) /\
    terminals_exact c0 done (ng', tv', self') /\
    dict_extends tv tv' /\
    (is_terminal symbol = true -> dict_get tv' symbol <> None).
Proof.
  intros (Ha & Hb & Hc & Hd & He & Hf). cbn [fst snd] in *.
  unfold convert_symbol, subst_terminal.
  destruct (is_terminal symbol) eqn:Et.
  - destruct (dict_get tv symbol) as [X|] eqn:EX.
    + exists ng, tv, self. rewrite EX. split; [reflexivity|].
      split; [exact (conj Ha (conj Hb (conj Hc (conj Hd (conj He Hf)))))|]. split; [intros t Y Ht; exact Ht|].
      intros _. congruence.
    + destruct (get_new_variable_spec self) as (HX & Hcount & _).
      destruct (get_new_variable self) as [X self'] eqn:EG.
      cbn [fst snd] in HX, Hcount.
      assert (Hext : dict_extends tv (dict_set tv symbol X)).
      { intros t Y Ht. rewrite dict_get_set. case_key t symbol E; [|exact Ht].
        subst t. congruence. }
      assert (Hnew : forall t, dict_get tv t <> Some X).
      { intros t Ht. destruct (Ha t X Ht) as (_ & k & Hk & Ek).
        rewrite HX in Ek. apply format_X_inj in Ek. lia. }
      exists (dict_set ng X [[symbol]]), (dict_set tv symbol X), self'.
      rewrite dict_get_set_eq. split; [reflexivity|].
      split; [|split; [exact Hext|]].
      * unfold terminals_exact. cbn [fst snd]. split; [|split; [|split; [|split; [|split]]]].
        -- intros t Y. rewrite dict_get_set. case_key t symbol E.
           ++ intros EY. injection EY as <-. subst t. split; [assumption|].
              exists (S (new_var_counter self)). split; [lia|assumption].
           ++ intros Ht. destruct (Ha t Y Ht) as (Ht1 & k & Hk & Ek).
              split; [assumption|]. exists k. split; [lia|assumption].
        -- intros t1 t2 Y. rewrite !dict_get_set.
           case_key t1 symbol E1; case_key t2 symbol E2; intros H1 H2;
             subst; try reflexivity.
           ++ injection H1 as <-. exfalso. exact (Hnew _ H2).
           ++ injection H2 as <-. exfalso. exact (Hnew _ H1).
           ++ eauto.
        -- intros A p. rewrite dd_get_set. case_key A X EA.
           ++ subst A. split.
              ** intros [<-|[]]. right. exists symbol.
                 rewrite dict_get_set_eq. auto.
              ** intros [(q & Hq & _)|(t & Ht & ->)].
                 --- exfalso.
                     apply (@done_fresh (S (new_var_counter self)) X q);
                       [lia|assumption|assumption].
                 --- rewrite dict_get_set in Ht. case_key t symbol E.
                     +++ subst t. left; reflexivity.
                     +++ exfalso. exact (Hnew _ Ht).
           ++ rewrite Hc. split.
              ** intros [(q & Hq & ->)|(t & Ht & ->)].
                 --- left. exists q. split; [assumption|]. symmetry.
                     apply converted_extends; [assumption|]. intros Hlen s.
                     apply (Hd A q s Hq Hlen).
                 --- right. exists t. split; [|reflexivity]. apply Hext; exact Ht.
              ** intros [(q & Hq & ->)|(t & Ht & ->)].
                 --- left. exists q. split; [assumption|].
                     apply converted_extends; [assumption|]. intros Hlen s.
                     apply (Hd A q s Hq Hlen).
                 --- right. exists t. split; [|reflexivity].
                     rewrite dict_get_set in Ht. case_key t symbol E; [|exact Ht].
                     injection Ht as Ht. congruence.
        -- intros A q s Hq Hlen Hs Hst Hnone.
           apply (Hd A q s Hq Hlen Hs Hst).
           destruct (dict_get tv s) as [Y|] eqn:EY; [|reflexivity].
           rewrite (Hext s Y EY) in Hnone. discriminate.
        -- apply NoDup_keys_dict_set; assumption.
        -- lia.
      * intros _. discriminate.
  - exists ng, tv, self. split; [reflexivity|].
    split; [exact (conj Ha (conj Hb (conj Hc (conj Hd (conj He Hf)))))|]. split; [intros t Y Ht; exact Ht|].
    discriminate.
Qed.

Lemma terminals_exact_counter ng tv self :
  terminals_exact c0 done (ng, tv, self) -> c0 <= new_var_counter self.
Proof. intros (_ & _ & _ & _ & _ & Hf). exact Hf. Qed.

Lemma convert_symbols_exact prod :
  forall ng tv self new_prod,
    terminals_exact c0 done (ng, tv, self) ->
    exists ng' tv' self',
      fold_left convert_symbol prod (ng, tv, self, new_prod)
      = (ng', tv', self', new_prod ++ map (subst_terminal tv') prod) /\
      terminals_exact c0 done (ng', tv', self') /\
      dict_extends tv tv' /\
      (forall s, In s prod -> is_terminal s = true -> dict_get tv' s <> None).
Proof.
  induction prod as [|s prod IH]; intros ng tv self np Hinv; cbn [fold_left].
  - exists ng, tv, self. rewrite app_nil_r. split; [reflexivity|].
    split; [exact Hinv|]. split; [intros t Y Ht; exact Ht|]. intros s [].
  - destruct (@convert_symbol_exact ng tv self np s Hinv)
      as (ng1 & tv1 & self1 & E1 & Hinv1 & Hext1 & Hdom1).
    match goal with
    | |- context [fold_left convert_symbol prod ?t] =>
        replace t with (ng1, tv1, self1, np ++ [subst_terminal tv1 s])
          by (symmetry; exact E1)
    end.
    destruct (IH ng1 tv1 self1 (np ++ [subst_terminal tv1 s]) Hinv1)
      as (ng2 & tv2 & self2 & E2 & Hinv2 & Hext2 & Hdom2).
    exists ng2, tv2, self2. split; [|split; [exact Hinv2|split]].
    + refine (eq_trans E2 _). rewrite <- app_assoc. cbn [map app].
      rewrite (subst_terminal_extends s Hext2 Hdom1). reflexivity.
    + intros t Y Ht. auto.
    + intros s' [<-|Hs'] Hst; [|auto].
      specialize (Hdom1 Hst).
      destruct (dict_get tv1 s) as [Y|] eqn:EY; [|congruence].
      rewrite (Hext2 s Y EY). discriminate.
Qed.

End TerminalsExact.

(** The state of pass 4 after each production. *)
Lemma convert_production_exact c0 done var ng tv self prod :
  (forall k A q, c0 < k -> In (A, q) (done ++ [(var, prod)]) -> A <> format_X k) ->
  terminals_exact c0 done (ng, tv, self) ->
  exists ng' tv' self',
    convert_production var (ng, tv, self) prod = (ng', tv', self') /\
    terminals_exact c0 (done ++ [(var, prod)]) (ng', tv', self').
Proof.
  intros Hfresh Hinv.
  assert (Hfresh0 : forall k A q, c0 < k -> In (A, q) done -> A <> format_X k).
  { intros k A q Hk Hin. apply (Hfresh k A q Hk). apply in_or_app; auto. }
  unfold convert_production.
  destruct (Nat.eqb_spec (length prod) 1) as [Hlen|Hlen].
  - exists (dd_append ng var prod), tv, self. split; [reflexivity|].
    destruct Hinv as (Ha & Hb & Hc & Hd & He & Hf). cbn [fst snd] in *.
    unfold terminals_exact. cbn [fst snd].
    split; [exact Ha|]. split; [exact Hb|]. split; [|split; [|split]].
    + intros A p. rewrite In_dd_get_append, Hc. split.
      * intros [[(q & Hq & E)|Ht]|[-> ->]].
        -- left. exists q. split; [apply in_or_app; auto|exact E].
        -- right. exact Ht.
        -- left. exists prod. split; [apply in_or_app; right; left; reflexivity|].
           unfold converted. rewrite Hlen. reflexivity.
      * intros [(q & Hq & E)|Ht]; [|left; right; exact Ht].
        apply in_app_or in Hq as [Hq|[Hq|[]]].
        -- left. left. exists q. auto.
        -- injection Hq as <- <-. right. split; [reflexivity|].
           rewrite E. unfold converted. rewrite Hlen. reflexivity.
    + intros A q s Hq Hl Hs Hst. apply in_app_or in Hq as [Hq|[Hq|[]]].
      * exact (Hd A q s Hq Hl Hs Hst).
      * injection Hq as <- <-. contradiction.
    + apply NoDup_keys_dd_append; exact He.
    + exact Hf.
  - destruct (@convert_symbols_exact c0 done Hfresh0 prod ng tv self [] Hinv)
      as (ng1 & tv1 & self1 & E1 & Hinv1 & Hext1 & Hdom1).
    exists (dd_append ng1 var (map (subst_terminal tv1) prod)), tv1, self1.
    split.
    { match goal with
      | |- context [fold_left convert_symbol prod ?t] =>
          replace (fold_left convert_symbol prod t)
            with (ng1, tv1, self1, map (subst_terminal tv1) prod)
            by (symmetry; exact E1)
      end. reflexivity. }
    destruct Hinv1 as (Ha & Hb & Hc & Hd & He & Hf). cbn [fst snd] in *.
    unfold terminals_exact. cbn [fst snd].
    assert (Hconv : converted tv1 prod = map (subst_terminal tv1) prod).
    { unfold converted. destruct (Nat.eqb_spec (length prod) 1); [contradiction|].
      reflexivity. }
    split; [exact Ha|]. split; [exact Hb|]. split; [|split; [|split]].
    + intros A p. rewrite In_dd_get_append, Hc. split.
      * intros [[(q & Hq & E)|Ht]|[-> ->]].
        -- left. exists q. split; [apply in_or_app; auto|exact E].
        -- right. exact Ht.
        -- left. exists prod. split; [apply in_or_app; right; left; reflexivity|].
           symmetry; exact Hconv.
      * intros [(q & Hq & E)|Ht]; [|left; right; exact Ht].
        apply in_app_or in Hq as [Hq|[Hq|[]]].
        -- left. left. exists q. auto.
        -- injection Hq as <- <-. right. split; [reflexivity|].
           rewrite E. exact Hconv.
    + intros A q s Hq Hl Hs Hst. apply in_app_or in Hq as [Hq|[Hq|[]]].
      * exact (Hd A q s Hq Hl Hs Hst).
      * injection Hq as <- <-. exact (Hdom1 s Hs Hst).
    + apply NoDup_keys_dd_append; exact He.
    + exact Hf.
Qed.

Lemma convert_terminals_exact (self : CFGtoCNF) :
  (forall k A q, new_var_counter self < k -> In (A, q) (flat (grammar self)) ->
                 A <> format_X k) ->
  exists ng tv self',
    convert_terminals_loop self = (ng, tv, self') /\
    terminals_exact (new_var_counter self) (flat (grammar self)) (ng, tv, self').
Proof.
  intros Hfresh. unfold convert_terminals_loop. rewrite fold_left_flat.
  set (c0 := new_var_counter self).
  match goal with
  | |- context [fold_left ?f ?l ?init] =>
      assert (HP : terminals_exact c0 l (fold_left f l init))
  end.
  { apply (@fold_left_prefix _ _ _
             (fun pre (st : rules_t * dict string string * CFGtoCNF) =>
                terminals_exact c0 pre st)).
    - intros pre [var prod] post [[ng tv] self1] Hl Hst. cbn [fst snd].
      destruct (@convert_production_exact c0 pre var ng tv self1 prod)
        as (ng' & tv' & self' & E & Hinv'); [|exact Hst|].
      + intros k A q Hk Hin. apply (Hfresh k A q Hk).
        rewrite Hl. apply in_app_or in Hin as [Hin|[Hin|[]]].
        * apply in_or_app; auto.
        * apply in_or_app; right; left; exact Hin.
      + match goal with
        | |- context [convert_production ?v ?t ?p] =>
            replace (convert_production v t p) with (ng', tv', self')
              by (symmetry; exact E)
        end.
        exact Hinv'.
    - unfold terminals_exact. cbn [fst snd].
      split; [intros t X Ht; discriminate|].
      split; [intros t1 t2 X Ht; discriminate|].
      split; [|split; [intros A q s []|split; [constructor|lia]]].
      intros A p. split; [intros []|].
      intros [(q & [] & _)|(t & Ht & _)]. discriminate. }
  destruct (fold_left _ _ _) as [[ng tv] self'].
  exists ng, tv, self'. split; [reflexivity|exact HP].
Qed.

(** ** Pass 4 keeps the language *)

Lemma In_flat_key (g : rules_t) A q : In (A, q) (flat g) -> In A (keys g).
Proof.
  intros Hin. apply In_flat in Hin as (ps & Hin & _).
  apply (in_map fst) in Hin. exact Hin.
Qed.

Section TerminalsLanguage.
Variables (c0 : nat) (g3 ng : rules_t) (tv : dict string string)
          (self4 : CFGtoCNF) (words : list string).
Hypothesis g3_keys : NoDup (keys g3).
Hypothesis g3_fresh : fresh_names c0 g3.
Hypothesis pass4 : terminals_exact c0 (flat g3) (ng, tv, self4).

Lemma terminals_language_complete :
  (forall A i len,
      sgen no_unit g3 words A i len -> sgen no_unit ng words A i len) /\
  (forall body i len,
      sgens no_unit g3 words body i len ->
      (forall s, In s body -> is_terminal s = true -> dict_get tv s <> None) ->
      sgens no_unit ng words (map (subst_terminal tv) body) i len).
Proof.
  destruct pass4 as (Ha & Hb & Hc & Hd & He & Hf). cbn [fst snd] in *.
  apply sgen_sgens_ind.
  - intros A B i len _ [].
  - intros A t i Hin _ Ht.
    apply sgen_word with (t := t); [|intros []|exact Ht].
    apply Hc. left. exists [t]. split; [apply dd_get_In_flat; exact Hin|].
    reflexivity.
  - intros A body i len Hin Hlen _ IH.
    apply sgen_long with (body := map (subst_terminal tv) body).
    + apply Hc. left. exists body. split; [apply dd_get_In_flat; exact Hin|].
      unfold converted. destruct (Nat.eqb_spec (length body) 1); [lia|reflexivity].
    + rewrite length_map. exact Hlen.
    + apply IH. intros s Hs Hst.
      apply (Hd A body s); [apply dd_get_In_flat; exact Hin|lia|exact Hs|exact Hst].
  - intros i _. constructor.
  - intros s body i len Hs Hw _ IH Hdom. cbn [map].
    assert (Hsub : exists k, subst_terminal tv s = format_X k /\
                             dict_get tv s = Some (format_X k)).
    { unfold subst_terminal. rewrite Hs.
      destruct (dict_get tv s) as [X|] eqn:EX;
        [|exfalso; apply (Hdom s); simpl; auto].
      destruct (Ha s X EX) as (_ & k & _ & ->). exists k. auto. }
    destruct Hsub as (k & -> & Hk).
    change (S len) with (1 + len).
    apply sgens_variable; [apply is_terminal_format_X| |].
    + apply sgen_word with (t := s); [|intros []|exact Hw].
      apply Hc. right. exists s. auto.
    + replace (i + 1) with (S i) by lia. apply IH.
      intros s' Hs'. apply Hdom. right; exact Hs'.
  - intros s body i l1 l2 Hs _ IH1 _ IH2 Hdom. cbn [map].
    replace (subst_terminal tv s) with s
      by (unfold subst_terminal; rewrite Hs; reflexivity).
    apply sgens_variable; [exact Hs|exact IH1|]. apply IH2.
    intros s' Hs'. apply Hdom. right; exact Hs'.
Qed.

Lemma terminals_language_sound :
  (forall A i len,
      sgen no_unit ng words A i len ->
      ((forall k, c0 < k -> A <> format_X k) -> sgen no_unit g3 words A i len) /\
      (forall t, dict_get tv t = Some A ->
                 len = 1 /\ nth_error words i = Some t)) /\
  (forall body i len,
      sgens no_unit ng words body i len ->
      forall q,
        body = map (subst_terminal tv) q ->
        (forall s k, In s q -> c0 < k -> s <> format_X k) ->
        (forall s, In s q -> is_terminal s = true -> dict_get tv s <> None) ->
        sgens no_unit g3 words q i len).
Proof.
  destruct pass4 as (Ha & Hb & Hc & Hd & He & Hf). cbn [fst snd] in *.
  assert (Hgen : forall A q t, In (A, q) (flat g3) -> dict_get tv t = Some A ->
                               False).
  { intros A q t Hq Ht. destruct (Ha t A Ht) as (_ & k & Hk & Ek).
    apply (proj1 g3_fresh k A q); [lia|exact Hq|exact Ek]. }
  apply sgen_sgens_ind.
  - intros A B i len _ [].
  - intros A t i Hin _ Ht. apply Hc in Hin. split.
    + intros Hng. destruct Hin as [(q & Hq & E)|(t' & Ht' & E)].
      * unfold converted in E. destruct (Nat.eqb_spec (length q) 1) as [El|El].
        -- subst q. apply sgen_word with (t := t); [|intros []|exact Ht].
           apply In_flat_dd_get; assumption.
        -- apply (f_equal (@length string)) in E. rewrite length_map in E.
           simpl in E. lia.
      * destruct (Ha t' A Ht') as (_ & k & Hk & Ek).
        exfalso. apply (Hng k); [lia|exact Ek].
    + intros t0 Ht0. split; [reflexivity|].
      destruct Hin as [(q & Hq & E)|(t' & Ht' & E)].
      * exfalso. exact (Hgen A q t0 Hq Ht0).
      * injection E as ->. rewrite (Hb t0 t' A Ht0 Ht'). exact Ht.
  - intros A body i len Hin Hlen _ IH. apply Hc in Hin. split.
    + intros Hng. destruct Hin as [(q & Hq & E)|(t' & Ht' & E)].
      * assert (Hq' : In q (dd_get g3 A)) by (apply In_flat_dd_get; assumption).
        unfold converted in E. destruct (Nat.eqb_spec (length q) 1) as [El|El].
        -- subst q. lia.
        -- assert (El2 : 2 <= length q).
           { rewrite E, length_map in Hlen. exact Hlen. }
           apply sgen_long with (body := q); [exact Hq'|exact El2|].
           apply (IH q E).
           ++ intros s k Hs Hk. exact (proj2 g3_fresh A q s k Hq El2 Hs Hk).
           ++ intros s Hs Hst. exact (Hd A q s Hq El Hs Hst).
      * subst body. simpl in Hlen. lia.
    + intros t0 Ht0. exfalso.
      destruct Hin as [(q & Hq & E)|(t' & Ht' & E)].
      * exact (Hgen A q t0 Hq Ht0).
      * subst body. simpl in Hlen. lia.
  - intros i q E _ _. destruct q; [constructor|discriminate].
  - intros s body i len Hs Hw _ IH q E Hsym Hdom.
    destruct q as [|s0 q]; [discriminate|]. cbn [map] in E.
    injection E as Es Eb.
    assert (E0 : s = s0).
    { unfold subst_terminal in Es. destruct (is_terminal s0) eqn:E0; [|exact Es].
      destruct (dict_get tv s0) as [X|] eqn:EX; [|exact Es].
      destruct (Ha s0 X EX) as (_ & k & _ & Ek). subst X s.
      rewrite is_terminal_format_X in Hs. discriminate. }
    subst s0. apply sgens_terminal; [exact Hs|exact Hw|].
    apply (IH q Eb).
    + intros s' k Hs'. apply Hsym. right; exact Hs'.
    + intros s' Hs'. apply Hdom. right; exact Hs'.
  - intros s body i l1 l2 Hs _ [IHa IHb] _ IH2 q E Hsym Hdom.
    destruct q as [|s0 q]; [discriminate|]. cbn [map] in E.
    injection E as Es Eb.
    assert (Hrest : sgens no_unit g3 words q (i + l1) l2).
    { apply (IH2 q Eb).
      - intros s' k Hs'. apply Hsym. right; exact Hs'.
      - intros s' Hs'. apply Hdom. right; exact Hs'. }
    unfold subst_terminal in Es. destruct (is_terminal s0) eqn:E0.
    + destruct (dict_get tv s0) as [X|] eqn:EX;
        [|exfalso; apply (Hdom s0); simpl; auto].
      subst s. destruct (IHb s0 EX) as [-> Hw].
      change (1 + l2) with (S l2). apply sgens_terminal; [exact E0|exact Hw|].
      replace (S i) with (i + 1) by lia. exact Hrest.
    + subst s. apply sgens_variable; [exact E0| |exact Hrest].
      apply IHa. intros k Hk. apply (Hsym s0 k); [left; reflexivity|exact Hk].
Qed.

End TerminalsLanguage.

(** ** Pass 5 writes the chains of the productions *)

Lemma chain_short cur c q :
  length q <= 2 -> chain cur c q = [(cur, q)] /\ chain_meanings c q = [].
Proof.
  destruct q as [|a [|b [|d q]]]; simpl; intros Hl; try lia; auto.
Qed.

Lemma chain_long cur c a rest :
  2 <= length rest ->
  chain cur c (a :: rest)
  = (cur, [a; format_X (S c)]) :: chain (format_X (S c)) (S c) rest /\
  chain_meanings c (a :: rest)
  = (format_X (S c), rest) :: chain_meanings (S c) rest.
Proof.
  destruct rest as [|b [|d q]]; simpl; intros Hl; try lia; auto.
Qed.

Lemma append_all_app l1 l2 ng :
  append_all (l1 ++ l2) ng = append_all l2 (append_all l1 ng).
Proof. apply fold_left_app. Qed.

Lemma In_append_all items : forall ng A p,
  In p (dd_get (append_all items ng) A) <->
  In p (dd_get ng A) \/ In (A, p) items.
Proof.
  induction items as [|[B q] items IH]; intros ng A p; simpl; [tauto|].
  unfold append_all in *. simpl. rewrite IH, In_dd_get_append. split.
  - intros [[H|[-> ->]]|H]; auto.
  - intros [H|[H|H]]; auto. injection H as -> ->. auto.
Qed.

Lemma NoDup_keys_append_all items : forall ng,
  NoDup (keys ng) -> NoDup (keys (append_all items ng)).
Proof.
  induction items as [|[B q] items IH]; intros ng Hng; simpl; [assumption|].
  apply IH. apply NoDup_keys_dd_append. exact Hng.
Qed.

(** The loop over the indices of a long production writes its chain. *)
Lemma break_loop_chain (prod : production) : forall m k ng self cur rest,
  (forall j, j < m -> nth (k + j) prod "" = nth j rest "") ->
  last_two prod = skipn m rest ->
  length rest = m + 2 ->
  exists self',
    (let '(new_grammar, self, current_var) :=
       fold_left
         (fun '(new_grammar, self, current_var) i =>
            let (new_var, self) := get_new_variable self in
            (dd_append new_grammar current_var [nth i prod ""; new_var],
             self, new_var))
         (seq k m) (ng, self, cur) in
     (dd_append new_grammar current_var (last_two prod), self))
    = (append_all (chain cur (new_var_counter self) rest) ng, self') /\
    new_var_counter self' = new_var_counter self + m.
Proof.
  induction m as [|m IH]; intros k ng self cur rest Hnth Hlast Hlen.
  - exists self. simpl. rewrite Hlast. simpl.
    destruct (@chain_short cur (new_var_counter self) rest) as [-> _]; [lia|].
    split; [reflexivity|lia].
  - destruct rest as [|a rest]; [simpl in Hlen; lia|].
    simpl in Hlen.
    destruct (@chain_long cur (new_var_counter self) a rest) as [-> _]; [lia|].
    cbn [seq fold_left].
    destruct (get_new_variable_spec self) as (HX & Hcount & _).
    destruct (get_new_variable self) as [X self1] eqn:EG.
    cbn [fst snd] in HX, Hcount. subst X.
    assert (Ea : nth k prod "" = a).
    { rewrite <- (Nat.add_0_r k). rewrite (Hnth 0) by lia. reflexivity. }
    rewrite Ea.
    destruct (IH (S k) (dd_append ng cur [a; format_X (S (new_var_counter self))])
                 self1 (format_X (S (new_var_counter self))) rest)
      as (self' & E & Hc).
    + intros j Hj. replace (S k + j) with (k + S j) by lia.
      rewrite (Hnth (S j)) by lia. reflexivity.
    + rewrite Hlast. reflexivity.
    + lia.
    + exists self'. split; [|lia].
      rewrite Hcount in E. refine (eq_trans E _). reflexivity.
Qed.

Lemma break_production_chain var ng self prod :
  exists self',
    break_production var (ng, self) prod
    = (append_all (chain var (new_var_counter self) prod) ng, self') /\
    new_var_counter self' = new_var_counter self + (length prod - 2).
Proof.
  unfold break_production. destruct (Nat.leb_spec (length prod) 2) as [Hl|Hl].
  - exists self.
    destruct (@chain_short var (new_var_counter self) prod Hl) as [-> _].
    split; [reflexivity|lia].
  - destruct (@break_loop_chain prod (length prod - 2) 0 ng self var prod)
      as (self' & E & Hc).
    + intros j Hj. reflexivity.
    + reflexivity.
    + lia.
    + exists self'. split; [exact E|exact Hc].
Qed.

Lemma break_productions_chains l : forall ng self,
  exists self',
    fold_left (fun st vp => break_production (fst vp) st (snd vp)) l (ng, self)
    = (append_all (all_chains (new_var_counter self) l) ng, self').
Proof.
  induction l as [|[A q] l IH]; intros ng self; cbn [fold_left all_chains].
  - exists self. reflexivity.
  - cbn [fst snd].
    destruct (break_production_chain A ng self q) as (self1 & E & Hc).
    match goal with
    | |- context [break_production ?v ?t ?p] =>
        replace (break_production v t p)
          with (append_all (chain A (new_var_counter self) q) ng, self1)
          by (symmetry; exact E)
    end.
    destruct (IH (append_all (chain A (new_var_counter self) q) ng) self1)
      as (self' & E').
    exists self'. rewrite append_all_app, <- Hc. exact E'.
Qed.

(** The grammar written by pass 5. *)
Lemma break_long_productions_chains (self : CFGtoCNF) :
  grammar (break_long_productions self)
  = append_all (all_chains (new_var_counter self) (flat (grammar self))) [].
Proof.
  unfold break_long_productions, break_long_productions_loop.
  rewrite fold_left_flat.
  destruct (break_productions_chains (flat (grammar self)) [] self)
    as (self' & E).
  match goal with
  | |- context [fold_left ?f ?l ?init] =>
      replace (fold_left f l init)
        with (append_all (all_chains (new_var_counter self)
                                     (flat (grammar self))) [], self')
        by (symmetry; exact E)
  end.
  reflexivity.
Qed.

Lemma chain_meanings_bounds q : forall c X r,
  In (X, r) (chain_meanings c q) ->
  (exists k, X = format_X k /\ c < k <= c + (length q - 2)) /\
  2 <= length r /\ incl r q.
Proof.
  induction q as [|a rest IH]; intros c X r Hin; [destruct Hin|].
  destruct (le_lt_dec 2 (length rest)) as [Hl|Hl].
  - destruct (@chain_long X c a rest Hl) as [_ E]. rewrite E in Hin.
    destruct Hin as [Hin|Hin].
    + injection Hin as <- <-. split; [|split; [exact Hl|]].
      * exists (S c). split; [reflexivity|]. simpl. lia.
      * intros s Hs. right; exact Hs.
    + destruct (IH (S c) X r Hin) as ((k & Ek & Hk) & Hr & Hincl).
      split; [|split; [exact Hr|]].
      * exists k. split; [exact Ek|]. simpl. lia.
      * intros s Hs. right. apply Hincl; exact Hs.
  - destruct (@chain_short X c (a :: rest)) as [_ E]; [simpl; lia|].
    rewrite E in Hin. destruct Hin.
Qed.

Lemma chain_meanings_functional q : forall c X r1 r2,
  In (X, r1) (chain_meanings c q) -> In (X, r2) (chain_meanings c q) -> r1 = r2.
Proof.
  induction q as [|a rest IH]; intros c X r1 r2 H1 H2; [destruct H1|].
  destruct (le_lt_dec 2 (length rest)) as [Hl|Hl].
  - destruct (@chain_long X c a rest Hl) as [_ E]. rewrite E in H1, H2.
    destruct H1 as [H1|H1], H2 as [H2|H2].
    + congruence.
    + injection H1 as <- <-.
      destruct (chain_meanings_bounds _ _ _ _ H2) as ((k & Ek & Hk) & _).
      apply format_X_inj in Ek. lia.
    + injection H2 as <- <-.
      destruct (chain_meanings_bounds _ _ _ _ H1) as ((k & Ek & Hk) & _).
      apply format_X_inj in Ek. lia.
    + exact (IH (S c) X r1 r2 H1 H2).
  - destruct (@chain_short X c (a :: rest)) as [_ E]; [simpl; lia|].
    rewrite E in H1. destruct H1.
Qed.

Section Chains.
Variable M : list (string * production).

Lemma chain_inversion q : forall B c A p,
  incl (chain_meanings c q) M ->
  In (A, p) (chain B c q) ->
  (A = B /\ link M p q) \/
  (exists r, In (A, r) (chain_meanings c q) /\ link M p r).
Proof.
  induction q as [|a rest IH]; intros B c A p HM Hin.
  - destruct Hin as [Hin|[]]. injection Hin as <- <-.
    left. split; [reflexivity|]. left. simpl. auto.
  - destruct (le_lt_dec 2 (length rest)) as [Hl|Hl].
    + destruct (@chain_long B c a rest Hl) as [E1 E2].
      rewrite E1 in Hin. rewrite E2 in HM |- *.
      destruct Hin as [Hin|Hin].
      * injection Hin as <- <-. left. split; [reflexivity|].
        right. exists a, rest, (format_X (S c)).
        split; [reflexivity|]. split; [reflexivity|]. apply HM. left; reflexivity.
      * right.
        destruct (IH (format_X (S c)) (S c) A p) as [[-> Hlink]|(r & Hr & Hlink)];
          [intros x Hx; apply HM; right; exact Hx|exact Hin| |].
        -- exists rest. split; [left; reflexivity|exact Hlink].
        -- exists r. split; [right; exact Hr|exact Hlink].
    + destruct (@chain_short B c (a :: rest)) as [E _]; [simpl; lia|].
      rewrite E in Hin. destruct Hin as [Hin|[]]. injection Hin as <- <-.
      left. split; [reflexivity|]. left. split; [reflexivity|]. simpl; lia.
Qed.

Lemma chain_head q : forall B c,
  incl (chain_meanings c q) M ->
  exists p, In (B, p) (chain B c q) /\ link M p q.
Proof.
  intros B c HM. destruct q as [|a rest].
  - exists []. split; [left; reflexivity|]. left. simpl. auto.
  - destruct (le_lt_dec 2 (length rest)) as [Hl|Hl].
    + destruct (@chain_long B c a rest Hl) as [E1 E2].
      rewrite E1. rewrite E2 in HM.
      exists [a; format_X (S c)]. split; [left; reflexivity|].
      right. exists a, rest, (format_X (S c)).
      split; [reflexivity|]. split; [reflexivity|]. apply HM. left; reflexivity.
    + destruct (@chain_short B c (a :: rest)) as [E _]; [simpl; lia|].
      rewrite E. exists (a :: rest). split; [left; reflexivity|].
      left. split; [reflexivity|]. simpl; lia.
Qed.

Lemma chain_each q : forall B c X r,
  incl (chain_meanings c q) M ->
  In (X, r) (chain_meanings c q) ->
  exists p, In (X, p) (chain B c q) /\ link M p r.
Proof.
  induction q as [|a rest IH]; intros B c X r HM Hin; [destruct Hin|].
  destruct (le_lt_dec 2 (length rest)) as [Hl|Hl].
  - destruct (@chain_long B c a rest Hl) as [E1 E2].
    rewrite E2 in Hin, HM. rewrite E1.
    assert (HM' : incl (chain_meanings (S c) rest) M)
      by (intros x Hx; apply HM; right; exact Hx).
    destruct Hin as [Hin|Hin].
    + injection Hin as <- <-.
      destruct (@chain_head rest (format_X (S c)) (S c) HM') as (p & Hp & Hlink).
      exists p. split; [right; exact Hp|exact Hlink].
    + destruct (IH (format_X (S c)) (S c) X r HM' Hin) as (p & Hp & Hlink).
      exists p. split; [right; exact Hp|exact Hlink].
  - destruct (@chain_short B c (a :: rest)) as [_ E]; [simpl; lia|].
    rewrite E in Hin. destruct Hin.
Qed.

End Chains.

(** The productions of a chain have one symbol, or two that are not
    terminals. *)
Lemma chain_chomsky q : forall B c A p,
  long_variables q -> In (A, p) (chain B c q) ->
  length p = 1 \/
  exists s1 s2, p = [s1; s2] /\ is_terminal s1 = false /\ is_terminal s2 = false.
Proof.
  induction q as [|a rest IH]; intros B c A p Hq Hin.
  - destruct Hq as [Hq|[Hq _]]; simpl in Hq; lia.
  - destruct (le_lt_dec 2 (length rest)) as [Hl|Hl].
    + destruct (@chain_long B c a rest Hl) as [E1 _]. rewrite E1 in Hin.
      destruct Hq as [Hq|[_ Hq]]; [simpl in Hq; lia|].
      destruct Hin as [Hin|Hin].
      * injection Hin as <- <-. right. exists a, (format_X (S c)).
        split; [reflexivity|]. split; [apply Hq; left; reflexivity|].
        apply is_terminal_format_X.
      * apply (IH (format_X (S c)) (S c) A p); [|exact Hin].
        right. split; [exact Hl|]. intros s Hs. apply Hq. right; exact Hs.
    + destruct (@chain_short B c (a :: rest)) as [E _]; [simpl; lia|].
      rewrite E in Hin. destruct Hin as [Hin|[]]. injection Hin as <- <-.
      destruct Hq as [Hq|[Hq Hs]]; [left; exact Hq|right].
      destruct rest as [|b [|d rest]]; simpl in Hq, Hl; try lia.
      exists a, b. split; [reflexivity|]. split; apply Hs; simpl; auto.
Qed.

Lemma occurs_head c A q l : occurs c ((A, q) :: l) A q c.
Proof.
  split; [left; reflexivity|]. split; [lia|].
  split; intros x Hx; simpl; apply in_or_app; left; exact Hx.
Qed.

Lemma occurs_tail c A q l B r c' :
  occurs (c + (length q - 2)) l B r c' -> occurs c ((A, q) :: l) B r c'.
Proof.
  intros (Hin & Hc & H1 & H2). split; [right; exact Hin|]. split; [lia|].
  split; intros x Hx; simpl; apply in_or_app; right; auto.
Qed.

Lemma all_chains_occurs l : forall c,
  (forall A p, In (A, p) (all_chains c l) ->
               exists B q c', occurs c l B q c' /\ In (A, p) (chain B c' q)) /\
  (forall X r, In (X, r) (all_meanings c l) ->
               exists B q c', occurs c l B q c' /\
                              In (X, r) (chain_meanings c' q)) /\
  (forall B q, In (B, q) l -> exists c', occurs c l B q c').
Proof.
  induction l as [|[A0 q0] l IH]; intros c.
  - split; [intros A p []|]. split; [intros X r []|intros B q []].
  - destruct (IH (c + (length q0 - 2))) as (IH1 & IH2 & IH3).
    split; [|split].
    + intros A p Hin. simpl in Hin. apply in_app_or in Hin as [Hin|Hin].
      * exists A0, q0, c. split; [apply occurs_head|exact Hin].
      * destruct (IH1 A p Hin) as (B & q & c' & Hocc & Hin').
        exists B, q, c'. split; [apply occurs_tail; exact Hocc|exact Hin'].
    + intros X r Hin. simpl in Hin. apply in_app_or in Hin as [Hin|Hin].
      * exists A0, q0, c. split; [apply occurs_head|exact Hin].
      * destruct (IH2 X r Hin) as (B & q & c' & Hocc & Hin').
        exists B, q, c'. split; [apply occurs_tail; exact Hocc|exact Hin'].
    + intros B q [Hin|Hin].
      * injection Hin as <- <-. exists c. apply occurs_head.
      * destruct (IH3 B q Hin) as (c' & Hocc).
        exists c'. apply occurs_tail; exact Hocc.
Qed.

Lemma all_meanings_bounds l : forall c X r,
  In (X, r) (all_meanings c l) -> exists k, X = format_X k /\ c < k.
Proof.
  intros c X r Hin.
  destruct (all_chains_occurs l c) as (_ & H2 & _).
  destruct (H2 X r Hin) as (B & q & c' & (_ & Hc & _) & Hin').
  destruct (chain_meanings_bounds _ _ _ _ Hin') as ((k & Ek & Hk) & _).
  exists k. split; [exact Ek|lia].
Qed.

Lemma all_meanings_functional l : forall c X r1 r2,
  In (X, r1) (all_meanings c l) -> In (X, r2) (all_meanings c l) -> r1 = r2.
Proof.
  induction l as [|[A q] l IH]; intros c X r1 r2 H1 H2; [destruct H1|].
  simpl in H1, H2.
  apply in_app_or in H1 as [H1|H1]; apply in_app_or in H2 as [H2|H2].
  - exact (chain_meanings_functional _ _ _ _ _ H1 H2).
  - destruct (chain_meanings_bounds _ _ _ _ H1) as ((k & Ek & Hk) & _).
    destruct (all_meanings_bounds _ _ _ _ H2) as (k' & Ek' & Hk').
    rewrite Ek in Ek'. apply format_X_inj in Ek'. lia.
  - destruct (chain_meanings_bounds _ _ _ _ H2) as ((k & Ek & Hk) & _).
    destruct (all_meanings_bounds _ _ _ _ H1) as (k' & Ek' & Hk').
    rewrite Ek in Ek'. apply format_X_inj in Ek'. lia.
  - exact (IH _ X r1 r2 H1 H2).
Qed.

(** ** Pass 5 keeps the language *)

Section BreakLanguage.
Variables (c4 : nat) (g4 g5 : rules_t) (words : list string).
Hypothesis g4_keys : NoDup (keys g4).
Hypothesis g4_fresh : fresh_names c4 g4.
Hypothesis pass5 :
  forall A p, In p (dd_get g5 A) <-> In (A, p) (all_chains c4 (flat g4)).

Local Abbreviation M := (all_meanings c4 (flat g4)).

Lemma meaning_facts X r :
  In (X, r) M ->
  2 <= length r /\ (exists k, X = format_X k /\ c4 < k) /\
  (forall s k, In s r -> c4 < k -> s <> format_X k) /\
  exists p, In p (dd_get g5 X) /\ link M p r.
Proof.
  intros Hin.
  destruct (all_chains_occurs (flat g4) c4) as (_ & H2 & _).
  destruct (H2 X r Hin) as (B & q & c' & (Hq & Hc & Hi1 & Hi2) & Hin').
  destruct (chain_meanings_bounds _ _ _ _ Hin') as ((k & Ek & Hk) & Hr & Hincl).
  split; [exact Hr|]. split; [exists k; split; [exact Ek|lia]|]. split.
  - intros s k' Hs Hk'. apply (proj2 g4_fresh B q s k' Hq);
      [lia|apply Hincl; exact Hs|exact Hk'].
  - destruct (@chain_each M q B c' X r Hi2 Hin') as (p & Hp & Hlink).
    exists p. split; [|exact Hlink]. apply pass5. apply Hi1. exact Hp.
Qed.

Lemma production_link A q :
  In (A, q) (flat g4) -> exists p, In p (dd_get g5 A) /\ link M p q.
Proof.
  intros Hin.
  destruct (all_chains_occurs (flat g4) c4) as (_ & _ & H3).
  destruct (H3 A q Hin) as (c' & (_ & Hc & Hi1 & Hi2)).
  destruct (@chain_head M q A c' Hi2) as (p & Hp & Hlink).
  exists p. split; [|exact Hlink]. apply pass5. apply Hi1. exact Hp.
Qed.

Lemma link_inversion A p :
  In p (dd_get g5 A) ->
  ((forall k, c4 < k -> A <> format_X k) ->
   exists q, In (A, q) (flat g4) /\ link M p q) /\
  (forall r, In (A, r) M -> link M p r).
Proof.
  intros Hin. apply pass5 in Hin.
  destruct (all_chains_occurs (flat g4) c4) as (H1 & _ & _).
  destruct (H1 A p Hin) as (B & q & c' & (Hq & Hc & Hi1 & Hi2) & Hin').
  destruct (@chain_inversion M q B c' A p Hi2 Hin')
    as [[-> Hlink]|(r' & Hr' & Hlink)].
  - split; [intros _; exists q; auto|].
    intros r Hr. exfalso.
    destruct (all_meanings_bounds _ _ _ _ Hr) as (k & Ek & Hk).
    exact (proj1 g4_fresh k B q Hk Hq Ek).
  - split.
    + intros Hng. exfalso.
      destruct (chain_meanings_bounds _ _ _ _ Hr') as ((k & Ek & Hk) & _).
      apply (Hng k); [lia|exact Ek].
    + intros r Hr.
      rewrite (@all_meanings_functional _ _ _ r r' Hr (Hi2 _ Hr')).
      exact Hlink.
Qed.

Lemma break_language_complete :
  (forall A i len,
      sgen no_unit g4 words A i len -> sgen no_unit g5 words A i len) /\
  (forall body i len,
      sgens no_unit g4 words body i len ->
      sgens no_unit g5 words body i len /\
      forall A p, 2 <= length body -> link M p body -> In p (dd_get g5 A) ->
                  sgen no_unit g5 words A i len).
Proof.
  apply sgen_sgens_ind.
  - intros A B i len _ [].
  - intros A t i Hin _ Ht.
    destruct (@production_link A [t]) as (p & Hp & Hlink);
      [apply dd_get_In_flat; exact Hin|].
    destruct Hlink as [[-> _]|(a & rest & X & E & _ & HX)].
    + apply sgen_word with (t := t); [exact Hp|intros []|exact Ht].
    + injection E as <- <-.
      destruct (meaning_facts _ _ HX) as (Hl & _). simpl in Hl. lia.
  - intros A body i len Hin Hlen _ [_ IH].
    destruct (@production_link A body) as (p & Hp & Hlink);
      [apply dd_get_In_flat; exact Hin|].
    exact (IH A p Hlen Hlink Hp).
  - intros i. split; [constructor|]. intros A p Hl. simpl in Hl. lia.
  - intros s body i len Hs Hw _ [IH1 IH2].
    assert (Hall : sgens no_unit g5 words (s :: body) i (S len))
      by (apply sgens_terminal; assumption).
    split; [exact Hall|].
    intros A p Hl [[-> _]|(a & rest & X & E & -> & HX)] Hp.
    + apply sgen_long with (body := s :: body); assumption.
    + injection E as <- <-.
      destruct (meaning_facts _ _ HX) as (Hl2 & (k & -> & _) & _ & p' & Hp' & Hlink').
      apply sgen_long with (body := [s; format_X k]); [exact Hp|simpl; lia|].
      apply sgens_terminal; [exact Hs|exact Hw|].
      rewrite <- (Nat.add_0_r len).
      apply sgens_variable; [apply is_terminal_format_X| |constructor].
      exact (IH2 (format_X k) p' Hl2 Hlink' Hp').
  - intros s body i l1 l2 Hs _ IHs _ [IH1 IH2].
    assert (Hall : sgens no_unit g5 words (s :: body) i (l1 + l2))
      by (apply sgens_variable; assumption).
    split; [exact Hall|].
    intros A p Hl [[-> _]|(a & rest & X & E & -> & HX)] Hp.
    + apply sgen_long with (body := s :: body); assumption.
    + injection E as <- <-.
      destruct (meaning_facts _ _ HX) as (Hl2 & (k & -> & _) & _ & p' & Hp' & Hlink').
      apply sgen_long with (body := [s; format_X k]); [exact Hp|simpl; lia|].
      apply sgens_variable; [exact Hs|exact IHs|].
      rewrite <- (Nat.add_0_r l2).
      apply sgens_variable; [apply is_terminal_format_X| |constructor].
      exact (IH2 (format_X k) p' Hl2 Hlink' Hp').
Qed.

Lemma break_language_sound :
  (forall A i len,
      sgen no_unit g5 words A i len ->
      ((forall k, c4 < k -> A <> format_X k) -> sgen no_unit g4 words A i len) /\
      (forall r, In (A, r) M -> sgens no_unit g4 words r i len)) /\
  (forall body i len,
      sgens no_unit g5 words body i len ->
      ((forall s k, In s body -> c4 < k -> s <> format_X k) ->
       sgens no_unit g4 words body i len) /\
      (forall a X r, body = [a; X] -> In (X, r) M ->
                     (forall k, c4 < k -> a <> format_X k) ->
                     sgens no_unit g4 words (a :: r) i len) /\
      (forall X r, body = [X] -> In (X, r) M ->
                   sgens no_unit g4 words r i len)).
Proof.
  apply sgen_sgens_ind.
  - intros A B i len _ [].
  - intros A t i Hin _ Ht.
    destruct (link_inversion _ _ Hin) as [K1 K2]. split.
    + intros Hng. destruct (K1 Hng) as (q & Hq & Hlink).
      destruct Hlink as [[<- _]|(a & rest & X & _ & E & _)]; [|discriminate].
      apply sgen_word with (t := t); [|intros []|exact Ht].
      apply In_flat_dd_get; assumption.
    + intros r Hr. exfalso.
      destruct (meaning_facts _ _ Hr) as (Hl & _).
      destruct (K2 r Hr) as [[<- _]|(a & rest & X & _ & E & _)];
        [simpl in Hl; lia|discriminate].
  - intros A body i len Hin Hlen _ (Q1 & Q2 & Q3).
    destruct (link_inversion _ _ Hin) as [K1 K2]. split.
    + intros Hng. destruct (K1 Hng) as (q & Hq & Hlink).
      assert (Hq' : In q (dd_get g4 A)) by (apply In_flat_dd_get; assumption).
      destruct Hlink as [[<- _]|(a & rest & X & -> & -> & HX)].
      * apply sgen_long with (body := body); [exact Hq'|exact Hlen|].
        apply Q1. intros s k Hs Hk.
        exact (proj2 g4_fresh A body s k Hq Hlen Hs Hk).
      * destruct (meaning_facts _ _ HX) as (Hl & _).
        apply sgen_long with (body := a :: rest); [exact Hq'|simpl; lia|].
        apply (Q2 a X rest eq_refl HX).
        intros k Hk.
        apply (proj2 g4_fresh A (a :: rest) a k Hq);
          [simpl; lia|left; reflexivity|exact Hk].
    + intros r Hr.
      destruct (meaning_facts _ _ Hr) as (Hl & _ & Hfresh & _).
      destruct (K2 r Hr) as [[<- _]|(a & rest & X & -> & -> & HX)].
      * apply Q1. exact Hfresh.
      * apply (Q2 a X rest eq_refl HX).
        intros k Hk. apply (Hfresh a k); simpl; auto.
  - intros i. split; [intros _; constructor|].
    split; [intros a X r E; discriminate|intros X r E; discriminate].
  - intros s body i len Hs Hw _ (Q1 & Q2 & Q3). split; [|split].
    + intros Hfresh. apply sgens_terminal; [exact Hs|exact Hw|].
      apply Q1. intros s' k Hs'. apply Hfresh. right; exact Hs'.
    + intros a X r E HX Ha. injection E as -> ->.
      apply sgens_terminal; [exact Hs|exact Hw|].
      exact (Q3 X r eq_refl HX).
    + intros X r E HX. injection E as -> ->. exfalso.
      destruct (meaning_facts _ _ HX) as (_ & (k & -> & _) & _).
      rewrite is_terminal_format_X in Hs. discriminate.
  - intros s body i l1 l2 Hs _ [P1 P2] Hbody (Q1 & Q2 & Q3). split; [|split].
    + intros Hfresh. apply sgens_variable; [exact Hs| |].
      * apply P1. intros k Hk. apply (Hfresh s k); simpl; auto.
      * apply Q1. intros s' k Hs'. apply Hfresh. right; exact Hs'.
    + intros a X r E HX Ha. injection E as -> ->.
      apply sgens_variable; [exact Hs|exact (P1 Ha)|].
      exact (Q3 X r eq_refl HX).
    + intros X r E HX. injection E as -> ->.
      inversion Hbody; subst. rewrite Nat.add_0_r. exact (P2 r HX).
Qed.

End BreakLanguage.

Lemma format_X_bound k k' c : k' <= c -> c < k -> format_X k' <> format_X k.
Proof. intros H1 H2 E. apply format_X_inj in E. lia. Qed.

(** Pass 4 keeps the language of each variable that is not a generated
    name, and leaves a grammar fit for pass 5. *)
Lemma convert_terminals_language (self : CFGtoCNF) :
  let g3 := grammar self in
  let c0 := new_var_counter self in
  let self' := convert_terminals self in
  NoDup (keys g3) -> no_empty_production g3 -> fresh_names c0 g3 ->
  NoDup (keys (grammar self')) /\
  fresh_names (new_var_counter self') (grammar self') /\
  c0 <= new_var_counter self' /\
  (forall A q, In q (dd_get (grammar self') A) -> long_variables q) /\
  forall words A i len,
    (forall k, c0 < k -> A <> format_X k) ->
    (sgen no_unit (grammar self') words A i len <->
     sgen no_unit g3 words A i len).
Proof.
  cbv zeta. intros Hnd Hne Hfresh.
  destruct (@convert_terminals_exact self) as (ng & tv & self4 & E & Hex);
    [exact (proj1 Hfresh)|].
  unfold convert_terminals.
  match goal with
  | |- context [convert_terminals_loop self] =>
      replace (convert_terminals_loop self) with (ng, tv, self4)
        by (symmetry; exact E)
  end.
  cbn [grammar with_grammar new_var_counter].
  pose proof Hex as (Ha & Hb & Hc & Hd & He & Hf). cbn [fst snd] in *.
  destruct Hfresh as [Hfk Hfs].
  assert (Hnonempty : forall A q, In (A, q) (flat (grammar self)) -> q <> []).
  { intros A q Hq ->. apply In_flat in Hq as (ps & Hin & Hq).
    exact (Hne A ps Hin Hq). }
  assert (Hsubst : forall A q0 s0,
             In (A, q0) (flat (grammar self)) -> length q0 <> 1 -> In s0 q0 ->
             (exists k', k' <= new_var_counter self4 /\
                         subst_terminal tv s0 = format_X k') \/
             (subst_terminal tv s0 = s0 /\ is_terminal s0 = false)).
  { intros A q0 s0 Hq0 Hl Hs0. unfold subst_terminal.
    destruct (is_terminal s0) eqn:Et; [|right; auto].
    destruct (dict_get tv s0) as [X|] eqn:EX.
    - destruct (Ha s0 X EX) as (_ & k' & Hk' & ->). left. exists k'.
      split; [lia|reflexivity].
    - exfalso. exact (Hd A q0 s0 Hq0 Hl Hs0 Et EX). }
  split; [exact He|]. split; [|split; [exact Hf|split]].
  - split.
    + intros k A q Hk Hq. apply (@In_flat_dd_get _ _ _ He) in Hq.
      apply Hc in Hq as [(q0 & Hq0 & _)|(t & Ht & _)].
      * apply (Hfk k A q0); [lia|exact Hq0].
      * destruct (Ha t A Ht) as (_ & k' & Hk' & ->).
        apply format_X_bound with (c := new_var_counter self4); lia.
    + intros A q s k Hq Hl Hs Hk. apply (@In_flat_dd_get _ _ _ He) in Hq.
      apply Hc in Hq as [(q0 & Hq0 & ->)|(t & Ht & ->)]; [|simpl in Hl; lia].
      unfold converted in Hl, Hs.
      destruct (Nat.eqb_spec (length q0) 1) as [El|El]; [lia|].
      rewrite length_map in Hl.
      apply in_map_iff in Hs as (s0 & <- & Hs0).
      destruct (Hsubst A q0 s0 Hq0 El Hs0) as [(k' & Hk' & ->)|[-> _]].
      * apply format_X_bound with (c := new_var_counter self4); lia.
      * apply (Hfs A q0 s0 k Hq0 Hl Hs0). lia.
  - intros A q Hq.
    apply Hc in Hq as [(q0 & Hq0 & ->)|(t & Ht & ->)]; [|left; reflexivity].
    unfold converted, long_variables.
    destruct (Nat.eqb_spec (length q0) 1) as [El|El]; [left; exact El|right].
    rewrite length_map. split.
    + specialize (Hnonempty A q0 Hq0). destruct q0 as [|a [|b q0]];
        [congruence|simpl in El; congruence|simpl; lia].
    + intros s Hs. apply in_map_iff in Hs as (s0 & <- & Hs0).
      destruct (Hsubst A q0 s0 Hq0 El Hs0) as [(k' & Hk' & ->)|[-> Ht]];
        [apply is_terminal_format_X|exact Ht].
  - intros words A i len HA. split.
    + intros Hgen.
      apply (proj1 (@terminals_language_sound _ _ _ _ _ words Hnd
                      (conj Hfk Hfs) Hex) A i len Hgen).
      exact HA.
    + apply (proj1 (@terminals_language_complete _ _ _ _ _ words Hex)).
Qed.

(** Pass 5 keeps the language of each variable that is not a generated
    name, and writes productions of one symbol or of two variables. *)
Lemma break_long_productions_language (self : CFGtoCNF) :
  let g4 := grammar self in
  let c4 := new_var_counter self in
  let g5 := grammar (break_long_productions self) in
  NoDup (keys g4) -> fresh_names c4 g4 ->
  (forall A q, In q (dd_get g4 A) -> long_variables q) ->
  NoDup (keys g5) /\ chomsky g5 /\
  forall words A i len,
    (forall k, c4 < k -> A <> format_X k) ->
    (sgen no_unit g5 words A i len <-> sgen no_unit g4 words A i len).
Proof.
  cbv zeta. intros Hnd Hfresh Hlong.
  rewrite break_long_productions_chains.
  set (c4 := new_var_counter self). set (g4 := grammar self).
  set (g5 := append_all (all_chains c4 (flat g4)) []).
  assert (pass5 : forall A p,
             In p (dd_get g5 A) <-> In (A, p) (all_chains c4 (flat g4))).
  { intros A p. unfold g5. rewrite In_append_all. simpl. tauto. }
  split; [|split].
  - apply NoDup_keys_append_all. constructor.
  - intros A p Hp. apply pass5 in Hp.
    destruct (all_chains_occurs (flat g4) c4) as (H1 & _ & _).
    destruct (H1 A p Hp) as (B & q & c' & (Hq & _) & Hin).
    apply (@chain_chomsky q B c' A p); [|exact Hin].
    apply (Hlong B). apply In_flat_dd_get; assumption.
  - intros words A i len HA. split.
    + intros Hgen.
      apply (proj1 (@break_language_sound c4 g4 g5 words Hnd Hfresh pass5)
               A i len Hgen).
      exact HA.
    + apply (proj1 (@break_language_complete c4 g4 g5 words Hfresh pass5)).
Qed.

(* ================================================================= *)
(** * Acceptance and the order of the productions *)

(** The grammar returned by [convert] is in Chomsky form as far as the
    parser reads it, and each variable that is not a generated name
    derives what it derived in the grammar of pass 1. *)
Lemma normalize_language `{PySetOrder} (G : cfg) (g : cnf) :
  normalize G = Ok g -> no_generated_name G ->
  let g1 := grammar (eliminate_start_symbol (CFGtoCNF_init G)) in
  cnf_start g = "S0" /\
  forall words A i len,
    (forall k, A <> format_X k) ->
    (span (cnf_rules g) words A i len <-> sgen (key_of g1) g1 words A i len).
Proof.
  intros Hrun Hng.
  destruct (convert_inversion G Hrun)
    as (Hne & g3 & Hnd3 & Hincl3 & _ & Hg3 & Hstart & Hrules).
  destruct (eliminate_start_symbol_spec G) as (Hnd1 & Hg1 & _ & Hc1 & _).
  cbv zeta in *.
  set (self1 := eliminate_start_symbol (CFGtoCNF_init G)) in *.
  set (self3 := with_grammar self1 g3) in *.
  assert (Hfresh3 : fresh_names (new_var_counter self3) (grammar self3)).
  { cbn [self3 grammar with_grammar new_var_counter]. split.
    - intros k A q _ Hq. apply In_flat_key in Hq. apply Hincl3 in Hq.
      apply eliminate_start_symbol_keys in Hq as [->|Hq].
      + unfold format_X. discriminate.
      + intros ->. exact (proj1 (Hng k) Hq).
    - intros A q s k Hq Hl Hs _. apply (@In_flat_dd_get _ _ _ Hnd3) in Hq.
      apply Hg3 in Hq as (B & _ & Hq & _).
      apply dd_get_In_flat, In_flat in Hq as (ps & Hin & Hq).
      destruct (Hg1 B ps Hin) as [[_ ->]|(prods & Hprods & ->)].
      + destruct Hq as [<-|[]]. simpl in Hl. lia.
      + apply in_map_iff in Hq as (p & <- & Hp).
        intros ->. exact (proj2 (Hng k) B prods p Hprods Hp Hs). }
  assert (Hne3 : no_empty_production (grammar self3)).
  { cbn [self3 grammar with_grammar]. intros var ps Hin Hnil.
    assert (Hq : In [] (dd_get g3 var))
      by (rewrite (@dd_get_item _ _ _ _ Hnd3 Hin); exact Hnil).
    apply Hg3 in Hq as (B & _ & Hq & _).
    apply dd_get_In_flat, In_flat in Hq as (ps' & Hin' & Hq).
    exact (Hne B ps' Hin' Hq). }
  destruct (@convert_terminals_language self3 Hnd3 Hne3 Hfresh3)
    as (Hnd4 & Hfresh4 & Hc4 & Hlong4 & Hlang4).
  destruct (@break_long_productions_language (convert_terminals self3)
              Hnd4 Hfresh4 Hlong4) as (Hnd5 & Hch5 & Hlang5).
  split; [exact Hstart|]. rewrite Hrules.
  intros words A i len HA.
  set (g5 := grammar (break_long_productions (convert_terminals self3))) in *.
  assert (H5 : span g5 words A i len <-> sgen no_unit g5 words A i len).
  { split; [apply span_sgen; assumption|].
    apply (proj1 (@sgen_span g5 words Hnd5 Hch5)). }
  assert (H54 : sgen no_unit g5 words A i len <->
                sgen no_unit (grammar (convert_terminals self3)) words A i len).
  { apply Hlang5. intros k _. apply HA. }
  assert (H43 : sgen no_unit (grammar (convert_terminals self3)) words A i len <->
                sgen no_unit g3 words A i len).
  { apply Hlang4. intros k _. apply HA. }
  assert (H31 : sgen no_unit g3 words A i len <->
                sgen (key_of (grammar self1)) (grammar self1) words A i len).
  { split.
    - apply (proj1 (@unit_language_sound (grammar self1) g3 words Hg3)).
    - apply (proj1 (@unit_language_complete (grammar self1) g3 words Hg3)). }
  tauto.
Qed.












Lemma empty_production_dec (g : rules_t) :
  no_empty_production g \/ exists var ps, In (var, ps) g /\ In [] ps.
Proof.
  induction g as [|[v ps] g IH]; [left; intros var ps []|].
  destruct (in_dec (list_eq_dec string_dec) [] ps) as [Hin|Hnin].
  - right. exists v, ps. simpl. auto.
  - destruct IH as [IH|(var & ps' & Hin & Hnil)].
    + left. intros var ps0 [E|Hin] Hnil.
      * injection E as <- <-. contradiction.
      * exact (IH var ps0 Hin Hnil).
    + right. exists var, ps'. simpl. auto.
Qed.

(** [convert] returns a grammar, or raises [IndexError] on an empty
    production. *)
Lemma normalize_cases `{PySetOrder} (G : cfg) :
  let g1 := grammar (eliminate_start_symbol (CFGtoCNF_init G)) in
  (no_empty_production g1 /\ exists g, normalize G = Ok g) \/
  ((exists var ps, In (var, ps) g1 /\ In [] ps) /\
   normalize G = Raise IndexError).
Proof.
  cbv zeta.
  destruct (empty_production_dec
              (grammar (eliminate_start_symbol (CFGtoCNF_init G))))
    as [Hne|Hempty].
  - left. split; [exact Hne|].
    destruct (eliminate_start_symbol_spec G) as (Hnd & _).
    destruct (eliminate_unit_productions_spec _ Hnd) as [Hok _].
    destruct (Hok Hne) as (ng & Hrun & _).
    unfold normalize, convert.
    rewrite (epsilon_unchanged _ Hne). cbn [bind]. rewrite Hrun. cbn [bind].
    eexists. reflexivity.
  - right. split; [exact Hempty|].
    unfold normalize. rewrite (@convert_Raise _ G Hempty). reflexivity.
Qed.

(** On a sentence of one word or more, the verdict of the parser on the
    converted grammar is membership in the language of the grammar. *)
Lemma accepted_language `{PySetOrder} (G : cfg) (g : cnf) (sentence : string) :
  normalize G = Ok g -> no_generated_name G -> tokenize sentence <> [] ->
  exists b, accepted G sentence = Ok b /\
            (b = true <-> language G (tokenize sentence)).
Proof.
  intros Hrun Hng Hwords.
  destruct (normalize_language Hrun Hng) as (Hstart & Hlang).
  destruct (@parse_nonempty _ g (tokenize sentence) sentence eq_refl Hwords)
    as (table & backpointer & _ & _ & Hcells & Hparse).
  cbv zeta in Hparse. unfold accepted. rewrite Hrun. cbn [bind].
  rewrite Hparse. cbn [bind fst].
  eexists. split; [reflexivity|].
  rewrite mem_In, Hcells, Hstart. unfold language. cbv zeta.
  replace (length (tokenize sentence) - 1 + 1) with (length (tokenize sentence))
    by (destruct (tokenize sentence); [congruence|simpl; lia]).
  apply Hlang. intros k. unfold format_X. discriminate.
Qed.

Lemma no_X_name_sound (G : cfg) : no_X_name G = true -> no_generated_name G.
Proof.
  unfold no_X_name. rewrite forallb_forall. intros HG k. split.
  - intros Hin. apply in_map_iff in Hin as ([v ps] & E & Hin).
    apply HG in Hin. simpl in E, Hin. rewrite E in Hin. discriminate.
  - intros var prods p Hin Hp Hs. apply HG in Hin. cbn [fst snd] in Hin.
    apply andb_true_iff in Hin as [_ Hin].
    rewrite forallb_forall in Hin. apply Hin in Hp.
    rewrite forallb_forall in Hp. apply Hp in Hs. discriminate.
Qed.




(* ================================================================= *)
(** * The parser on any sentence *)

(** ** White space, tokens and [strip] *)

Lemma split_from_nil s : forall tok,
  split_from tok s = [] <-> tok = EmptyString /\ blank s = true.
Proof.
  unfold blank. induction s as [|c s IH]; intros tok; simpl.
  - destruct tok; simpl; intuition congruence.
  - destruct (is_space_char c) eqn:Ec; simpl.
    + destruct tok as [|a tok]; [rewrite IH; intuition|].
      intuition congruence.
    + rewrite IH. split; [|intros [_ E]; discriminate].
      intros [E _]. destruct tok; discriminate.
Qed.

Lemma split_nil s : split s = [] <-> blank s = true.
Proof. unfold split. rewrite split_from_nil. tauto. Qed.

Lemma is_space_lower_char c :
  is_space_char (if is_upper_char c then ascii_of_nat (nat_of_ascii c + 32) else c)
  = is_space_char c.
Proof.
  destruct (is_upper_char c) eqn:Eu; [|reflexivity].
  unfold is_upper_char in Eu. unfold is_space_char.
  apply andb_true_iff in Eu as [E1 E2].
  apply Nat.leb_le in E1, E2.
  rewrite nat_ascii_embedding by lia. cbv zeta.
  repeat match goal with
         | |- context [?a <=? ?b] =>
             destruct (Nat.leb_spec a b); try lia
         end; reflexivity.
Qed.

Lemma blank_lower s : blank (lower s) = blank s.
Proof.
  unfold blank. f_equal.
  induction s as [|c s IH]; simpl; [reflexivity|].
  rewrite is_space_lower_char, IH. reflexivity.
Qed.

Lemma tokenize_nil s : tokenize s = [] <-> blank s = true.
Proof. unfold tokenize. rewrite split_nil, blank_lower. tauto. Qed.

Lemma blank_lstrip s : blank (lstrip s) = blank s.
Proof.
  unfold blank. f_equal. induction s as [|c s IH]; simpl; [reflexivity|].
  destruct (is_space_char c) eqn:Ec; simpl; [exact IH|].
  rewrite Ec. reflexivity.
Qed.

Lemma blank_rstrip s : blank (rstrip s) = blank s.
Proof.
  unfold blank. f_equal. induction s as [|c s IH]; simpl; [reflexivity|].
  destruct (rstrip s) as [|a r] eqn:Er.
  - simpl in IH. rewrite <- IH.
    destruct (is_space_char c) eqn:Ec; simpl; rewrite ?Ec; reflexivity.
  - simpl. simpl in IH. rewrite IH. reflexivity.
Qed.

Lemma rstrip_empty s : rstrip s = EmptyString <-> blank s = true.
Proof.
  unfold blank. induction s as [|c s IH]; simpl; [tauto|].
  destruct (rstrip s) as [|a r] eqn:Er.
  - destruct (is_space_char c) eqn:Ec; simpl.
    + rewrite <- IH. tauto.
    + split; discriminate.
  - split; [discriminate|]. intros E.
    destruct (is_space_char c); simpl in E; [|discriminate].
    apply IH in E. discriminate.
Qed.

Lemma strip_empty s : strip s = EmptyString <-> blank s = true.
Proof. unfold strip. rewrite rstrip_empty, blank_lstrip. tauto. Qed.

Lemma blank_strip s : blank (strip s) = blank s.
Proof. unfold strip. rewrite blank_rstrip, blank_lstrip. reflexivity. Qed.

Lemma str_exists_app p a b :
  str_exists p (a ++ b)%string = str_exists p a || str_exists p b.
Proof.
  induction a as [|c a IH]; simpl; [reflexivity|].
  rewrite IH. apply orb_assoc.
Qed.

Lemma split_from_words (p : ascii -> bool) s : forall tok w,
  str_exists is_space_char tok = false ->
  str_exists p tok = false -> str_exists p s = false ->
  In w (split_from tok s) ->
  word w /\ str_exists p w = false.
Proof.
  induction s as [|c s IH]; intros tok w Htok Hp Hs Hin; simpl in Hin, Hs.
  - destruct tok; [destruct Hin|]. destruct Hin as [<-|[]].
    split; [split; [discriminate|exact Htok]|exact Hp].
  - apply orb_false_iff in Hs as [Hc Hs].
    destruct (is_space_char c) eqn:Ec.
    + destruct tok as [|a tok].
      * exact (IH EmptyString w eq_refl eq_refl Hs Hin).
      * destruct Hin as [<-|Hin].
        -- split; [split; [discriminate|exact Htok]|exact Hp].
        -- exact (IH EmptyString w eq_refl eq_refl Hs Hin).
    + apply (IH (tok ++ String c EmptyString)%string w); auto.
      * rewrite str_exists_app, Htok. simpl. rewrite Ec. reflexivity.
      * rewrite str_exists_app, Hp. simpl. rewrite Hc. reflexivity.
Qed.

Lemma lower_no_upper s : str_exists is_upper_char (lower s) = false.
Proof.
  induction s as [|c s IH]; simpl; [reflexivity|]. rewrite IH, orb_false_r.
  destruct (is_upper_char c) eqn:Eu; [|exact Eu].
  unfold is_upper_char in *. apply andb_true_iff in Eu as [E1 E2].
  apply Nat.leb_le in E1, E2.
  rewrite nat_ascii_embedding by lia.
  apply andb_false_iff. right. apply Nat.leb_gt. lia.
Qed.

(** ** ASCII text *)

Lemma is_ascii_spec (s : string) :
  is_ascii s = true <-> str_exists (fun c => 128 <=? nat_of_ascii c) s = false.
Proof. unfold is_ascii. apply negb_true_iff. Qed.

Lemma lower_ascii (s : string) : is_ascii s = true -> is_ascii (lower s) = true.
Proof.
  rewrite !is_ascii_spec.
  induction s as [|c s IH]; cbn [lower str_exists]; [reflexivity|]. intros Hs.
  apply orb_false_iff in Hs as [Hc Hs]. rewrite (IH Hs), orb_false_r.
  destruct (is_upper_char c) eqn:Eu; [|exact Hc].
  unfold is_upper_char in Eu. apply andb_true_iff in Eu as [E1 E2].
  apply Nat.leb_le in E1, E2.
  rewrite nat_ascii_embedding by lia. apply Nat.leb_gt. lia.
Qed.

Lemma split_ascii (s w : string) :
  is_ascii s = true -> In w (split s) -> is_ascii w = true.
Proof.
  rewrite !is_ascii_spec. intros Hs Hin.
  apply (@split_from_words (fun c => 128 <=? nat_of_ascii c) s EmptyString w);
    auto.
Qed.

Lemma format_X_ascii (k : nat) : is_ascii (format_X k) = true.
Proof.
  apply is_ascii_spec. unfold format_X. cbn [str_exists].
  change (128 <=? nat_of_ascii "X") with false. cbn [orb].
  assert (Hd : forall d,
             str_exists (fun c => 128 <=? nat_of_ascii c)
                        (NilEmpty.string_of_uint d) = false).
  { induction d; cbn [NilEmpty.string_of_uint str_exists]; rewrite ?IHd;
      reflexivity. }
  unfold NilZero.string_of_uint. destruct (Nat.to_uint k); try apply Hd.
  reflexivity.
Qed.

(** ** Tokens *)

(** X1. The words that [parse] reads from a sentence of ASCII text
    ([sentence.lower().split()]) are not empty, hold no white space and
    no uppercase letter, and are ASCII text. *)
Theorem tokenize_words (sentence w : string) :
  is_ascii sentence = true ->
  In w (tokenize sentence) ->
  word w /\ str_exists is_upper_char w = false /\ is_ascii w = true.
Proof.
  intros Hascii Hin.
  destruct (@split_from_words is_upper_char (lower sentence) EmptyString w)
    as [Hw Hup]; auto using lower_no_upper.
  split; [exact Hw|]. split; [exact Hup|].
  exact (split_ascii (lower sentence) w (lower_ascii sentence Hascii) Hin).
Qed.

Lemma tokenize_words_witness :
  is_ascii "She EATS a  Cake" = true /\
  In "cake" (tokenize "She EATS a  Cake") /\
  word "cake" /\ str_exists is_upper_char "cake" = false /\
  is_ascii "cake" = true.
Proof.
  assert (Hascii : is_ascii "She EATS a  Cake" = true) by reflexivity.
  assert (Hin : In "cake" (tokenize "She EATS a  Cake"))
    by (vm_compute; auto).
  split; [exact Hascii|]. split; [exact Hin|].
  exact (tokenize_words "She EATS a  Cake" "cake" Hascii Hin).
Defined.

(** ** When [parse] raises *)

(** X2. On a sentence of ASCII text, [parse] raises [IndexError]
    exactly when the sentence is made of white space only (the empty
    one among them); on any other such sentence it returns a
    verdict. *)
Theorem parse_raises_iff_blank `{PySetOrder} (cg : cnf) (sentence : string) :
  is_ascii sentence = true ->
  (blank sentence = true ->
   parse (CYKParser_init cg) sentence = Raise IndexError) /\
  (blank sentence = false ->
   exists acc data, parse (CYKParser_init cg) sentence = Ok (acc, data)).
Proof.
  intros _. split; intros Hb.
  - apply tokenize_nil in Hb. unfold parse, fill_tables. rewrite Hb. reflexivity.
  - assert (Hne : tokenize sentence <> []).
    { intros E. apply tokenize_nil in E. congruence. }
    destruct (@parse_nonempty _ cg (tokenize sentence) sentence eq_refl Hne)
      as (table & backpointer & _ & _ & _ & Hrun).
    cbv zeta in Hrun. eauto.
Qed.

Lemma parse_raises_iff_blank_witness :
  is_ascii "a b" = true /\ is_ascii "  " = true /\
  (blank "  " = true /\
   @parse insertion_order (CYKParser_init ab_grammar) "  " = Raise IndexError) /\
  (blank "a b" = false /\
   exists acc data,
     @parse insertion_order (CYKParser_init ab_grammar) "a b" = Ok (acc, data)).
Proof.
  split; [reflexivity|]. split; [reflexivity|]. split.
  - split; [reflexivity|].
    apply (proj1 (@parse_raises_iff_blank insertion_order ab_grammar "  "
                    eq_refl)).
    reflexivity.
  - split; [reflexivity|].
    apply (proj2 (@parse_raises_iff_blank insertion_order ab_grammar "a b"
                    eq_refl)).
    reflexivity.
Defined.

(** ** What [parse] decides *)

(** X3. On a sentence of one word or more, [parse] accepts if and only
    if the start symbol derives the words of the sentence by the
    productions of one symbol (a word) and of two symbols (two
    variables) of the grammar. *)
Theorem parse_accepts_iff_derives `{PySetOrder} (cg : cnf) (sentence : string) :
  tokenize sentence <> [] ->
  exists acc data,
    parse (CYKParser_init cg) sentence = Ok (acc, data) /\
    (acc = true <->
     span (cnf_rules cg) (tokenize sentence) (cnf_start cg) 0
          (length (tokenize sentence))).
Proof.
  intros Hne.
  destruct (@parse_nonempty _ cg (tokenize sentence) sentence eq_refl Hne)
    as (table & backpointer & _ & _ & Hcells & Hrun).
  cbv zeta in Hrun. do 2 eexists. split; [exact Hrun|].
  rewrite mem_In, Hcells.
  replace (length (tokenize sentence) - 1 + 1) with (length (tokenize sentence));
    [tauto|].
  destruct (tokenize sentence); [congruence|simpl; lia].
Qed.

Lemma parse_accepts_iff_derives_witness :
  tokenize "a b" <> [] /\
  exists acc data,
    @parse insertion_order (CYKParser_init ab_grammar) "a b" = Ok (acc, data) /\
    (acc = true <->
     span (cnf_rules ab_grammar) (tokenize "a b") (cnf_start ab_grammar) 0
          (length (tokenize "a b"))).
Proof.
  split; [discriminate|].
  apply (@parse_accepts_iff_derives insertion_order ab_grammar "a b").
  discriminate.
Defined.

Lemma parse_accepted_data `{PySetOrder} (cg : cnf) (sentence : string)
  (table : table_t) (backpointer : backpointer_t) (words : list string) :
  parse (CYKParser_init cg) sentence = Ok (true, Some (table, backpointer, words)) ->
  words = tokenize sentence /\ words <> [] /\
  tables_ok (cnf_rules cg) words (table, backpointer) /\
  forall i j A, In A (cell table i j) <-> span (cnf_rules cg) words A i (j + 1).
Proof.
  intros Hrun.
  assert (Hne : tokenize sentence <> []).
  { intros E. unfold parse, fill_tables in Hrun. rewrite E in Hrun.
    discriminate. }
  destruct (@parse_nonempty _ cg (tokenize sentence) sentence eq_refl Hne)
    as (table' & backpointer' & _ & Hok & Hcells & Hrun').
  cbv zeta in Hrun'. rewrite Hrun' in Hrun.
  destruct (mem (cnf_start cg) (cell table' 0 (length (tokenize sentence) - 1)));
    [|discriminate].
  injection Hrun as <- <- <-. auto.
Qed.

(** X4. In the table that [parse] returns with an accepted sentence,
    [table[i][j]] holds exactly the variables that derive the [j + 1]
    words from position [i] on, and the table has one row per word. *)
Theorem parse_table_exact `{PySetOrder} (cg : cnf) (sentence : string)
  (table : table_t) (backpointer : backpointer_t) (words : list string) :
  parse (CYKParser_init cg) sentence = Ok (true, Some (table, backpointer, words)) ->
  words = tokenize sentence /\ length table = length words /\
  forall i j A, In A (cell table i j) <-> span (cnf_rules cg) words A i (j + 1).
Proof.
  intros Hrun. apply parse_accepted_data in Hrun as (Hw & _ & Hok & Hcells).
  split; [exact Hw|]. split; [|exact Hcells].
  destruct Hok as [[[Hlen _] _] _]. exact Hlen.
Qed.

Lemma parse_table_exact_witness :
  exists table backpointer words,
    @parse insertion_order (CYKParser_init ab_grammar) "a b"
    = Ok (true, Some (table, backpointer, words)) /\
    words = tokenize "a b" /\ length table = length words /\
    forall i j A, In A (cell table i j) <->
                  span (cnf_rules ab_grammar) words A i (j + 1).
Proof.
  do 3 eexists. split; [vm_compute; reflexivity|].
  eapply (@parse_table_exact insertion_order ab_grammar "a b").
  vm_compute; reflexivity.
Defined.

(** X5. In the data that [parse] returns with an accepted sentence,
    each back-pointer of a variable [A] in a cell is justified: a
    triple [(t, None, None)] is in column 0, at the word [t], with
    [A -> t] a production; a tuple [(B, C, k, i, i + k + 1)] of the
    cell [(i, j)] has [k < j], [B] in [table[i][k]], [C] in
    [table[i + k + 1][j - k - 1]] and [A -> B C] a production. *)
Theorem parse_backpointers_justified `{PySetOrder} (cg : cnf)
  (sentence : string) (table : table_t) (backpointer : backpointer_t)
  (words : list string) :
  parse (CYKParser_init cg) sentence = Ok (true, Some (table, backpointer, words)) ->
  forall i j A e,
    In e (bcell backpointer i j A) ->
    match e with
    | terminal_entry t =>
        j = 0 /\ nth_error words i = Some t /\ has_prod (cnf_rules cg) A [t]
    | split_entry B C k left_start right_start =>
        k < j /\ left_start = i /\ right_start = i + k + 1 /\
        In B (cell table i k) /\ In C (cell table (i + k + 1) (j - k - 1)) /\
        has_prod (cnf_rules cg) A [B; C]
    end.
Proof.
  intros Hrun i j A e He.
  apply parse_accepted_data in Hrun as (_ & _ & [_ Hok] & _).
  destruct (Hok i j A) as [_ Hentries]. specialize (Hentries e He).
  destruct e as [t|B C k ls rs]; simpl in Hentries; [exact Hentries|].
  destruct Hentries as (Hk & -> & -> & _ & HB & HC & Hp). auto 10.
Qed.

Lemma parse_backpointers_justified_witness :
  exists table backpointer words,
    @parse insertion_order (CYKParser_init ab_grammar) "a b"
    = Ok (true, Some (table, backpointer, words)) /\
    In (split_entry "A" "B" 0 0 1) (bcell backpointer 0 1 "S0") /\
    (0 < 1 /\ 0 = 0 /\ 1 = 0 + 0 + 1 /\
     In "A" (cell table 0 0) /\ In "B" (cell table (0 + 0 + 1) (1 - 0 - 1)) /\
     has_prod (cnf_rules ab_grammar) "S0" ["A"; "B"]).
Proof.
  do 3 eexists. split; [vm_compute; reflexivity|].
  assert (Hin : In (split_entry "A" "B" 0 0 1)
                   (bcell [[[("A", [terminal_entry "a"])]; [("S0", [split_entry "A" "B" 0 0 1])]];
                           [[("B", [terminal_entry "b"])]; []]] 0 1 "S0"))
    by (vm_compute; auto).
  split; [exact Hin|].
  refine (@parse_backpointers_justified insertion_order ab_grammar "a b"
            _ _ _ _ 0 1 "S0" _ Hin).
  vm_compute; reflexivity.
Defined.

Lemma span_words (g : rules_t) (words : list string) A i len :
  span g words A i len ->
  forall j, i <= j < i + len ->
            exists B t, nth_error words j = Some t /\ has_prod g B [t].
Proof.
  induction 1 as [A i t Ht Hp|A B C i l1 l2 Hp _ IH1 _ IH2]; intros j Hj.
  - replace j with i by lia. eauto.
  - destruct (Nat.lt_ge_cases j (i + l1)); [apply IH1|apply IH2]; lia.
Qed.

(** X6. A sentence with a word that is the body of no production of
    the grammar is rejected. *)
Theorem parse_unknown_word `{PySetOrder} (cg : cnf) (sentence w : string) :
  In w (tokenize sentence) ->
  (forall A, ~ has_prod (cnf_rules cg) A [w]) ->
  parse (CYKParser_init cg) sentence = Ok (false, None).
Proof.
  intros Hin Hw.
  assert (Hne : tokenize sentence <> [])
    by (destruct (tokenize sentence); [destruct Hin|discriminate]).
  destruct (@parse_nonempty _ cg (tokenize sentence) sentence eq_refl Hne)
    as (table & backpointer & _ & _ & Hcells & Hrun).
  cbv zeta in Hrun. rewrite Hrun.
  destruct (mem (cnf_start cg) (cell table 0 (length (tokenize sentence) - 1)))
    eqn:Hacc; [exfalso|reflexivity].
  apply mem_In, Hcells in Hacc.
  apply In_nth_error in Hin as (j & Hj).
  assert (Hlt : j < length (tokenize sentence))
    by (apply nth_error_Some; congruence).
  destruct (span_words Hacc (j := j)) as (B & t & Ht & Hp); [lia|].
  rewrite Hj in Ht. injection Ht as <-. exact (Hw B Hp).
Qed.

Lemma parse_unknown_word_witness :
  In "c" (tokenize "a c") /\
  (forall A, ~ has_prod (cnf_rules ab_grammar) A ["c"]) /\
  @parse insertion_order (CYKParser_init ab_grammar) "a c" = Ok (false, None).
Proof.
  assert (Hin : In "c" (tokenize "a c")) by (vm_compute; auto).
  assert (Hw : forall A, ~ has_prod (cnf_rules ab_grammar) A ["c"]).
  { intros A (ps & Hps & Hp). simpl in Hps.
    destruct Hps as [E|[E|[E|[]]]]; injection E as <- <-;
      destruct Hp as [E|[]]; discriminate. }
  split; [exact Hin|]. split; [exact Hw|].
  exact (@parse_unknown_word insertion_order ab_grammar "a c" "c" Hin Hw).
Defined.

Lemma build_reverse_grammar_nonempty (g : rules_t) (key : production) vars :
  dict_get (_build_reverse_grammar g) key = Some vars -> vars <> [].
Proof.
  unfold _build_reverse_grammar. revert key vars.
  apply (@fold_left_invariant _ _ _
           (fun reverse : dict production (list string) =>
              forall key vars, dict_get reverse key = Some vars -> vars <> [])).
  - intros reverse [var productions] _ Hrev.
    apply (@fold_left_invariant _ _ _
             (fun reverse : dict production (list string) =>
                forall key vars, dict_get reverse key = Some vars -> vars <> []));
      [|exact Hrev].
    intros rev prod _ Hinv key vars. unfold dd_append.
    rewrite dict_get_set. case_key key prod E.
    + intros E'. injection E' as <-. destruct (dd_get rev prod); discriminate.
    + apply Hinv.
  - intros key vars E. discriminate.
Qed.

(** X7. The reverse index that [__init__] builds holds, under the body
    [tuple(prod)], exactly the variables that have the production
    [prod]; a body of no production is not a key of it. *)
Theorem reverse_grammar_lookup (cg : cnf) (key : production) :
  (forall A, In A (dd_get (reverse_grammar (CYKParser_init cg)) key) <->
             has_prod (cnf_rules cg) A key) /\
  (dict_get (reverse_grammar (CYKParser_init cg)) key = None <->
   forall A, ~ has_prod (cnf_rules cg) A key).
Proof.
  cbn [reverse_grammar CYKParser_init].
  split; [intros A; apply In_build_reverse_grammar|].
  split.
  - intros Hnone A Hp. apply In_build_reverse_grammar in Hp.
    unfold dd_get in Hp. rewrite Hnone in Hp. destruct Hp.
  - intros Hno.
    destruct (dict_get (_build_reverse_grammar (cnf_rules cg)) key)
      as [vars|] eqn:E; [exfalso|reflexivity].
    pose proof (build_reverse_grammar_nonempty _ _ E) as Hne.
    destruct vars as [|A vars]; [congruence|].
    apply (Hno A). apply In_build_reverse_grammar.
    unfold dd_get. rewrite E. left; reflexivity.
Qed.

(** ** The tree is a derivation, and what is printed of it *)

Lemma build_tree_derivation (g : rules_t) (words : list string)
  (table : table_t) (backpointer : backpointer_t) :
  tables_ok g words (table, backpointer) ->
  forall j i A fuel,
    In A (cell table i j) -> j < fuel ->
    exists t,
      build_tree fuel backpointer A i (Z.of_nat j) = Ok (Some t) /\
      root t = A /\ derivation g t /\ length (leaves t) = j + 1.
Proof.
  intros Hst j. induction j as [j IH] using lt_wf_ind.
  intros i A fuel HA Hfuel.
  pose proof (tables_ok_sound Hst j i A HA) as Hspan.
  apply span_bounds in Hspan.
  pose proof Hst as [[_ [Hb Hbrow]] Hinv]. simpl in Hb, Hbrow, Hinv.
  destruct (Hinv i j A) as [Hnonempty Hentries].
  apply Hnonempty in HA.
  destruct fuel as [|fuel]; [lia|]. simpl.
  rewrite (list_index_Ok backpointer []) by lia. simpl.
  rewrite py_index_of_nat.
  rewrite (list_index_Ok (nth i backpointer []) []) by (rewrite Hbrow; lia).
  simpl. fold (bcell backpointer i j A).
  destruct (bcell backpointer i j A) as [|e es]; [congruence|].
  specialize (Hentries e (or_introl eq_refl)).
  destruct e as [t|B C k ls rs]; simpl in Hentries.
  - destruct Hentries as (-> & Ht & Hp). simpl.
    eexists; split; [reflexivity|]. split; [reflexivity|].
    split; [exact Hp|reflexivity].
  - destruct Hentries as (Hk & -> & -> & Hn & HB & HC & Hp).
    destruct j as [|j]; [lia|].
    change (Z.of_nat (S j) =? 0)%Z with false. cbv iota.
    replace (Z.of_nat (S j) - Z.of_nat k - 1)%Z
      with (Z.of_nat (S j - k - 1)) by lia.
    destruct (IH k ltac:(lia) i B fuel HB ltac:(lia))
      as (tl & Hl & Hrl & Hdl & Hll).
    rewrite Hl; cbn [bind].
    destruct (IH (S j - k - 1) ltac:(lia) (i + k + 1) C fuel HC ltac:(lia))
      as (tr & Hr & Hrr & Hdr & Hlr).
    rewrite Hr; cbn [bind].
    eexists; split; [reflexivity|]. split; [reflexivity|].
    cbn [derivation leaves]. rewrite Hrl, Hrr, length_app, Hll, Hlr.
    split; [auto|lia].
Qed.

Lemma derivation_nodes (g : rules_t) :
  forall t, derivation g t -> nodes t + 1 = 2 * length (leaves t).
Proof.
  fix IH 1. intros [A w|A [l|] [r|]]; simpl; intros Hd; try contradiction;
    [reflexivity|].
  destruct Hd as (_ & Hl & Hr). apply IH in Hl, Hr.
  rewrite length_app. lia.
Qed.

Lemma length_print_node :
  forall t indent, length (print_node t indent) = nodes t.
Proof.
  fix IH 1. intros [A w|A l r] indent; [reflexivity|].
  cbn [print_node nodes]. rewrite !length_app. cbn [length].
  destruct l as [l|], r as [r|]; rewrite ?IH; simpl; lia.
Qed.

Lemma parse_tree_built `{PySetOrder} (cg : cnf) (sentence : string)
  (data : option parse_data_t) :
  parse (CYKParser_init cg) sentence = Ok (true, data) ->
  exists t,
    build_parse_tree (CYKParser_init cg) data = Ok (Some t) /\
    root t = cnf_start cg /\ derivation (cnf_rules cg) t /\
    length (leaves t) = length (tokenize sentence).
Proof.
  intros Hrun.
  assert (Hne : tokenize sentence <> []).
  { intros E. unfold parse, fill_tables in Hrun. rewrite E in Hrun.
    discriminate. }
  destruct (@parse_nonempty _ cg (tokenize sentence) sentence eq_refl Hne)
    as (table & backpointer & _ & Hok & _ & Hrun').
  cbv zeta in Hrun'. rewrite Hrun' in Hrun.
  destruct (mem (cnf_start cg) (cell table 0 (length (tokenize sentence) - 1)))
    eqn:Hacc; [|discriminate].
  injection Hrun as <-. apply mem_In in Hacc.
  set (n := length (tokenize sentence)) in *.
  assert (Hn : 0 < n) by (unfold n; destruct (tokenize sentence);
                          [congruence|simpl; lia]).
  destruct (@build_tree_derivation _ _ table backpointer Hok (n - 1) 0
              (cnf_start cg) (S n) Hacc ltac:(lia))
    as (t & Ht & Hroot & Hd & Hlen).
  exists t. split; [|split; [exact Hroot|split; [exact Hd|lia]]].
  unfold build_parse_tree. fold n.
  replace (Z.of_nat n - 1)%Z with (Z.of_nat (n - 1)) by lia. exact Ht.
Qed.

(** X8. The tree that [build_parse_tree] returns for an accepted
    sentence is a derivation tree of the grammar: each leaf
    [{symbol: A, terminal: w}] is a production [A -> w], each inner
    node has two children (neither is [None]) and is a production of
    their two symbols. *)
Theorem parse_tree_derivation `{PySetOrder} (cg : cnf) (sentence : string)
  (data : option parse_data_t) :
  parse (CYKParser_init cg) sentence = Ok (true, data) ->
  exists t,
    build_parse_tree (CYKParser_init cg) data = Ok (Some t) /\
    derivation (cnf_rules cg) t.
Proof.
  intros Hrun.
  destruct (parse_tree_built _ _ Hrun) as (t & Ht & _ & Hd & _). eauto.
Qed.

Lemma parse_tree_derivation_witness :
  let self := CYKParser_init ab_grammar in
  let data := parse_data_of (@parse insertion_order self "a b") in
  @parse insertion_order self "a b" = Ok (true, data) /\
  exists t,
    build_parse_tree self data = Ok (Some t) /\
    derivation (cnf_rules ab_grammar) t.
Proof.
  cbv zeta. split; [vm_compute; reflexivity|].
  apply (@parse_tree_derivation insertion_order ab_grammar "a b").
  vm_compute; reflexivity.
Defined.

(** X9. For an accepted sentence of [n] words the tree has [n] leaves
    and [n - 1] inner nodes, and [print_tree] prints [2 n - 1] lines. *)
Theorem print_tree_lines `{PySetOrder} (cg : cnf) (sentence : string)
  (data : option parse_data_t) :
  parse (CYKParser_init cg) sentence = Ok (true, data) ->
  exists t,
    build_parse_tree (CYKParser_init cg) data = Ok (Some t) /\
    length (leaves t) = length (tokenize sentence) /\
    nodes t = 2 * length (tokenize sentence) - 1 /\
    length (print_tree (Some t) 0) = 2 * length (tokenize sentence) - 1.
Proof.
  intros Hrun.
  destruct (parse_tree_built _ _ Hrun) as (t & Ht & _ & Hd & Hlen).
  exists t. split; [exact Ht|]. split; [exact Hlen|].
  apply derivation_nodes in Hd. cbn [print_tree].
  rewrite length_print_node. lia.
Qed.

Lemma print_tree_lines_witness :
  let self := CYKParser_init ab_grammar in
  let data := parse_data_of (@parse insertion_order self "a b") in
  @parse insertion_order self "a b" = Ok (true, data) /\
  exists t,
    build_parse_tree self data = Ok (Some t) /\
    length (leaves t) = length (tokenize "a b") /\
    nodes t = 2 * length (tokenize "a b") - 1 /\
    length (print_tree (Some t) 0) = 2 * length (tokenize "a b") - 1.
Proof.
  cbv zeta. split; [vm_compute; reflexivity|].
  apply (@print_tree_lines insertion_order ab_grammar "a b").
  vm_compute; reflexivity.
Defined.

(** ** The commands that call the parser *)

(** X10. [test_user_sentence] raises no exception, whatever the line
    of ASCII text typed and the grammar: a line of white space only is
    turned away before [parse] is called, any other line has a word,
    and the tree of an accepted sentence is built and printed. *)
Theorem test_user_sentence_returns `{PySetOrder} (cg : cnf) (line : string) :
  is_ascii line = true ->
  exists r,
    test_user_sentence (CYKParser_init cg) line = Ok r /\
    (r = None <-> blank line = true).
Proof.
  intros _. unfold test_user_sentence. cbv zeta.
  destruct (String.eqb_spec (strip line) EmptyString) as [E|E].
  - exists None. split; [reflexivity|]. apply strip_empty in E. tauto.
  - assert (Hb : blank line = false).
    { destruct (blank line) eqn:Hb; [|reflexivity].
      apply strip_empty in Hb. contradiction. }
    assert (Hne : tokenize (strip line) <> []).
    { intros Ht. apply tokenize_nil in Ht. rewrite blank_strip in Ht.
      congruence. }
    destruct (@parse_nonempty _ cg (tokenize (strip line)) (strip line)
                eq_refl Hne) as (table & backpointer & _ & _ & _ & Hrun).
    cbv zeta in Hrun. rewrite Hrun. cbn [bind].
    destruct (mem (cnf_start cg)
                  (cell table 0 (length (tokenize (strip line)) - 1))) eqn:Hacc.
    + destruct (parse_tree_built _ _ Hrun) as (t & Ht & _).
      rewrite Ht. cbn [bind]. eexists. split; [reflexivity|].
      rewrite Hb. split; discriminate.
    + eexists. split; [reflexivity|]. rewrite Hb. split; discriminate.
Qed.

Lemma test_user_sentence_returns_witness :
  is_ascii " a b " = true /\
  exists r,
    @test_user_sentence insertion_order (CYKParser_init ab_grammar) " a b "
    = Ok r /\
    (r = None <-> blank " a b " = true).
Proof.
  split; [reflexivity|].
  exact (@test_user_sentence_returns insertion_order ab_grammar " a b "
           eq_refl).
Defined.

(** X11. [run_examples] raises no exception whatever the grammar of the
    parser, and reports one verdict per example. *)
Theorem run_examples_returns `{PySetOrder} (cg : cnf) :
  exists out,
    run_examples (CYKParser_init cg) = Ok out /\
    length out = length test_sentences.
Proof.
  unfold run_examples.
  match goal with
  | |- context [for_each ?xs ?body ?s] =>
      assert (Hloop : exists s',
                 for_each xs body s = Ok s' /\
                 (fun pre (out : list (bool * list string)) =>
                    length out = length pre) xs s');
      [apply (@for_each_prefix _ _
                (fun pre (out : list (bool * list string)) =>
                   length out = length pre) xs body)|exact Hloop]
  end.
  - intros pre sentence post out Hxs Hout.
    assert (Hb : blank sentence = false).
    { assert (Hin : In sentence test_sentences)
        by (rewrite Hxs; apply in_or_app; right; left; reflexivity).
      simpl in Hin.
      repeat (destruct Hin as [<-|Hin]; [reflexivity|]). destruct Hin. }
    assert (Hne : tokenize sentence <> []).
    { intros Ht. apply tokenize_nil in Ht. congruence. }
    destruct (@parse_nonempty _ cg (tokenize sentence) sentence eq_refl Hne)
      as (table & backpointer & _ & _ & _ & Hrun).
    cbv zeta in Hrun. rewrite Hrun. cbn [bind].
    destruct (mem (cnf_start cg)
                  (cell table 0 (length (tokenize sentence) - 1))) eqn:Hacc.
    + destruct (parse_tree_built _ _ Hrun) as (t & Ht & _).
      rewrite Ht. cbn [bind]. eexists. split; [reflexivity|].
      rewrite !length_app, Hout. reflexivity.
    + eexists. split; [reflexivity|]. rewrite !length_app, Hout. reflexivity.
  - reflexivity.
Qed.

(* ================================================================= *)
(** * The passes of the conversion, one by one *)

(** ** Pass 1 *)

Lemma fold_dict_set_other {V W} (f : W -> V) (l : list (string * W)) :
  forall (d : dict string V) k,
    ~ In k (map fst l) ->
    dict_get (fold_left (fun g '(var, x) => dict_set g var (f x)) l d) k
    = dict_get d k.
Proof.
  induction l as [|[var x] l IH]; intros d k Hk; simpl; [reflexivity|].
  simpl in Hk. rewrite IH by tauto. rewrite dict_get_set.
  case_key k var E; [subst; tauto|reflexivity].
Qed.

Lemma fold_dict_set_get {V W} (f : W -> V) (l : list (string * W)) :
  NoDup (map fst l) ->
  forall (d : dict string V) k x,
    In (k, x) l ->
    dict_get (fold_left (fun g '(var, x) => dict_set g var (f x)) l d) k
    = Some (f x).
Proof.
  induction l as [|[var y] l IH]; intros Hnd d k x Hin; [destruct Hin|].
  simpl in Hnd. inversion Hnd as [|? ? Hvar Hnd']; subst. simpl.
  destruct Hin as [E|Hin].
  - injection E as -> ->. rewrite fold_dict_set_other by exact Hvar.
    apply dict_get_set_eq.
  - apply IH; assumption.
Qed.

Lemma fold_dict_set_keys {V W} (f : W -> V) (l : list (string * W)) :
  forall d : dict string V,
    NoDup (keys d ++ map fst l) ->
    keys (fold_left (fun g '(var, x) => dict_set g var (f x)) l d)
    = keys d ++ map fst l.
Proof.
  induction l as [|[var x] l IH]; intros d Hnd; simpl.
  - rewrite app_nil_r. reflexivity.
  - simpl in Hnd.
    assert (Hvar : dict_mem d var = false).
    { apply dict_mem_not_In. intros Hin.
      apply NoDup_remove_2 in Hnd. apply Hnd. apply in_or_app; auto. }
    assert (Hk : keys (dict_set d var (f x)) = keys d ++ [var])
      by (rewrite keys_dict_set, Hvar; reflexivity).
    rewrite IH; rewrite Hk, <- app_assoc; [reflexivity|].
    simpl. revert Hnd. clear. intros Hnd.
    apply NoDup_remove in Hnd as [Hnd Hvar].
    apply NoDup_app_remove_l in Hnd as Hl.
    induction (keys d) as [|a ks IHk]; simpl in *.
    + constructor; assumption.
    + inversion Hnd as [|? ? Ha Hnd']; subst. constructor.
      * intros Hin. apply in_app_or in Hin as [Hin|[<-|Hin]].
        -- apply Ha. apply in_or_app; auto.
        -- apply Hvar. left; reflexivity.
        -- apply Ha. apply in_or_app; auto.
      * apply IHk; [assumption|]. intros Hin. apply Hvar. right; exact Hin.
Qed.

(** X12. After [eliminate_start_symbol] each non-terminal of the input
    has its rule strings split into symbols. The new start rule
    [S0 -> start] is there, first, when the input has no non-terminal
    named [S0]; otherwise the assignment of the rules of [S0] overwrites
    it, and [S0] has the productions of the input only. *)
Theorem eliminate_start_symbol_rules (G : cfg) :
  NoDup (keys (rules G)) ->
  let g1 := grammar (eliminate_start_symbol (CFGtoCNF_init G)) in
  (forall var prods,
      In (var, prods) (rules G) -> dict_get g1 var = Some (map split prods)) /\
  (~ In "S0" (keys (rules G)) ->
   dict_get g1 "S0" = Some [[start G]] /\ keys g1 = "S0" :: keys (rules G)).
Proof.
  intros Hnd. cbv zeta. unfold eliminate_start_symbol.
  cbn [grammar with_grammar with_start_symbol CFGtoCNF_init original_grammar
       start_symbol dict_set].
  split.
  - intros var prods Hin.
    apply (@fold_dict_set_get _ _ (map split) (rules G) Hnd _ _ _ Hin).
  - intros HS0. split.
    + rewrite (@fold_dict_set_other _ _ (map split) (rules G) _ "S0" HS0).
      reflexivity.
    + rewrite (@fold_dict_set_keys _ _ (map split) (rules G)); [reflexivity|].
      simpl. constructor; assumption.
Qed.

Lemma eliminate_start_symbol_rules_witness :
  NoDup (keys (rules anbn_grammar)) /\
  let g1 := grammar (eliminate_start_symbol (CFGtoCNF_init anbn_grammar)) in
  (forall var prods,
      In (var, prods) (rules anbn_grammar) ->
      dict_get g1 var = Some (map split prods)) /\
  (~ In "S0" (keys (rules anbn_grammar)) ->
   dict_get g1 "S0" = Some [[start anbn_grammar]] /\
   keys g1 = "S0" :: keys (rules anbn_grammar)).
Proof.
  assert (Hnd : NoDup (keys (rules anbn_grammar)))
    by (repeat constructor; intros []).
  split; [exact Hnd|]. exact (eliminate_start_symbol_rules anbn_grammar Hnd).
Defined.

(** ** Pass 2 *)

Lemma nullable_pass_contains (g : rules_t) (nl : list string) var ps :
  In (var, ps) g -> In [] ps -> In var (fst (nullable_pass g nl)).
Proof.
  intros Hin Hnil. unfold nullable_pass.
  match goal with
  | |- context [fold_left ?f ?l ?init] =>
      destruct (@fold_left_progress _ _
                  (fun _ : list string * bool => True)
                  (fun a b : list string * bool => incl (fst a) (fst b))
                  (fun (x : string * list production) (a : list string * bool) =>
                     In [] (snd x) -> In (fst x) (fst a))
                  f l) with (a := init) as (_ & _ & HQ)
  end.
  - intros a x Hx; exact Hx.
  - intros a b c Hab Hbc x Hx. auto.
  - intros x a b Hq Hab Hx. apply Hab. auto.
  - intros [v qs] [nl' ch] _ _. cbn [fst snd].
    destruct (mem v nl') eqn:Ev; cbn [negb].
    + split; [exact I|]. split; [intros x Hx; exact Hx|].
      intros _. apply mem_In; exact Ev.
    + destruct (existsb _ qs) eqn:Eq.
      * split; [exact I|]. cbn [fst]. split.
        -- intros x Hx. apply In_set_add. auto.
        -- intros _. apply In_set_add. auto.
      * split; [exact I|]. split; [intros x Hx; exact Hx|].
        intros Hq. exfalso.
        assert (Ht : existsb (fun prod : production =>
                                forallb (fun symbol => mem symbol nl') prod) qs
                     = true)
          by (apply existsb_exists; exists []; split; [exact Hq|reflexivity]).
        congruence.
  - exact I.
  - exact (HQ (var, ps) Hin Hnil).
Qed.

Lemma append_all_filter (keep : production -> bool) (nullable : list string)
  (l : list (string * production)) : forall ng : rules_t,
  fold_left
    (fun st vp =>
       if keep (snd vp)
       then _generate_combinations st (fst vp) (snd vp) nullable
       else st)
    l ng
  = append_all (filter (fun vp => keep (snd vp)) l) ng.
Proof.
  induction l as [|[var p] l IH]; intros ng; simpl; [reflexivity|].
  rewrite IH. destruct (keep p); reflexivity.
Qed.

Lemma dd_get_append_all (items : list (string * production)) : forall ng A,
  dd_get (append_all items ng) A
  = dd_get ng A ++ map snd (filter (fun x => keqb A (fst x)) items).
Proof.
  induction items as [|[B q] items IH]; intros ng A.
  - simpl. rewrite app_nil_r. reflexivity.
  - change (append_all ((B, q) :: items) ng)
      with (append_all items (dd_append ng B q)).
    rewrite IH, dd_get_append. cbn [filter fst].
    case_key A B E; cbn [map snd].
    + subst B. rewrite <- app_assoc. reflexivity.
    + reflexivity.
Qed.

Lemma filter_pair_same (A : string) (ps : list production) :
  filter (fun x : string * production => keqb A (fst x)) (map (pair A) ps)
  = map (pair A) ps.
Proof.
  induction ps as [|p ps IH]; [reflexivity|]. cbn [map filter fst].
  rewrite (keqb_refl A), IH. reflexivity.
Qed.

Lemma filter_pair_other (A k : string) (ps : list production) :
  A <> k ->
  filter (fun x : string * production => keqb A (fst x)) (map (pair k) ps) = [].
Proof.
  intros E. apply keqb_neq in E.
  induction ps as [|p ps IH]; [reflexivity|]. cbn [map filter fst].
  rewrite E. exact IH.
Qed.

Lemma filter_flat (g : rules_t) A :
  NoDup (keys g) ->
  filter (fun x : string * production => keqb A (fst x)) (flat g)
  = map (pair A) (dd_get g A).
Proof.
  unfold flat, dd_get. induction g as [|[k ps] g IH]; intros Hnd;
    [reflexivity|].
  simpl in Hnd. inversion Hnd as [|? ? Hk Hnd']; subst.
  cbn [flat_map dict_get fst snd]. rewrite filter_app, (IH Hnd').
  case_key A k E.
  - subst k.
    assert (Hnone : dict_get g A = None) by (apply dict_get_None; exact Hk).
    rewrite Hnone, filter_pair_same. cbn [map]. apply app_nil_r.
  - rewrite (filter_pair_other ps E). reflexivity.
Qed.

Lemma map_filter_filter {A B} (f : A -> B) (P : A -> bool) (K : B -> bool)
  (l : list A) :
  map f (filter P (filter (fun x => K (f x)) l))
  = filter K (map f (filter P l)).
Proof.
  induction l as [|a l IH]; [reflexivity|]. cbn [filter].
  destruct (K (f a)) eqn:E1; destruct (P a) eqn:E2; cbn [filter map];
    rewrite ?E1, ?E2; cbn [map]; rewrite ?IH; reflexivity.
Qed.

Lemma In_keys_append_all (items : list (string * production)) : forall ng k,
  In k (keys (append_all items ng)) <-> In k (keys ng) \/ In k (map fst items).
Proof.
  induction items as [|[B q] items IH]; intros ng k; simpl; [tauto|].
  unfold append_all in *. simpl. rewrite IH, In_keys_dd_append.
  intuition.
Qed.

(** A key of a dictionary filled by [append] has a value that is not
    empty. *)
Lemma keys_append_all_nonempty (items : list (string * production)) v :
  In v (keys (append_all items [])) <-> dd_get (append_all items []) v <> [].
Proof.
  rewrite In_keys_append_all. split.
  - intros [[]|Hv]. apply in_map_iff in Hv as ([B q] & <- & Hq).
    assert (Hq' : In q (dd_get (append_all items []) B))
      by (apply In_append_all; right; exact Hq).
    cbn [fst]. intros Hnone. rewrite Hnone in Hq'. destruct Hq'.
  - intros Hne. right.
    destruct (dd_get (append_all items []) v) as [|q qs] eqn:Eq; [congruence|].
    assert (Hq : In q (dd_get (append_all items []) v))
      by (rewrite Eq; left; reflexivity).
    apply In_append_all in Hq as [[]|Hq].
    apply (in_map fst) in Hq. exact Hq.
Qed.

(** X13. [eliminate_epsilon_productions] always returns (its loop ends
    within one round per non-terminal, plus one). When some production
    is empty it rebuilds the grammar: each non-terminal keeps its
    productions, in order, except those equal to [['']], and a
    non-terminal left without any production loses its entry. The empty
    productions themselves are kept. *)
Theorem eliminate_epsilon_productions_rebuilds (self : CFGtoCNF) :
  NoDup (keys (grammar self)) ->
  (exists var ps, In (var, ps) (grammar self) /\ In [] ps) ->
  exists self',
    eliminate_epsilon_productions self = Ok self' /\
    (forall var,
        dd_get (grammar self') var
        = filter (fun p => negb (keqb p [""])) (dd_get (grammar self) var)) /\
    (forall var, In var (keys (grammar self')) <->
                 dd_get (grammar self') var <> []).
Proof.
  intros Hnd (var & ps & Hin & Hnil). unfold eliminate_epsilon_productions.
  destruct (@while_changed_terminates _ (nullable_pass (grammar self))
              (fun nl => NoDup nl /\ incl nl (keys (grammar self)))
              (@length string) (length (grammar self)))
    with (fuel := S (length (grammar self))) (s := @nil string)
    as (s0 & nl & Hrun & _ & Hlast).
  - intros nl [Hnl Hincl].
    replace (length (grammar self)) with (length (keys (grammar self)))
      by apply length_map.
    apply NoDup_incl_length; assumption.
  - intros nl [Hnl Hincl].
    destruct (@nullable_pass_inv (grammar self) nl Hnl Hincl) as (? & ? & ?).
    auto.
  - split; [constructor|]. intros a [].
  - simpl; lia.
  - rewrite Hrun. cbn [bind].
    assert (Hvar : In var nl).
    { replace nl with (fst (nullable_pass (grammar self) s0))
        by (rewrite Hlast; reflexivity).
      eapply nullable_pass_contains; eauto. }
    destruct nl as [|x nl]; [destruct Hvar|].
    eexists. split; [reflexivity|]. cbn [grammar with_grammar].
    rewrite (fold_left_flat
               (fun var (st : rules_t) prod =>
                  if negb (keqb prod [""])
                  then _generate_combinations st var prod (x :: nl)
                  else st)).
    rewrite (append_all_filter (fun p => negb (keqb p [""])) (x :: nl)).
    split.
    + intros v. rewrite dd_get_append_all. cbn [dd_get dict_get app].
      assert (E : dd_get (grammar self) v
                  = map snd (filter (fun x : string * production =>
                                       keqb v (fst x)) (flat (grammar self)))).
      { rewrite (@filter_flat (grammar self) v Hnd), map_map. cbn [snd].
        symmetry. apply map_id. }
      rewrite E.
      apply (map_filter_filter snd (fun x : string * production => keqb v (fst x))
                               (fun p : production => negb (keqb p [""]))).
    + intros v. apply keys_append_all_nonempty.
Qed.

Lemma eliminate_epsilon_productions_rebuilds_witness :
  let self := eliminate_start_symbol (CFGtoCNF_init blank_grammar) in
  NoDup (keys (grammar self)) /\
  (exists var ps, In (var, ps) (grammar self) /\ In [] ps) /\
  exists self',
    eliminate_epsilon_productions self = Ok self' /\
    (forall var,
        dd_get (grammar self') var
        = filter (fun p => negb (keqb p [""])) (dd_get (grammar self) var)) /\
    (forall var, In var (keys (grammar self')) <->
                 dd_get (grammar self') var <> []).
Proof.
  cbv zeta.
  assert (Hnd : NoDup (keys (grammar (eliminate_start_symbol
                                         (CFGtoCNF_init blank_grammar))))).
  { vm_compute. repeat constructor; simpl; intuition discriminate. }
  assert (Hex : exists var ps,
             In (var, ps) (grammar (eliminate_start_symbol
                                      (CFGtoCNF_init blank_grammar))) /\
             In [] ps).
  { exists "S", [[]]. vm_compute. auto. }
  split; [exact Hnd|]. split; [exact Hex|].
  exact (eliminate_epsilon_productions_rebuilds _ Hnd Hex).
Defined.

(** ** Pass 3 *)

Lemma eliminate_unit_productions_inversion `{PySetOrder} (self self' : CFGtoCNF) :
  NoDup (keys (grammar self)) ->
  eliminate_unit_productions self = Ok self' ->
  no_empty_production (grammar self) /\
  NoDup (keys (grammar self')) /\
  incl (keys (grammar self')) (keys (grammar self)) /\
  forall var p,
    In p (dd_get (grammar self') var) <->
    exists B, unit_reach (grammar self) var B /\
              In p (dd_get (grammar self) B) /\
              non_unit (grammar self) p.
Proof.
  intros Hnd Hrun.
  destruct (eliminate_unit_productions_spec self Hnd) as [Hok Hraise].
  destruct (empty_production_dec (grammar self)) as [Hne|Hempty].
  - destruct (Hok Hne) as (ng & Hrun' & Hnd' & Hincl & _ & Hspec).
    rewrite Hrun' in Hrun. injection Hrun as <-. auto.
  - rewrite (Hraise Hempty) in Hrun. discriminate.
Qed.

(** X14. On a dictionary, [eliminate_unit_productions] returns when no
    production is empty (the loop of the unit pairs ends within one
    round per pair of non-terminals, plus one) and raises [IndexError],
    at [prod[0]], when some production is empty. *)
Theorem eliminate_unit_productions_outcome `{PySetOrder} (self : CFGtoCNF) :
  NoDup (keys (grammar self)) ->
  (no_empty_production (grammar self) ->
   exists self', eliminate_unit_productions self = Ok self') /\
  ((exists var ps, In (var, ps) (grammar self) /\ In [] ps) ->
   eliminate_unit_productions self = Raise IndexError).
Proof.
  intros Hnd.
  destruct (eliminate_unit_productions_spec self Hnd) as [Hok Hraise].
  split; [|exact Hraise].
  intros Hne. destruct (Hok Hne) as (ng & Hrun & _). eauto.
Qed.

Lemma eliminate_unit_productions_outcome_witness :
  let self := eliminate_start_symbol (CFGtoCNF_init blank_grammar) in
  NoDup (keys (grammar self)) /\
  (exists var ps, In (var, ps) (grammar self) /\ In [] ps) /\
  @eliminate_unit_productions insertion_order self = Raise IndexError.
Proof.
  cbv zeta.
  assert (Hnd : NoDup (keys (grammar (eliminate_start_symbol
                                         (CFGtoCNF_init blank_grammar))))).
  { vm_compute. repeat constructor; simpl; intuition discriminate. }
  assert (Hex : exists var ps,
             In (var, ps) (grammar (eliminate_start_symbol
                                      (CFGtoCNF_init blank_grammar))) /\
             In [] ps).
  { exists "S", [[]]. vm_compute. auto. }
  split; [exact Hnd|]. split; [exact Hex|].
  exact (proj2 (@eliminate_unit_productions_outcome insertion_order _ Hnd) Hex).
Defined.

(** X15. When [eliminate_unit_productions] returns, the productions of
    a non-terminal [var] in the new grammar are exactly the productions
    of the non-terminals reached from [var] through unit productions
    ([var] among them) that have two symbols or more, or one symbol
    that is not a non-terminal; the non-terminals of the new grammar
    are non-terminals of the old one. *)
Theorem eliminate_unit_productions_exact `{PySetOrder} (self self' : CFGtoCNF) :
  NoDup (keys (grammar self)) ->
  eliminate_unit_productions self = Ok self' ->
  incl (keys (grammar self')) (keys (grammar self)) /\
  forall var p,
    In p (dd_get (grammar self') var) <->
    exists B, unit_reach (grammar self) var B /\
              In p (dd_get (grammar self) B) /\
              (1 < length p \/
               exists s, p = [s] /\ ~ In s (keys (grammar self))).
Proof.
  intros Hnd Hrun.
  destruct (@eliminate_unit_productions_inversion _ self self' Hnd Hrun)
    as (_ & _ & Hincl & Hspec).
  split; [exact Hincl|exact Hspec].
Qed.

Lemma eliminate_unit_productions_exact_witness :
  let self := eliminate_start_symbol (CFGtoCNF_init anbn_grammar) in
  exists self',
    NoDup (keys (grammar self)) /\
    @eliminate_unit_productions insertion_order self = Ok self' /\
    incl (keys (grammar self')) (keys (grammar self)) /\
    forall var p,
      In p (dd_get (grammar self') var) <->
      exists B, unit_reach (grammar self) var B /\
                In p (dd_get (grammar self) B) /\
                (1 < length p \/
                 exists s, p = [s] /\ ~ In s (keys (grammar self))).
Proof.
  cbv zeta. eexists.
  assert (Hnd : NoDup (keys (grammar (eliminate_start_symbol
                                         (CFGtoCNF_init anbn_grammar))))).
  { vm_compute. repeat constructor; simpl; intuition discriminate. }
  split; [exact Hnd|]. split; [vm_compute; reflexivity|].
  apply (@eliminate_unit_productions_exact insertion_order _ _ Hnd).
  vm_compute; reflexivity.
Defined.

(** X16. [eliminate_unit_productions] keeps the language of every
    non-terminal: what a symbol derives in the old grammar, where a
    body [[B]] with [B] a non-terminal is a unit production, it derives
    in the new grammar, where no body of one symbol is one, and
    conversely. *)
Theorem eliminate_unit_productions_language `{PySetOrder}
  (self self' : CFGtoCNF) (words : list string) (A : string) (i len : nat) :
  NoDup (keys (grammar self)) ->
  eliminate_unit_productions self = Ok self' ->
  (sgen no_unit (grammar self') words A i len <->
   sgen (key_of (grammar self)) (grammar self) words A i len).
Proof.
  intros Hnd Hrun.
  destruct (@eliminate_unit_productions_inversion _ self self' Hnd Hrun)
    as (_ & _ & _ & Hspec).
  split.
  - apply (proj1 (@unit_language_sound (grammar self) (grammar self') words
                    Hspec)).
  - apply (proj1 (@unit_language_complete (grammar self) (grammar self') words
                    Hspec)).
Qed.

Lemma eliminate_unit_productions_language_witness :
  let self := eliminate_start_symbol (CFGtoCNF_init anbn_grammar) in
  exists self',
    NoDup (keys (grammar self)) /\
    @eliminate_unit_productions insertion_order self = Ok self' /\
    (sgen no_unit (grammar self') ["a"; "b"] "S0" 0 2 <->
     sgen (key_of (grammar self)) (grammar self) ["a"; "b"] "S0" 0 2).
Proof.
  cbv zeta. eexists.
  assert (Hnd : NoDup (keys (grammar (eliminate_start_symbol
                                         (CFGtoCNF_init anbn_grammar))))).
  { vm_compute. repeat constructor; simpl; intuition discriminate. }
  split; [exact Hnd|]. split; [vm_compute; reflexivity|].
  apply (@eliminate_unit_productions_language insertion_order _ _
           ["a"; "b"] "S0" 0 2 Hnd).
  vm_compute; reflexivity.
Defined.

(** ** Pass 4 *)

Section TerminalsOrigin.
Variable g : rules_t.

(** The invariant of the loops of pass 4, whatever the names in [g]. *)
Local Abbreviation origin_inv :=
  (fun st : rules_t * dict string string =>
     (forall t X, dict_get (snd st) t = Some X -> exists k, X = format_X k) /\
     (forall A q, In q (dd_get (fst st) A) -> terminals_origin g A q)).

Lemma convert_symbol_origin var q0 ng tv self new_prod symbol :
  In (var, q0) (flat g) -> length q0 <> 1 -> In symbol q0 ->
  origin_inv (ng, tv) ->
  (forall s, In s new_prod -> from_body q0 s) ->
  exists ng' tv' self' new_prod',
    convert_symbol (ng, tv, self, new_prod) symbol
    = (ng', tv', self', new_prod') /\
    origin_inv (ng', tv') /\
    (forall s, In s new_prod' -> from_body q0 s) /\
    length new_prod' = S (length new_prod).
Proof.
  intros Hq0 Hlen Hsym [Htv Hng] Hnp. cbn [fst snd] in *.
  unfold convert_symbol. destruct (is_terminal symbol) eqn:Et.
  - destruct (dict_get tv symbol) as [X|] eqn:EX.
    + exists ng, tv, self, (new_prod ++ [X]). split; [reflexivity|].
      split; [split; assumption|]. split.
      * intros s Hs. apply in_app_or in Hs as [Hs|[<-|[]]]; [auto|].
        destruct (Htv symbol X EX) as (k & ->).
        split; [apply is_terminal_format_X|eauto].
      * rewrite length_app. simpl. lia.
    + destruct (get_new_variable_spec self) as (HX & _).
      destruct (get_new_variable self) as [X self'] eqn:EG.
      cbn [fst] in HX.
      exists (dict_set ng X [[symbol]]), (dict_set tv symbol X), self',
             (new_prod ++ [X]).
      split; [reflexivity|]. split; [split|split].
      * intros t Y. cbn [snd]. rewrite dict_get_set. case_key t symbol E.
        -- intros E'. injection E' as <-. eauto.
        -- apply Htv.
      * intros A q. cbn [fst]. rewrite dd_get_set. case_key A X E.
        -- intros [<-|[]]. right. left. exists symbol, var, q0.
           subst A. repeat (split; [eauto|]). assumption.
        -- apply Hng.
      * intros s Hs. apply in_app_or in Hs as [Hs|[<-|[]]]; [auto|].
        rewrite HX. split; [apply is_terminal_format_X|eauto].
      * rewrite length_app. simpl. lia.
  - exists ng, tv, self, (new_prod ++ [symbol]). split; [reflexivity|].
    split; [split; assumption|]. split.
    + intros s Hs. apply in_app_or in Hs as [Hs|[<-|[]]]; [auto|].
      split; [exact Et|auto].
    + rewrite length_app. simpl. lia.
Qed.

Lemma convert_symbols_origin var q0 : forall prod ng tv self new_prod,
  In (var, q0) (flat g) -> length q0 <> 1 -> incl prod q0 ->
  origin_inv (ng, tv) ->
  (forall s, In s new_prod -> from_body q0 s) ->
  exists ng' tv' self' new_prod',
    fold_left convert_symbol prod (ng, tv, self, new_prod)
    = (ng', tv', self', new_prod') /\
    origin_inv (ng', tv') /\
    (forall s, In s new_prod' -> from_body q0 s) /\
    length new_prod' = length new_prod + length prod.
Proof.
  induction prod as [|s prod IH]; intros ng tv self np Hq0 Hlen Hincl Hinv Hnp;
    cbn [fold_left].
  - exists ng, tv, self, np. split; [reflexivity|].
    split; [exact Hinv|]. split; [exact Hnp|simpl; lia].
  - destruct (@convert_symbol_origin var q0 ng tv self np s Hq0 Hlen)
      as (ng1 & tv1 & self1 & np1 & E1 & Hinv1 & Hnp1 & Hl1);
      [apply Hincl; left; reflexivity|exact Hinv|exact Hnp|].
    match goal with
    | |- context [fold_left convert_symbol prod ?t] =>
        replace t with (ng1, tv1, self1, np1) by (symmetry; exact E1)
    end.
    destruct (IH ng1 tv1 self1 np1 Hq0 Hlen) as
      (ng2 & tv2 & self2 & np2 & E2 & Hinv2 & Hnp2 & Hl2);
      [intros x Hx; apply Hincl; right; exact Hx|exact Hinv1|exact Hnp1|].
    exists ng2, tv2, self2, np2. split; [exact E2|].
    split; [exact Hinv2|]. split; [exact Hnp2|]. simpl. lia.
Qed.

Lemma convert_production_origin var ng tv self prod :
  In (var, prod) (flat g) -> origin_inv (ng, tv) ->
  exists ng' tv' self',
    convert_production var (ng, tv, self) prod = (ng', tv', self') /\
    origin_inv (ng', tv').
Proof.
  intros Hin Hinv. unfold convert_production.
  destruct (Nat.eqb_spec (length prod) 1) as [Hlen|Hlen].
  - exists (dd_append ng var prod), tv, self. split; [reflexivity|].
    destruct Hinv as [Htv Hng]. split; [exact Htv|]. cbn [fst snd] in *.
    intros A q Hq. apply In_dd_get_append in Hq as [Hq|[-> ->]]; [auto|].
    left. auto.
  - destruct (@convert_symbols_origin var prod prod ng tv self [] Hin Hlen)
      as (ng1 & tv1 & self1 & np & E1 & [Htv Hng] & Hnp & Hl);
      [intros x Hx; exact Hx|exact Hinv|intros s []|].
    cbn [fst snd] in *.
    exists (dd_append ng1 var np), tv1, self1. split.
    { match goal with
      | |- context [fold_left convert_symbol prod ?t] =>
          replace (fold_left convert_symbol prod t)
            with (ng1, tv1, self1, np) by (symmetry; exact E1)
      end. reflexivity. }
    split; [exact Htv|]. cbn [fst snd].
    intros A q Hq. apply In_dd_get_append in Hq as [Hq|[-> ->]]; [auto|].
    right. right. exists prod. auto.
Qed.

Lemma convert_terminals_origin_inv (self : CFGtoCNF) :
  grammar self = g ->
  forall A q, In q (dd_get (grammar (convert_terminals self)) A) ->
              terminals_origin g A q.
Proof.
  intros Hg. unfold convert_terminals, convert_terminals_loop.
  rewrite fold_left_flat, Hg.
  match goal with
  | |- context [fold_left ?f ?l ?init] =>
      assert (HP : origin_inv (fst (fold_left f l init)))
  end.
  { apply (@fold_left_invariant _ _ _
             (fun st : rules_t * dict string string * CFGtoCNF =>
                origin_inv (fst st))).
    - intros [[ng tv] self1] [var prod] Hin Hst. cbn [fst snd] in Hst |- *.
      destruct (@convert_production_origin var ng tv self1 prod Hin Hst)
        as (ng' & tv' & self' & E & Hinv').
      match goal with
      | |- context [convert_production ?v ?t ?p] =>
          replace (convert_production v t p) with (ng', tv', self')
            by (symmetry; exact E)
      end.
      exact Hinv'.
    - cbn [fst snd]. split; [intros t X E; discriminate|intros A q []]. }
  destruct (fold_left _ _ _) as [[ng tv] self']. cbn [fst snd] in HP.
  cbn [grammar with_grammar]. exact (proj2 HP).
Qed.

End TerminalsOrigin.

(** X17. Whatever the names in the grammar, each production that
    [convert_terminals] writes is a production of one symbol of the old
    grammar, or the production [X -> t] of a generated name for a
    lowercase symbol [t] of a longer body, or has the length of a
    longer production of the same non-terminal and is made of generated
    names and of symbols of that production that are not lowercase: no
    body of two symbols or more holds a terminal. *)
Theorem convert_terminals_origin (self : CFGtoCNF) (A : string)
  (q : production) :
  In q (dd_get (grammar (convert_terminals self)) A) ->
  terminals_origin (grammar self) A q /\
  (2 <= length q -> forall s, In s q -> is_terminal s = false).
Proof.
  intros Hq.
  pose proof (@convert_terminals_origin_inv (grammar self) self eq_refl A q Hq)
    as Ho.
  split; [exact Ho|]. intros Hlen s Hs.
  destruct Ho as [[Hl _]|[(t & B & q0 & -> & _)|(q0 & _ & _ & _ & Hfrom)]].
  - lia.
  - simpl in Hlen. lia.
  - exact (proj1 (Hfrom s Hs)).
Qed.

Lemma convert_terminals_origin_witness :
  let self := with_grammar (CFGtoCNF_init anbn_grammar)
                           [("S", [["a"; "S"; "b"]; ["a"; "b"]])] in
  In ["X1"; "S"; "X2"] (dd_get (grammar (convert_terminals self)) "S") /\
  terminals_origin (grammar self) "S" ["X1"; "S"; "X2"] /\
  (2 <= length ["X1"; "S"; "X2"] ->
   forall s, In s ["X1"; "S"; "X2"] -> is_terminal s = false).
Proof.
  cbv zeta.
  assert (Hin : In ["X1"; "S"; "X2"]
                   (dd_get (grammar (convert_terminals
                                       (with_grammar (CFGtoCNF_init anbn_grammar)
                                          [("S", [["a"; "S"; "b"]; ["a"; "b"]])])))
                           "S")) by (vm_compute; auto).
  split; [exact Hin|]. exact (convert_terminals_origin _ _ _ Hin).
Defined.

(** X18. When the non-terminals of the grammar are distinct, no
    production is empty, and no non-terminal and no symbol of a body of
    two symbols or more is a name generated after the current counter,
    [convert_terminals] keeps the language of every symbol that is not
    such a name. *)
Theorem convert_terminals_keeps_language (self : CFGtoCNF)
  (words : list string) (A : string) (i len : nat) :
  NoDup (keys (grammar self)) -> no_empty_production (grammar self) ->
  fresh_names (new_var_counter self) (grammar self) ->
  (forall k, new_var_counter self < k -> A <> format_X k) ->
  (sgen no_unit (grammar (convert_terminals self)) words A i len <->
   sgen no_unit (grammar self) words A i len).
Proof.
  intros Hnd Hne Hfresh HA.
  destruct (@convert_terminals_language self Hnd Hne Hfresh)
    as (_ & _ & _ & _ & Hlang).
  apply Hlang. exact HA.
Qed.


Ltac not_generated :=
  let E := fresh "E" in
  intros E; unfold format_X in E; discriminate E.

Lemma anbn_unit_free_ok :
  NoDup (keys (grammar anbn_unit_free)) /\
  no_empty_production (grammar anbn_unit_free) /\
  fresh_names (new_var_counter anbn_unit_free) (grammar anbn_unit_free).
Proof.
  split; [|split; [|split]].
  - simpl. repeat constructor; simpl; intuition discriminate.
  - intros var ps Hin Hnil. simpl in Hin.
    destruct Hin as [E|[E|[]]]; injection E as <- <-; simpl in Hnil;
      intuition discriminate.
  - intros k A q _ Hin. simpl in Hin.
    repeat (destruct Hin as [E|Hin]; [injection E as <- <-; not_generated|]).
    destruct Hin.
  - intros A q s k Hin _ Hs _. simpl in Hin.
    repeat (destruct Hin as [E|Hin];
            [injection E as <- <-; simpl in Hs;
             repeat (destruct Hs as [<-|Hs]; [not_generated|]); destruct Hs|]).
    destruct Hin.
Qed.

Lemma convert_terminals_keeps_language_witness :
  NoDup (keys (grammar anbn_unit_free)) /\
  no_empty_production (grammar anbn_unit_free) /\
  fresh_names (new_var_counter anbn_unit_free) (grammar anbn_unit_free) /\
  (forall k, new_var_counter anbn_unit_free < k -> "S0" <> format_X k) /\
  (sgen no_unit (grammar (convert_terminals anbn_unit_free)) ["a"; "b"] "S0" 0 2
   <-> sgen no_unit (grammar anbn_unit_free) ["a"; "b"] "S0" 0 2).
Proof.
  destruct anbn_unit_free_ok as (Hnd & Hne & Hfresh).
  assert (HA : forall k, new_var_counter anbn_unit_free < k -> "S0" <> format_X k)
    by (intros k _; not_generated).
  split; [exact Hnd|]. split; [exact Hne|]. split; [exact Hfresh|].
  split; [exact HA|].
  exact (@convert_terminals_keeps_language anbn_unit_free ["a"; "b"] "S0" 0 2
           Hnd Hne Hfresh HA).
Defined.

(** ** Pass 5 *)

Lemma chain_symbols q : forall B c A p,
  In (A, p) (chain B c q) ->
  (A = B /\ p = q /\ length q <= 2) \/
  (2 < length q /\ length p = 2 /\
   forall s, In s p -> In s q \/ exists k, s = format_X k).
Proof.
  induction q as [|a rest IH]; intros B c A p Hin.
  - destruct Hin as [E|[]]. injection E as <- <-. left. simpl. auto.
  - destruct (le_lt_dec 2 (length rest)) as [Hl|Hl].
    + destruct (@chain_long B c a rest Hl) as [E1 _]. rewrite E1 in Hin.
      right. destruct Hin as [E|Hin].
      * injection E as <- <-. split; [simpl; lia|]. split; [reflexivity|].
        intros s [<-|[<-|[]]]; [left; left; reflexivity|right; eauto].
      * destruct (IH _ _ _ _ Hin) as [(-> & -> & Hr)|(Hr & Hp & Hs)].
        -- split; [simpl; lia|]. split; [lia|].
           intros s Hs. left. right. exact Hs.
        -- split; [simpl; lia|]. split; [exact Hp|].
           intros s Hin'. destruct (Hs s Hin') as [H1|H1]; [left; right|right];
             assumption.
    + destruct (@chain_short B c (a :: rest)) as [E _]; [simpl; lia|].
      rewrite E in Hin. destruct Hin as [E'|[]]. injection E' as <- <-.
      left. split; [reflexivity|]. split; [reflexivity|simpl; lia].
Qed.

Lemma break_long_productions_In (self : CFGtoCNF) A p :
  In p (dd_get (grammar (break_long_productions self)) A) <->
  In (A, p) (all_chains (new_var_counter self) (flat (grammar self))).
Proof.
  rewrite break_long_productions_chains, In_append_all. simpl. tauto.
Qed.

(** X19. Whatever the grammar, each production that
    [break_long_productions] writes has at most two symbols: it is a
    production of at most two symbols of the old grammar, under the
    same non-terminal, or it has exactly two symbols, each one a symbol
    of a production of three symbols or more of the old grammar or a
    generated name. *)
Theorem break_long_productions_origin (self : CFGtoCNF) (A : string)
  (p : production) :
  In p (dd_get (grammar (break_long_productions self)) A) ->
  length p <= 2 /\
  exists B q,
    In (B, q) (flat (grammar self)) /\
    ((A = B /\ p = q) \/
     (2 < length q /\ length p = 2 /\
      forall s, In s p -> In s q \/ exists k, s = format_X k)).
Proof.
  intros Hp. apply break_long_productions_In in Hp.
  destruct (all_chains_occurs (flat (grammar self)) (new_var_counter self))
    as (H1 & _ & _).
  destruct (H1 A p Hp) as (B & q & c' & (Hq & _) & Hin).
  destruct (chain_symbols _ _ _ _ _ Hin) as [(-> & -> & Hl)|(Hl & Hp2 & Hs)].
  - split; [exact Hl|]. exists B, q. auto.
  - split; [lia|]. exists B, q. auto.
Qed.

Lemma break_long_productions_origin_witness :
  let self := convert_terminals anbn_unit_free in
  In ["X1"; "X3"] (dd_get (grammar (break_long_productions self)) "S0") /\
  length ["X1"; "X3"] <= 2 /\
  exists B q,
    In (B, q) (flat (grammar self)) /\
    (("S0" = B /\ ["X1"; "X3"] = q) \/
     (2 < length q /\ length ["X1"; "X3"] = 2 /\
      forall s, In s ["X1"; "X3"] -> In s q \/ exists k, s = format_X k)).
Proof.
  cbv zeta.
  assert (Hin : In ["X1"; "X3"]
                   (dd_get (grammar (break_long_productions
                                       (convert_terminals anbn_unit_free))) "S0"))
    by (vm_compute; auto).
  split; [exact Hin|]. exact (break_long_productions_origin _ _ _ Hin).
Defined.

(** X20. When the non-terminals of the grammar are distinct, every
    production has one symbol or two symbols or more that are not
    terminals, and no non-terminal and no symbol of a body of two
    symbols or more is a name generated after the current counter,
    [break_long_productions] keeps the language of every symbol that is
    not such a name. *)
Theorem break_long_productions_keeps_language (self : CFGtoCNF)
  (words : list string) (A : string) (i len : nat) :
  NoDup (keys (grammar self)) ->
  fresh_names (new_var_counter self) (grammar self) ->
  (forall B q, In q (dd_get (grammar self) B) -> long_variables q) ->
  (forall k, new_var_counter self < k -> A <> format_X k) ->
  (sgen no_unit (grammar (break_long_productions self)) words A i len <->
   sgen no_unit (grammar self) words A i len).
Proof.
  intros Hnd Hfresh Hlong HA.
  destruct (@break_long_productions_language self Hnd Hfresh Hlong)
    as (_ & _ & Hlang).
  apply Hlang. exact HA.
Qed.

Lemma break_long_productions_keeps_language_witness :
  let self := convert_terminals anbn_unit_free in
  NoDup (keys (grammar self)) /\
  fresh_names (new_var_counter self) (grammar self) /\
  (forall B q, In q (dd_get (grammar self) B) -> long_variables q) /\
  (forall k, new_var_counter self < k -> "S0" <> format_X k) /\
  (sgen no_unit (grammar (break_long_productions self)) ["a"; "b"] "S0" 0 2 <->
   sgen no_unit (grammar self) ["a"; "b"] "S0" 0 2).
Proof.
  cbv zeta.
  destruct anbn_unit_free_ok as (Hnd & Hne & Hfresh).
  destruct (@convert_terminals_language anbn_unit_free Hnd Hne Hfresh)
    as (Hnd4 & Hfresh4 & _ & Hlong4 & _).
  assert (HA : forall k, new_var_counter (convert_terminals anbn_unit_free) < k ->
                         "S0" <> format_X k)
    by (intros k _; not_generated).
  split; [exact Hnd4|]. split; [exact Hfresh4|]. split; [exact Hlong4|].
  split; [exact HA|].
  exact (@break_long_productions_keeps_language
           (convert_terminals anbn_unit_free) ["a"; "b"] "S0" 0 2
           Hnd4 Hfresh4 Hlong4 HA).
Defined.

(* ================================================================= *)
(** * The conversion as a whole *)

Lemma convert_symbol_keys st symbol :
  NoDup (keys (fst (fst (fst st)))) ->
  NoDup (keys (fst (fst (fst (convert_symbol st symbol))))).
Proof.
  destruct st as [[[ng tv] self] np]. cbn [fst]. intros Hnd.
  unfold convert_symbol. destruct (is_terminal symbol); [|exact Hnd].
  destruct (dict_get tv symbol); [exact Hnd|].
  destruct (get_new_variable self) as [X self']. cbn [fst].
  apply NoDup_keys_dict_set. exact Hnd.
Qed.

Lemma convert_terminals_keys (self : CFGtoCNF) :
  NoDup (keys (grammar (convert_terminals self))).
Proof.
  unfold convert_terminals, convert_terminals_loop. rewrite fold_left_flat.
  match goal with
  | |- context [fold_left ?f ?l ?init] =>
      assert (HP : NoDup (keys (fst (fst (fold_left f l init)))))
  end.
  { apply (@fold_left_invariant _ _ _
             (fun st : rules_t * dict string string * CFGtoCNF =>
                NoDup (keys (fst (fst st))))).
    - intros [[ng tv] self1] [var prod] _ Hst. cbn [fst snd] in Hst |- *.
      unfold convert_production.
      destruct (length prod =? 1);
        [cbn [fst]; apply NoDup_keys_dd_append; exact Hst|].
      assert (Hs : NoDup (keys (fst (fst (fst (fold_left convert_symbol prod
                                                  (ng, tv, self1, [])))))))
        by (apply fold_left_invariant;
            [intros a b _; apply convert_symbol_keys|exact Hst]).
      destruct (fold_left convert_symbol prod (ng, tv, self1, []))
        as [[[ng' tv'] self'] np]. cbn [fst] in Hs |- *.
      apply NoDup_keys_dd_append. exact Hs.
    - constructor. }
  destruct (fold_left _ _ _) as [[ng tv] self']. exact HP.
Qed.

Lemma convert_terminals_long_variables (self : CFGtoCNF) :
  no_empty_production (grammar self) ->
  forall A q, In (A, q) (flat (grammar (convert_terminals self))) ->
              long_variables q.
Proof.
  intros Hne A q Hq.
  apply (@In_flat_dd_get _ _ _ (convert_terminals_keys self)) in Hq.
  assert (Hnonempty : forall B q0, In (B, q0) (flat (grammar self)) ->
                                   length q0 <> 1 -> 2 <= length q0).
  { intros B q0 Hq0 Hl. apply In_flat in Hq0 as (ps & Hin & Hq0).
    destruct q0 as [|a [|b q0]]; simpl in *; try lia.
    exfalso. exact (Hne B ps Hin Hq0). }
  destruct (@convert_terminals_origin_inv (grammar self) self eq_refl A q Hq)
    as [[Hl _]|[(t & B & q0 & -> & _)|(q0 & Hq0 & Hl & Hlen & Hfrom)]].
  - left; exact Hl.
  - left; reflexivity.
  - right. split; [rewrite Hlen; eauto|].
    intros s Hs. exact (proj1 (Hfrom s Hs)).
Qed.

(** What a run of [convert] that returns leaves in the grammar,
    whatever the names of the input. *)
Lemma convert_result `{PySetOrder} (G : cfg) (g : cnf) :
  normalize G = Ok g ->
  cnf_start g = "S0" /\
  (forall A, In A (keys (cnf_rules g)) <-> dd_get (cnf_rules g) A <> []) /\
  chomsky (cnf_rules g) /\
  forall A p s,
    In p (dd_get (cnf_rules g) A) -> In s p ->
    s = start G \/ (exists k, s = format_X k) \/
    exists var prods r,
      In (var, prods) (rules G) /\ In r prods /\ In s (split r).
Proof.
  intros Hrun.
  destruct (convert_inversion G Hrun)
    as (Hne & g3 & Hnd3 & _ & _ & Hg3 & Hstart & Hrules).
  destruct (eliminate_start_symbol_spec G) as (_ & Hg1 & _).
  cbv zeta in *.
  set (self1 := eliminate_start_symbol (CFGtoCNF_init G)) in *.
  set (self3 := with_grammar self1 g3) in *.
  assert (Hsrc : forall B q0 s,
             In (B, q0) (flat (grammar self3)) -> In s q0 ->
             s = start G \/
             exists var prods r,
               In (var, prods) (rules G) /\ In r prods /\ In s (split r)).
  { intros B q0 s Hq0 Hs. cbn [self3 grammar with_grammar] in Hq0.
    apply (@In_flat_dd_get _ _ _ Hnd3) in Hq0.
    apply Hg3 in Hq0 as (B' & _ & Hq0 & _).
    apply dd_get_In_flat, In_flat in Hq0 as (ps & Hin & Hq0).
    destruct (Hg1 B' ps Hin) as [[_ ->]|(prods & Hprods & ->)].
    - destruct Hq0 as [<-|[]]. destruct Hs as [<-|[]]. left; reflexivity.
    - apply in_map_iff in Hq0 as (r & <- & Hr). right. eauto 6. }
  assert (Hne3 : no_empty_production (grammar self3)).
  { cbn [self3 grammar with_grammar]. intros var ps Hin Hnil.
    assert (Hq : In [] (dd_get g3 var))
      by (rewrite (@dd_get_item _ _ _ _ Hnd3 Hin); exact Hnil).
    apply Hg3 in Hq as (B & _ & Hq & _).
    apply dd_get_In_flat, In_flat in Hq as (ps' & Hin' & Hq).
    exact (Hne B ps' Hin' Hq). }
  split; [exact Hstart|]. rewrite Hrules.
  split; [|split].
  - intros A. rewrite break_long_productions_chains.
    apply keys_append_all_nonempty.
  - intros A p Hp. apply break_long_productions_In in Hp.
    destruct (all_chains_occurs (flat (grammar (convert_terminals self3)))
                                (new_var_counter (convert_terminals self3)))
      as (H1 & _ & _).
    destruct (H1 A p Hp) as (B & q & c' & (Hq & _) & Hin).
    apply (@chain_chomsky q B c' A p); [|exact Hin].
    exact (convert_terminals_long_variables self3 Hne3 _ _ Hq).
  - intros A p s Hp Hs. apply break_long_productions_In in Hp.
    destruct (all_chains_occurs (flat (grammar (convert_terminals self3)))
                                (new_var_counter (convert_terminals self3)))
      as (H1 & _ & _).
    destruct (H1 A p Hp) as (B & q & c' & (Hq & _) & Hin).
    assert (Hsq : In s q \/ exists k, s = format_X k).
    { destruct (chain_symbols _ _ _ _ _ Hin) as [(_ & -> & _)|(_ & _ & Hsym)];
        [left; exact Hs|exact (Hsym s Hs)]. }
    destruct Hsq as [Hsq|Hk]; [|right; left; exact Hk].
    apply (@In_flat_dd_get _ _ _ (convert_terminals_keys self3)) in Hq.
    destruct (@convert_terminals_origin_inv (grammar self3) self3 eq_refl B q Hq)
      as [[_ Hq0]|[(t & B' & q0 & -> & _ & _ & Hq0 & _ & Ht)
                  |(q0 & Hq0 & _ & _ & Hfrom)]].
    + destruct (Hsrc _ _ _ Hq0 Hsq); auto.
    + destruct Hsq as [<-|[]]. destruct (Hsrc _ _ _ Hq0 Ht); auto.
    + destruct (Hfrom s Hsq) as [_ [Hk|Hs0]]; [auto|].
      destruct (Hsrc _ _ _ Hq0 Hs0); auto.
Qed.

(** X21. Whatever the input, the grammar that [convert] returns has
    the start symbol [S0]; each of its non-terminals has a production;
    each production has one symbol, or two symbols neither of which is
    lowercase. *)
Theorem convert_binary `{PySetOrder} (G : cfg) (g : cnf) :
  normalize G = Ok g ->
  cnf_start g = "S0" /\
  (forall A, In A (keys (cnf_rules g)) -> dd_get (cnf_rules g) A <> []) /\
  forall A p,
    In p (dd_get (cnf_rules g) A) ->
    length p = 1 \/
    exists B C, p = [B; C] /\ islower B = false /\ islower C = false.
Proof.
  intros Hrun. destruct (convert_result G Hrun) as (Hstart & Hkeys & Hch & _).
  split; [exact Hstart|]. split; [intros A; apply Hkeys|].
  intros A p Hp.
  destruct (Hch A p Hp) as [Hl|(B & C & -> & HB & HC)]; [left; exact Hl|right].
  rewrite is_terminal_islower in HB, HC. eauto.
Qed.

Lemma convert_binary_witness :
  exists g,
    @normalize insertion_order undefined_grammar = Ok g /\
    cnf_start g = "S0" /\
    (forall A, In A (keys (cnf_rules g)) -> dd_get (cnf_rules g) A <> []) /\
    forall A p,
      In p (dd_get (cnf_rules g) A) ->
      length p = 1 \/
      exists B C, p = [B; C] /\ islower B = false /\ islower C = false.
Proof.
  eexists. split; [vm_compute; reflexivity|].
  apply (@convert_binary insertion_order undefined_grammar).
  vm_compute; reflexivity.
Defined.

(** X22. [convert] invents no symbol but the generated names: each
    symbol of a production of the grammar it returns is the start
    symbol of the input, a name [X<k>], or a symbol of a rule string of
    the input. *)
Theorem convert_symbols `{PySetOrder} (G : cfg) (g : cnf) (A : string)
  (p : production) (s : string) :
  normalize G = Ok g ->
  In p (dd_get (cnf_rules g) A) -> In s p ->
  s = start G \/ (exists k, s = format_X k) \/
  exists var prods r,
    In (var, prods) (rules G) /\ In r prods /\ In s (split r).
Proof.
  intros Hrun. destruct (convert_result G Hrun) as (_ & _ & _ & Hsym).
  apply Hsym.
Qed.

Lemma convert_symbols_witness :
  exists g,
    @normalize insertion_order undefined_grammar = Ok g /\
    In ["A"; "X1"] (dd_get (cnf_rules g) "S") /\ In "X1" ["A"; "X1"] /\
    ("X1" = start undefined_grammar \/ (exists k, "X1" = format_X k) \/
     exists var prods r,
       In (var, prods) (rules undefined_grammar) /\ In r prods /\
       In "X1" (split r)).
Proof.
  eexists.
  assert (Hrun : @normalize insertion_order undefined_grammar
                 = Ok {| cnf_start := "S0";
                         cnf_rules := [("S0", [["T"]]); ("X1", [["b"]]);
                                       ("S", [["A"; "X1"]])] |})
    by (vm_compute; reflexivity).
  assert (Hp : In ["A"; "X1"]
                  (dd_get [("S0", [["T"]]); ("X1", [["b"]]);
                           ("S", [["A"; "X1"]])] "S")) by (vm_compute; auto).
  assert (Hs : In "X1" ["A"; "X1"]) by (simpl; auto).
  split; [exact Hrun|]. split; [exact Hp|]. split; [exact Hs|].
  exact (@convert_symbols insertion_order undefined_grammar _ "S" _ "X1"
           Hrun Hp Hs).
Defined.

(** X23. On a dictionary, [convert] raises [IndexError] as soon as a
    rule string of the input is empty or made of white space only. *)
Theorem convert_raises_on_blank_rule `{PySetOrder} (G : cfg)
  (var : string) (prods : list string) (r : string) :
  NoDup (keys (rules G)) ->
  In (var, prods) (rules G) -> In r prods -> blank r = true ->
  normalize G = Raise IndexError.
Proof.
  intros Hnd Hin Hr Hb. unfold normalize.
  rewrite (@convert_Raise _ G); [reflexivity|].
  exists var, (map split prods). split.
  - apply dict_get_Some_In. unfold eliminate_start_symbol.
    cbn [grammar with_grammar with_start_symbol CFGtoCNF_init original_grammar
         start_symbol].
    apply (@fold_dict_set_get _ _ (map split) (rules G) Hnd _ _ _ Hin).
  - apply in_map_iff. exists r. split; [|exact Hr].
    apply split_nil. exact Hb.
Qed.

Lemma convert_raises_on_blank_rule_witness :
  NoDup (keys (rules blank_grammar)) /\
  In ("S", [""]) (rules blank_grammar) /\ In "" [""] /\ blank "" = true /\
  @normalize insertion_order blank_grammar = Raise IndexError.
Proof.
  assert (Hnd : NoDup (keys (rules blank_grammar)))
    by (simpl; repeat constructor; simpl; intuition discriminate).
  assert (Hin : In ("S", [""]) (rules blank_grammar)) by (simpl; auto).
  assert (Hr : In "" [""]) by (simpl; auto).
  split; [exact Hnd|]. split; [exact Hin|]. split; [exact Hr|].
  split; [reflexivity|].
  exact (@convert_raises_on_blank_rule insertion_order blank_grammar
           "S" [""] "" Hnd Hin Hr eq_refl).
Defined.

(** X24. The test of [convert_terminals],
    [symbol.islower() or symbol in ['a', 'the']], is the test
    [symbol.islower()]: the second half never decides. A generated name
    never passes it. *)
Theorem terminal_test :
  (forall symbol, is_terminal symbol = islower symbol) /\
  (forall k, is_terminal (format_X k) = false).
Proof. split; [exact is_terminal_islower|exact is_terminal_format_X]. Qed.

(** ** The parser on the converted grammar *)

Lemma dict_set_new {V} (d : dict string V) k v :
  ~ In k (keys d) -> dict_set d k v = d ++ [(k, v)].
Proof.
  induction d as [|[k' v'] d IH]; intros Hk; cbn [dict_set app];
    [reflexivity|].
  simpl in Hk. case_key k k' E; [subst; tauto|].
  rewrite IH by tauto. reflexivity.
Qed.

Lemma fold_dict_set_new {V W} (f : W -> V) (l : list (string * W)) :
  forall d : dict string V,
    NoDup (keys d ++ map fst l) ->
    fold_left (fun g '(var, x) => dict_set g var (f x)) l d
    = d ++ map (fun r => (fst r, f (snd r))) l.
Proof.
  induction l as [|[k x] l IH]; intros d Hnd; cbn [fold_left map fst snd].
  - symmetry. apply app_nil_r.
  - cbn [map fst] in Hnd.
    assert (Hk : ~ In k (keys d)).
    { intros Hin. apply NoDup_remove_2 in Hnd. apply Hnd.
      apply in_or_app; auto. }
    rewrite (@dict_set_new _ d k (f x) Hk), IH.
    + rewrite <- app_assoc. reflexivity.
    + unfold keys in *. rewrite map_app, <- app_assoc. exact Hnd.
Qed.

Lemma eliminate_start_symbol_split_rules (G : cfg) :
  NoDup (keys (rules G)) -> ~ In "S0" (keys (rules G)) ->
  grammar (eliminate_start_symbol (CFGtoCNF_init G)) = split_rules G.
Proof.
  intros Hnd HS0. unfold eliminate_start_symbol, split_rules.
  cbn [grammar with_grammar with_start_symbol CFGtoCNF_init original_grammar
       start_symbol dict_set].
  rewrite (@fold_dict_set_new _ _ (map split) (rules G)); [reflexivity|].
  simpl. constructor; assumption.
Qed.

(** X25. The whole program decides the language of the input grammar.
    When the non-terminals of the input are distinct, none is named
    [S0], no non-terminal and no symbol of a rule is named [X<k>], and
    [convert] returns, then for every sentence of one word or more the
    parser built on the converted grammar returns, and it accepts if
    and only if [S0] derives the words of the sentence in the input
    grammar with the rule [S0 -> start] (a body of one symbol [B] being
    a unit production when [B] is a non-terminal and the word [B]
    otherwise; in a longer body a lowercase symbol being a word and any
    other symbol a non-terminal). *)
Theorem cyk_decides_language `{PySetOrder} (G : cfg) (g : cnf)
  (sentence : string) :
  NoDup (keys (rules G)) -> ~ In "S0" (keys (rules G)) ->
  no_generated_name G ->
  normalize G = Ok g ->
  tokenize sentence <> [] ->
  exists acc data,
    parse (CYKParser_init g) sentence = Ok (acc, data) /\
    (acc = true <->
     sgen (key_of (split_rules G)) (split_rules G) (tokenize sentence)
          "S0" 0 (length (tokenize sentence))).
Proof.
  intros Hnd HS0 Hng Hrun Hwords.
  destruct (normalize_language Hrun Hng) as (Hstart & Hlang).
  cbv zeta in Hlang.
  rewrite (@eliminate_start_symbol_split_rules G Hnd HS0) in Hlang.
  destruct (@parse_nonempty _ g (tokenize sentence) sentence eq_refl Hwords)
    as (table & backpointer & _ & _ & Hcells & Hparse).
  cbv zeta in Hparse. do 2 eexists. split; [exact Hparse|].
  rewrite mem_In, Hcells, Hstart.
  replace (length (tokenize sentence) - 1 + 1) with (length (tokenize sentence))
    by (destruct (tokenize sentence); [congruence|simpl; lia]).
  apply Hlang. intros k. unfold format_X. discriminate.
Qed.

Lemma cyk_decides_language_witness :
  exists g,
    NoDup (keys (rules anbn_grammar)) /\ ~ In "S0" (keys (rules anbn_grammar)) /\
    no_generated_name anbn_grammar /\
    @normalize insertion_order anbn_grammar = Ok g /\
    tokenize "a a b b" <> [] /\
    exists acc data,
      @parse insertion_order (CYKParser_init g) "a a b b" = Ok (acc, data) /\
      (acc = true <->
       sgen (key_of (split_rules anbn_grammar)) (split_rules anbn_grammar)
            (tokenize "a a b b") "S0" 0 (length (tokenize "a a b b"))).
Proof.
  eexists.
  assert (Hnd : NoDup (keys (rules anbn_grammar)))
    by (repeat constructor; intros []).
  assert (HS0 : ~ In "S0" (keys (rules anbn_grammar)))
    by (simpl; intuition discriminate).
  assert (Hng : no_generated_name anbn_grammar)
    by (apply no_X_name_sound; reflexivity).
  assert (Hw : tokenize "a a b b" <> []) by discriminate.
  split; [exact Hnd|]. split; [exact HS0|]. split; [exact Hng|].
  split; [vm_compute; reflexivity|]. split; [exact Hw|].
  refine (@cyk_decides_language insertion_order anbn_grammar _ "a a b b"
            Hnd HS0 Hng _ Hw).
  vm_compute; reflexivity.
Defined.

(** ** Printing a production and reading it again *)

Lemma append_empty_r (s : string) : (s ++ "")%string = s.
Proof. induction s as [|c s IH]; simpl; [reflexivity|]. rewrite IH; reflexivity. Qed.

Lemma append_assoc_string (a b c : string) :
  ((a ++ b) ++ c)%string = (a ++ (b ++ c))%string.
Proof. induction a as [|x a IH]; simpl; [reflexivity|]. rewrite IH; reflexivity. Qed.

Lemma split_from_run w : forall tok s,
  str_exists is_space_char w = false ->
  split_from tok (w ++ s)%string = split_from (tok ++ w)%string s.
Proof.
  induction w as [|c w IH]; intros tok s Hw.
  - rewrite append_empty_r. reflexivity.
  - simpl in Hw. apply orb_false_iff in Hw as [Hc Hw].
    cbn [append split_from]. rewrite Hc, (IH _ _ Hw), append_assoc_string.
    reflexivity.
Qed.

Lemma split_join_words (l : list string) :
  Forall word l -> split (join " " l) = l.
Proof.
  unfold split. induction 1 as [|x l [Hx Hsp] Hl IH]; [reflexivity|].
  destruct l as [|y l].
  - cbn [join]. rewrite <- (append_empty_r x) at 1.
    rewrite (@split_from_run x _ _ Hsp). cbn [append split_from].
    destruct x; [congruence|reflexivity].
  - change (join " " (x :: y :: l))
      with (x ++ String " " (join " " (y :: l)))%string.
    rewrite (@split_from_run x _ _ Hsp). cbn [append split_from].
    change (is_space_char " ") with true. cbv iota.
    rewrite IH. destruct x; [congruence|reflexivity].
Qed.

Lemma split_words (s w : string) : In w (split s) -> word w.
Proof.
  intros Hin.
  apply (@split_from_words (fun _ => false) s EmptyString w); auto.
  clear. induction s as [|c s IH]; simpl; auto.
Qed.

Lemma format_X_word (k : nat) : word (format_X k).
Proof.
  split; [unfold format_X; discriminate|].
  unfold format_X. cbn [str_exists].
  change (is_space_char "X") with false. cbn [orb].
  assert (Hd : forall d, str_exists is_space_char (NilEmpty.string_of_uint d)
                         = false).
  { induction d; cbn [NilEmpty.string_of_uint str_exists]; rewrite ?IHd;
      reflexivity. }
  unfold NilZero.string_of_uint. destruct (Nat.to_uint k); try apply Hd.
  reflexivity.
Qed.

Lemma join_ascii (l : list string) :
  Forall (fun w => is_ascii w = true) l -> is_ascii (join " " l) = true.
Proof.
  induction 1 as [|x l Hx Hl IH]; [reflexivity|].
  destruct l as [|y l]; [exact Hx|].
  change (join " " (x :: y :: l))
    with (x ++ String " " (join " " (y :: l)))%string.
  apply is_ascii_spec. rewrite str_exists_app.
  apply is_ascii_spec in Hx, IH. rewrite Hx. cbn [str_exists orb].
  exact IH.
Qed.

(** X26. On ASCII text, joining symbols with a space and splitting the
    line gives the symbols back when none of them is empty or holds
    white space, the line being ASCII text too; so [split] is a left
    inverse of [' '.join] on whatever [split] returned. *)
Theorem split_join (l : list string) (s : string) :
  Forall (fun w => word w /\ is_ascii w = true) l ->
  is_ascii s = true ->
  (is_ascii (join " " l) = true /\ split (join " " l) = l) /\
  (is_ascii (join " " (split s)) = true /\
   split (join " " (split s)) = split s).
Proof.
  intros Hl Hs. split; split.
  - apply join_ascii. eapply Forall_impl; [|exact Hl]. intros w [_ Hw]; exact Hw.
  - apply split_join_words. eapply Forall_impl; [|exact Hl].
    intros w [Hw _]; exact Hw.
  - apply join_ascii. apply Forall_forall. intros w. apply split_ascii, Hs.
  - apply split_join_words. apply Forall_forall. intros w. apply split_words.
Qed.

Lemma split_join_witness :
  Forall (fun w => word w /\ is_ascii w = true) ["NP"; "VP"] /\
  is_ascii " she  eats " = true /\
  (is_ascii (join " " ["NP"; "VP"]) = true /\
   split (join " " ["NP"; "VP"]) = ["NP"; "VP"]) /\
  (is_ascii (join " " (split " she  eats ")) = true /\
   split (join " " (split " she  eats ")) = split " she  eats ").
Proof.
  assert (Hl : Forall (fun w => word w /\ is_ascii w = true) ["NP"; "VP"]).
  { repeat constructor; discriminate. }
  split; [exact Hl|]. split; [reflexivity|].
  exact (split_join " she  eats " Hl eq_refl).
Defined.

(** X27. When the input grammar is ASCII text, a production of the
    grammar that [convert] returns is made of symbols of ASCII text
    and, printed with [' '.join(prod)] as option 5 of the menu does, is
    read back by [split] as the same production, provided the start
    symbol of the input is not empty and holds no white space. *)
Theorem convert_print_read `{PySetOrder} (G : cfg) (g : cnf) (A : string)
  (p : production) :
  ascii_grammar G ->
  word (start G) ->
  normalize G = Ok g ->
  In p (dd_get (cnf_rules g) A) ->
  Forall (fun s => is_ascii s = true) p /\ split (join " " p) = p.
Proof.
  intros [Hascii Hrules] Hstart Hrun Hp.
  destruct (convert_result G Hrun) as (_ & _ & _ & Hsym).
  split.
  - apply Forall_forall. intros s Hs.
    destruct (Hsym A p s Hp Hs)
      as [->|[(k & ->)|(var & prods & r & Hin & Hr & Hs')]].
    + exact Hascii.
    + apply format_X_ascii.
    + exact (split_ascii r s (proj2 (Hrules var prods Hin) r Hr) Hs').
  - apply split_join_words. apply Forall_forall. intros s Hs.
    destruct (Hsym A p s Hp Hs)
      as [->|[(k & ->)|(var & prods & r & _ & _ & Hr)]].
    + exact Hstart.
    + apply format_X_word.
    + exact (split_words _ _ Hr).
Qed.

Lemma undefined_grammar_ascii : ascii_grammar undefined_grammar.
Proof.
  split; [reflexivity|]. intros var prods [E|[]]. injection E as <- <-.
  split; [reflexivity|]. intros p [<-|[]]. reflexivity.
Qed.

Lemma convert_print_read_witness :
  exists g,
    ascii_grammar undefined_grammar /\
    word (start undefined_grammar) /\
    @normalize insertion_order undefined_grammar = Ok g /\
    In ["A"; "X1"] (dd_get (cnf_rules g) "S") /\
    Forall (fun s => is_ascii s = true) ["A"; "X1"] /\
    split (join " " ["A"; "X1"]) = ["A"; "X1"].
Proof.
  eexists.
  assert (Hstart : word (start undefined_grammar))
    by (split; [discriminate|reflexivity]).
  assert (Hrun : @normalize insertion_order undefined_grammar
                 = Ok {| cnf_start := "S0";
                         cnf_rules := [("S0", [["T"]]); ("X1", [["b"]]);
                                       ("S", [["A"; "X1"]])] |})
    by (vm_compute; reflexivity).
  assert (Hp : In ["A"; "X1"]
                  (dd_get [("S0", [["T"]]); ("X1", [["b"]]);
                           ("S", [["A"; "X1"]])] "S")) by (vm_compute; auto).
  split; [exact undefined_grammar_ascii|].
  split; [exact Hstart|]. split; [exact Hrun|]. split; [exact Hp|].
  exact (@convert_print_read insertion_order undefined_grammar _ "S" _
           undefined_grammar_ascii Hstart Hrun Hp).
Defined.

(** ** The order in which sets are visited *)

(** X28. The verdict of [parse] does not depend on the order in which
    the [for] loops visit the sets of the table (an order that Python
    leaves unspecified): two runs under two orders accept the same
    sentences, and raise on the same ones. *)
Theorem parse_verdict_any_order (o o' : PySetOrder) (cg : cnf)
  (sentence : string) :
  match @parse o (CYKParser_init cg) sentence,
        @parse o' (CYKParser_init cg) sentence with
  | Ok (acc, _), Ok (acc', _) => acc = acc'
  | Raise e, Raise e' => e = e'
  | _, _ => False
  end.
Proof.
  destruct (tokenize sentence) as [|w ws] eqn:Hwords.
  - unfold parse, fill_tables. rewrite Hwords. reflexivity.
  - assert (Hne : tokenize sentence <> []) by congruence.
    destruct (@parse_nonempty o cg (tokenize sentence) sentence eq_refl Hne)
      as (t1 & b1 & _ & _ & Hc1 & Hr1).
    destruct (@parse_nonempty o' cg (tokenize sentence) sentence eq_refl Hne)
      as (t2 & b2 & _ & _ & Hc2 & Hr2).
    cbv zeta in Hr1, Hr2. rewrite Hr1, Hr2.
    apply eq_true_iff_eq. rewrite !mem_In, Hc1, Hc2. tauto.
Qed.

(** X29. When no non-terminal and no symbol of a rule of the grammar is
    named [X<k>], what the converter and the parser answer together
    (the verdict, or [IndexError]) does not depend on the order in
    which sets are visited, in pass 3 and in the parser. *)
Theorem accepted_any_order (o o' : PySetOrder) (G : cfg) (sentence : string) :
  no_generated_name G ->
  @accepted o G sentence = @accepted o' G sentence.
Proof.
  intros Hng.
  destruct (@normalize_cases o G) as [[Hne (g & Hrun)]|[Hempty Hrun]];
    destruct (@normalize_cases o' G) as [[Hne' (g' & Hrun')]|[Hempty' Hrun']].
  - destruct (tokenize sentence) as [|w ws] eqn:Hwords.
    + unfold accepted, parse, fill_tables. rewrite Hrun, Hrun', Hwords.
      reflexivity.
    + assert (Hw : tokenize sentence <> []) by congruence.
      destruct (@accepted_language o G g sentence Hrun Hng Hw) as (b & -> & Hb).
      destruct (@accepted_language o' G g' sentence Hrun' Hng Hw)
        as (b' & -> & Hb').
      f_equal. apply eq_true_iff_eq. rewrite Hb, Hb'. tauto.
  - exfalso. destruct Hempty' as (var & ps & Hin & Hnil).
    exact (Hne var ps Hin Hnil).
  - exfalso. destruct Hempty as (var & ps & Hin & Hnil).
    exact (Hne' var ps Hin Hnil).
  - unfold accepted. rewrite Hrun, Hrun'. reflexivity.
Qed.

Lemma accepted_any_order_witness :
  no_generated_name anbn_grammar /\
  @accepted insertion_order anbn_grammar "a a b b"
  = @accepted reverse_order anbn_grammar "a a b b".
Proof.
  assert (Hng : no_generated_name anbn_grammar)
    by (apply no_X_name_sound; reflexivity).
  split; [exact Hng|].
  exact (@accepted_any_order insertion_order reverse_order anbn_grammar
           "a a b b" Hng).
Defined.

(** ** The parser of [main] *)

(** X30. The parser that [main] builds from its grammar decides the
    language of that grammar: the conversion returns, and on every
    sentence of one word or more the parser returns a verdict, which is
    acceptance if and only if [S0] derives the words of the sentence in
    the grammar of [main] with the rule [S0 -> S]. *)
Theorem main_parser_decides `{PySetOrder} (sentence : string) :
  tokenize sentence <> [] ->
  exists g acc data,
    normalize demo_grammar = Ok g /\
    parse (CYKParser_init g) sentence = Ok (acc, data) /\
    (acc = true <->
     sgen (key_of (split_rules demo_grammar)) (split_rules demo_grammar)
          (tokenize sentence) "S0" 0 (length (tokenize sentence))).
Proof.
  intros Hwords.
  assert (Hnd : NoDup (keys (rules demo_grammar))).
  { simpl. repeat constructor; simpl; intuition discriminate. }
  assert (HS0 : ~ In "S0" (keys (rules demo_grammar)))
    by (simpl; intuition discriminate).
  assert (Hng : no_generated_name demo_grammar)
    by (apply no_X_name_sound; reflexivity).
  destruct (normalize_cases demo_grammar) as [[_ (g & Hrun)]|[Hempty _]].
  - exists g.
    destruct (normalize_language Hrun Hng) as (Hstart & Hlang).
    cbv zeta in Hlang.
    rewrite (@eliminate_start_symbol_split_rules demo_grammar Hnd HS0) in Hlang.
    destruct (@parse_nonempty _ g (tokenize sentence) sentence eq_refl Hwords)
      as (table & backpointer & _ & _ & Hcells & Hparse).
    cbv zeta in Hparse. do 2 eexists. split; [exact Hrun|].
    split; [exact Hparse|].
    rewrite mem_In, Hcells, Hstart.
    replace (length (tokenize sentence) - 1 + 1)
      with (length (tokenize sentence))
      by (destruct (tokenize sentence); [congruence|simpl; lia]).
    apply Hlang. intros k. unfold format_X. discriminate.
  - exfalso. destruct Hempty as (var & ps & Hin & Hnil).
    rewrite (@eliminate_start_symbol_split_rules demo_grammar Hnd HS0) in Hin.
    vm_compute in Hin.
    repeat (destruct Hin as [E|Hin];
            [injection E as <- <-; simpl in Hnil; intuition discriminate|]).
    destruct Hin.
Qed.

Lemma main_parser_decides_witness :
  tokenize "she eats a cake" <> [] /\
  exists g acc data,
    @normalize insertion_order demo_grammar = Ok g /\
    @parse insertion_order (CYKParser_init g) "she eats a cake"
    = Ok (acc, data) /\
    (acc = true <->
     sgen (key_of (split_rules demo_grammar)) (split_rules demo_grammar)
          (tokenize "she eats a cake") "S0" 0
          (length (tokenize "she eats a cake"))).
Proof.
  assert (Hw : tokenize "she eats a cake" <> []) by discriminate.
  split; [exact Hw|].
  exact (@main_parser_decides insertion_order "she eats a cake" Hw).
Defined.
